(** * text-to-video: the script parser, the voice-over model and the
      timeline compositor of [main.py], embedded in Rocq.

    Conventions of the embedding.

    - A Python [str] is a Rocq [string] holding the UTF-8 bytes of the text.
      Every string operation of the program ([strip], [replace] of an ASCII
      character, [saxutils.escape], the CSV writer, [in] on dict keys) acts
      on whole characters, and UTF-8 never places an ASCII byte inside a
      multi-byte character, so the byte-level definitions below agree with
      Python on every well-formed text; [encode("utf8")] is then the list of
      the bytes.
    - Python [int] is [Z]. Python [float] is IEEE 754 binary64: a finite
      float is the rational it denotes, and every operation rounds its exact
      result to the nearest float, ties to even, with the overflow to
      infinity and the [OverflowError] of Python's conversions (module
      [Float]); the mixed arithmetic of [int] and [float] is module [Num].
    - An exception is a value of [exn]; code that can raise returns
      [result].
    - Library code that is not part of the repository (pydantic's type
      coercions, the external programs, the media files) is a parameter:
      the classes [Pydantic] and [Host]. *)

From Stdlib Require Import ZArith QArith Qminmax Qround Qabs Qpower.
From Stdlib Require Import Qreduction Qcanon Lia Lqa String Ascii List.
From Corelib Require PrimFloat FloatOps SpecFloat.
From stdpp Require Import gmap strings list.

Local Open Scope string_scope.
Local Open Scope list_scope.
Local Open Scope Z_scope.

(** ** The values of Python's [float] *)

Inductive float : Type :=
| Finite (q : Q)
| Inf (negative : bool)
| NaN.

(** ** Script values as [yaml.safe_load] returns them *)

#[local] Unset Elimination Schemes.
Inductive yaml : Type :=
| YNull
| YBool (b : bool)
| YInt (z : Z)
| YFloat (f : float)
| YStr (s : string)
| YSeq (l : list yaml)
| YMap (m : list (yaml * yaml)).
#[local] Set Elimination Schemes.

(** ** Exceptions and the error monad *)

Inductive exn : Type :=
| KeyError (key : yaml)            (* [d[key]] on a missing key *)
| IndexError                       (* [l[0]] on an empty list *)
| TypeError
| ValidationError (model : string) (* pydantic rejects the data of a model *)
| ZeroDivisionError
| OverflowError                    (* an [int] too large for a [float] *)
| ValueError
| OSError (path : string)          (* a file is missing or unreadable *)
| FileNotFoundError (path : string)
| NotADirectoryError (path : string)
| IsADirectoryError (path : string)
| CalledProcessError (cmd : string) (returncode : Z).

Inductive result (A : Type) : Type :=
| Ok (a : A)
| Raise (e : exn).
Arguments Ok {A} a.
Arguments Raise {A} e.

Definition bind {A B : Type} (m : result A) (k : A -> result B) : result B :=
  match m with
  | Ok a => k a
  | Raise e => Raise e
  end.

Notation "x <- m ;; k" := (bind m (fun x => k))
  (at level 100, m at next level, right associativity).

Definition is_ok {A : Type} (m : result A) : bool :=
  match m with Ok _ => true | Raise _ => false end.

(** A [for] loop whose body can raise: the state is threaded from left to
    right and the first exception ends the loop. *)
Fixpoint for_each {A S : Type} (body : S -> A -> result S) (l : list A) (s : S)
  : result S :=
  match l with
  | [] => Ok s
  | a :: l' => s' <- body s a ;; for_each body l' s'
  end.

(** ** Python's numbers

    A [float] is an IEEE 754 binary64 number. A finite one is given by its
    value, a rational in lowest terms; the sign of zero is not kept (the
    program never divides by a float, formats one or takes its sign).
    An operation returns the exact result rounded to the nearest float,
    ties to the even significand ([round]): 53 bits of precision, the
    subnormal numbers are the multiples of [2^-1074], and a result that
    rounds to [2^1024] or beyond is infinite. *)

Module Float.
Local Open Scope Q_scope.

Definition t : Type := float.

Definition pow2 (e : Z) : Q := Qpower 2 e.

(** The [k] with [2^k <= q < 2^(k+1)], for [q > 0]. *)
Definition ilog2 (q : Q) : Z :=
  let k := (Z.log2 (Qnum q) - Z.log2 (Z.pos (Qden q)))%Z in
  if Qle_bool (pow2 k) q then k else (k - 1)%Z.

(** The nearest integer, ties to even. *)
Definition rint (x : Q) : Z :=
  let f := Qfloor x in
  match (x - inject_Z f ?= 1 # 2)%Q with
  | Lt => f
  | Gt => (f + 1)%Z
  | Eq => if Z.even f then f else (f + 1)%Z
  end.

(** The exponent of the last bit of the floats around [q]. *)
Definition quantum (q : Q) : Z := Z.max (ilog2 (Qabs q) - 52) (-1074).

(** The multiple of [2^quantum] nearest to [q]. *)
Definition round (q : Q) : Q :=
  if Qeq_bool q 0 then 0
  else let e := quantum q in Qred (inject_Z (rint (q / pow2 e)) * pow2 e).

Definition overflows (r : Q) : bool := Qle_bool (pow2 1024) (Qabs r).

Definition negative (q : Q) : bool := negb (Qle_bool 0 q).

(** The float nearest to the number [q]. *)
Definition of_Q (q : Q) : t :=
  let r := round q in
  if overflows r then Inf (negative r) else Finite r.

(** [float(z)] on an [int], also the conversion of an [int] operand. *)
Definition of_int (z : Z) : result t :=
  let r := round (inject_Z z) in
  if overflows r then Raise OverflowError else Ok (Finite r).

(** [a / b] on two [int]s: the quotient of the integers, rounded once. *)
Definition truediv (a b : Z) : result t :=
  if (b =? 0)%Z then Raise ZeroDivisionError
  else
    let r := round (inject_Z a / inject_Z b) in
    if overflows r then Raise OverflowError else Ok (Finite r).

Definition add (a b : t) : t :=
  match a, b with
  | NaN, _ | _, NaN => NaN
  | Inf s, Inf s' => if Bool.eqb s s' then Inf s else NaN
  | Inf s, Finite _ | Finite _, Inf s => Inf s
  | Finite x, Finite y => of_Q (x + y)
  end.

Definition opp (a : t) : t :=
  match a with
  | Finite x => Finite (- x)
  | Inf s => Inf (negb s)
  | NaN => NaN
  end.

Definition sub (a b : t) : t := add a (opp b).

Definition mul (a b : t) : t :=
  match a, b with
  | NaN, _ | _, NaN => NaN
  | Inf s, Inf s' => Inf (xorb s s')
  | Inf s, Finite y | Finite y, Inf s =>
      if Qeq_bool y 0 then NaN else Inf (xorb s (negative y))
  | Finite x, Finite y => of_Q (x * y)
  end.

(** [a < b] and [a <= b]; a comparison with NaN is false. *)
Definition ltb (a b : t) : bool :=
  match a, b with
  | NaN, _ | _, NaN => false
  | Finite x, Finite y => negb (Qle_bool y x)
  | Finite _, Inf s => negb s
  | Inf s, Finite _ => s
  | Inf s, Inf s' => s && negb s'
  end.

Definition leb (a b : t) : bool :=
  match a, b with
  | NaN, _ | _, NaN => false
  | Finite x, Finite y => Qle_bool x y
  | Finite _, Inf s => negb s
  | Inf s, Finite _ => s
  | Inf s, Inf s' => s || negb s'
  end.

Definition gtb (a b : t) : bool := ltb b a.

(** [int(x)]: the integer part. *)
Definition trunc (a : t) : result Z :=
  match a with
  | Finite q => Ok (Z.quot (Qnum q) (Z.pos (Qden q)))
  | Inf _ => Raise OverflowError
  | NaN => Raise ValueError
  end.

(** The value is a binary64 number: rounding does not change it. *)
Definition is_float (a : t) : bool :=
  match a with
  | Finite q =>
      (Qnum (round q) =? Qnum q)%Z && (Qden (round q) =? Qden q)%positive
      && negb (overflows q)
  | _ => true
  end.

(** A playback length: a finite float that is not negative. *)
Definition is_duration (a : t) : bool :=
  match a with
  | Finite q => is_float a && Qle_bool 0 q
  | _ => false
  end.

End Float.

(** A number of the program is an [int] or a [float]. In an operation on
    the two the [int] is converted first, which raises [OverflowError]
    when it is out of the range of the floats; two [int]s are compared,
    added and multiplied exactly; an [int] and a [float] are compared by
    their exact values. *)
Module Num.

Inductive t : Type :=
| Int (z : Z)
| Flt (f : Float.t).

(** The operand as a float, when the conversion does not overflow. *)
Definition as_float (n : t) : Float.t :=
  match n with
  | Int z => Float.of_Q (inject_Z z)
  | Flt f => f
  end.

Definition fits (n : t) : bool :=
  match n with
  | Int z => is_ok (Float.of_int z)
  | Flt _ => true
  end.

Definition arith (int_op : Z -> Z -> Z) (float_op : Float.t -> Float.t -> Float.t)
    (a b : t) : t :=
  match a, b with
  | Int x, Int y => Int (int_op x y)
  | _, _ => Flt (float_op (as_float a) (as_float b))
  end.

Definition checked (op : t -> t -> t) (a b : t) : result t :=
  match a, b with
  | Int _, Int _ => Ok (op a b)
  | _, _ => if fits a && fits b then Ok (op a b) else Raise OverflowError
  end.

(** The results of [a + b], [a - b] and [a * b] when they do not raise. *)
Definition plus : t -> t -> t := arith Z.add Float.add.
Definition minus : t -> t -> t := arith Z.sub Float.sub.
Definition times : t -> t -> t := arith Z.mul Float.mul.

(** [a + b], [a - b], [a * b] *)
Definition add : t -> t -> result t := checked plus.
Definition sub : t -> t -> result t := checked minus.
Definition mul : t -> t -> result t := checked times.

(** The exact value, for comparisons. *)
Definition value (n : t) : Float.t :=
  match n with
  | Int z => Finite (inject_Z z)
  | Flt f => f
  end.

Definition ltb (a b : t) : bool := Float.ltb (value a) (value b).
Definition leb (a b : t) : bool := Float.leb (value a) (value b).

End Num.

(** ** The machine's binary64 numbers

    Rocq's primitive floats are the processor's. They serve to run the
    arithmetic of [Float] against the hardware on the numbers of the
    examples; no definition of the program uses them. *)

Module Hardware.

(** An [int] of at most 53 bits as a float. *)
Definition of_Z (z : Z) : PrimFloat.float :=
  FloatOps.SF2Prim
    match z with
    | Z0 => SpecFloat.S754_zero false
    | Zpos p => SpecFloat.S754_finite false p 0
    | Zneg p => SpecFloat.S754_finite true p 0
    end.

(** The value of a primitive float. *)
Definition value (x : PrimFloat.float) : float :=
  match FloatOps.Prim2SF x with
  | SpecFloat.S754_zero _ => Finite 0
  | SpecFloat.S754_infinity s => Inf s
  | SpecFloat.S754_nan => NaN
  | SpecFloat.S754_finite s m e =>
      Finite (Qred ((if s then -1 else 1) * inject_Z (Z.pos m)
                    * Float.pow2 e)%Q)
  end.

End Hardware.

(** ** Python's [str] methods used by the program *)

Module Py.

Definition chr (n : Z) : ascii := ascii_of_N (Z.to_N n).
Definition ord (c : ascii) : Z := Z.of_N (N_of_ascii c).

(** The characters written ["\r"] and ["\n"] in Python. *)
Definition CR : ascii := "013"%char.
Definition LF : ascii := "010"%char.

(** [s.encode("utf8")]: the bytes of the text. *)
Fixpoint encode_utf8 (s : string) : list Z :=
  match s with
  | EmptyString => []
  | String c s' => ord c :: encode_utf8 s'
  end.

Fixpoint starts_with (p s : string) : option string :=
  match p, s with
  | EmptyString, _ => Some s
  | String a p', String b s' =>
      if Ascii.eqb a b then starts_with p' s' else None
  | String _ _, EmptyString => None
  end.

Fixpoint rev_string (s acc : string) : string :=
  match s with
  | EmptyString => acc
  | String c s' => rev_string s' (String c acc)
  end.

Definition bytes (l : list Z) : string :=
  fold_right (fun b s => String (chr b) s) EmptyString l.

(** The characters [str.strip()] removes: those for which
    [str.isspace()] holds, as their UTF-8 encodings. *)
Definition whitespace : list string :=
  map bytes
    [ [9]; [10]; [11]; [12]; [13]; [28]; [29]; [30]; [31]; [32];
      [194; 133]; [194; 160]; [225; 154; 128];
      [226; 128; 128]; [226; 128; 129]; [226; 128; 130]; [226; 128; 131];
      [226; 128; 132]; [226; 128; 133]; [226; 128; 134]; [226; 128; 135];
      [226; 128; 136]; [226; 128; 137]; [226; 128; 138];
      [226; 128; 168]; [226; 128; 169]; [226; 128; 175];
      [226; 129; 159]; [227; 128; 128] ].

(** The text after one leading whitespace character, if it starts with one. *)
Fixpoint drop_one (ws : list string) (s : string) : option string :=
  match ws with
  | [] => None
  | w :: ws' =>
      match starts_with w s with
      | Some s' => Some s'
      | None => drop_one ws' s
      end
  end.

Fixpoint lstrip_from (ws : list string) (fuel : nat) (s : string) : string :=
  match fuel with
  | O => s
  | S fuel' =>
      match drop_one ws s with
      | Some s' => lstrip_from ws fuel' s'
      | None => s
      end
  end.

Definition lstrip (s : string) : string :=
  lstrip_from whitespace (String.length s) s.

(** Trailing whitespace is leading whitespace of the reversed text, each
    character's encoding reversed as well. *)
Definition rstrip (s : string) : string :=
  let r := rev_string s EmptyString in
  let ws := map (fun w => rev_string w EmptyString) whitespace in
  rev_string (lstrip_from ws (String.length r) r) EmptyString.

Definition strip (s : string) : string := rstrip (lstrip s).

(** [s.replace(old, new)] for a one-character [old]. *)
Fixpoint replace (old : ascii) (new : string) (s : string) : string :=
  match s with
  | EmptyString => EmptyString
  | String c s' =>
      if Ascii.eqb c old then new +:+ replace old new s'
      else String c (replace old new s')
  end.

Fixpoint contains (c : ascii) (s : string) : bool :=
  match s with
  | EmptyString => false
  | String d s' => Ascii.eqb c d || contains c s'
  end.

(** [xml.sax.saxutils.escape(data)] with no extra entities. *)
Definition escape (data : string) : string :=
  let data := replace "&" "&amp;" data in
  let data := replace ">" "&gt;" data in
  let data := replace "<" "&lt;" data in
  data.

End Py.

(** ** [hashlib.sha1] *)

Module Sha1.

Definition w32 (x : Z) : Z := x mod 2 ^ 32.

Definition rotl (n x : Z) : Z :=
  w32 (Z.lor (Z.shiftl x n) (Z.shiftr x (32 - n))).

Fixpoint be_bytes (count : nat) (x : Z) : list Z :=
  match count with
  | O => []
  | S c => be_bytes c (x / 256) ++ [x mod 256]
  end.

(** The message, a [1] bit, zero bits up to 56 bytes modulo 64, and the bit
    length of the message on 8 bytes. *)
Definition pad (msg : list Z) : list Z :=
  let len := Z.of_nat (length msg) in
  msg ++ [128] ++ repeat 0 (Z.to_nat ((55 - len) mod 64))
      ++ be_bytes 8 (8 * len).

Fixpoint words (l : list Z) : list Z :=
  match l with
  | a :: b :: c :: d :: r =>
      (a * 2 ^ 24 + b * 2 ^ 16 + c * 2 ^ 8 + d) :: words r
  | _ => []
  end.

Fixpoint blocks (n : nat) (ws : list Z) : list (list Z) :=
  match n with
  | O => []
  | S n' => firstn 16 ws :: blocks n' (skipn 16 ws)
  end.

(** The message schedule, most recent word first. *)
Fixpoint extend (n : nat) (rw : list Z) : list Z :=
  match n with
  | O => rw
  | S n' =>
      let w := rotl 1 (Z.lxor (Z.lxor (nth 2 rw 0) (nth 7 rw 0))
                              (Z.lxor (nth 13 rw 0) (nth 15 rw 0))) in
      extend n' (w :: rw)
  end.

Definition schedule (block : list Z) : list Z :=
  rev (extend 64 (rev block)).

Definition lnot32 (x : Z) : Z := Z.lxor x (2 ^ 32 - 1).

Definition round (st : Z * Z * Z * Z * Z) (tw : nat * Z) : Z * Z * Z * Z * Z :=
  let '(a, b, c, d, e) := st in
  let '(t, w) := tw in
  let '(f, k) :=
    if (t <? 20)%nat then
      (Z.lor (Z.land b c) (Z.land (lnot32 b) d), 0x5A827999)
    else if (t <? 40)%nat then
      (Z.lxor (Z.lxor b c) d, 0x6ED9EBA1)
    else if (t <? 60)%nat then
      (Z.lor (Z.lor (Z.land b c) (Z.land b d)) (Z.land c d), 0x8F1BBCDC)
    else
      (Z.lxor (Z.lxor b c) d, 0xCA62C1D6) in
  (w32 (rotl 5 a + f + e + k + w), a, rotl 30 b, c, d).

Definition compress (h : Z * Z * Z * Z * Z) (block : list Z) : Z * Z * Z * Z * Z :=
  let '(h0, h1, h2, h3, h4) := h in
  let '(a, b, c, d, e) :=
    fold_left round (combine (seq 0 80) (schedule block)) h in
  (w32 (h0 + a), w32 (h1 + b), w32 (h2 + c), w32 (h3 + d), w32 (h4 + e)).

Definition init : Z * Z * Z * Z * Z :=
  (0x67452301, 0xEFCDAB89, 0x98BADCFE, 0x10325476, 0xC3D2E1F0).

Definition digest (msg : list Z) : list Z :=
  let ws := words (pad msg) in
  let '(h0, h1, h2, h3, h4) :=
    fold_left compress (blocks (length ws / 16) ws) init in
  be_bytes 4 h0 ++ be_bytes 4 h1 ++ be_bytes 4 h2 ++ be_bytes 4 h3
    ++ be_bytes 4 h4.

Definition hex_digit (n : Z) : ascii :=
  if n <? 10 then Py.chr (48 + n) else Py.chr (87 + n).

Fixpoint hex (l : list Z) : string :=
  match l with
  | [] => EmptyString
  | b :: l' => String (hex_digit (b / 16)) (String (hex_digit (b mod 16)) (hex l'))
  end.

(** The hash object: [hashlib.sha1()], [m.update(data)] and
    [m.hexdigest()]; the object holds the bytes fed so far. *)
Definition t : Type := list Z.
Definition new : t := [].
Definition update (m : t) (data : list Z) : t := m ++ data.
Definition hexdigest (m : t) : string := hex (digest m).

End Sha1.

(** ** [csv.writer(out, delimiter="|")] over a [StringIO] *)

Module Csv.

Definition delimiter : ascii := "|"%char.
Definition quotechar : ascii := "034"%char.
Definition lineterminator : string := String Py.CR (String Py.LF EmptyString).

(** With the default [QUOTE_MINIMAL] a field is quoted when it holds the
    delimiter, the quote character or a character of the line terminator. *)
Definition needs_quotes (field : string) : bool :=
  Py.contains delimiter field || Py.contains quotechar field
  || Py.contains Py.CR field || Py.contains Py.LF field.

Definition quote (field : string) : string :=
  let q := String quotechar EmptyString in
  if needs_quotes field
  then q +:+ Py.replace quotechar (q +:+ q) field +:+ q
  else field.

Fixpoint join (fields : list string) : string :=
  match fields with
  | [] => EmptyString
  | [f] => f
  | f :: fs => f +:+ String delimiter (join fs)
  end.

(** The writer is the text written to [out] so far. *)
Definition writer : Type := string.
Definition new : writer := EmptyString.
Definition writerow (w : writer) (row : list string) : writer :=
  w +:+ join (map quote row) +:+ lineterminator.
Definition getvalue (w : writer) : string := w.

End Csv.

(** ** The file system and [pathlib.Path] *)

Inductive node : Type := File | Dir.

#[global] Instance node_eq_dec : EqDecision node.
Proof. solve_decision. Defined.

Abbreviation FS := (gmap string node).

Module Path.
(** [parent / name] *)
Definition div (parent name : string) : string := parent +:+ "/" +:+ name.
Definition exists_ (fs : FS) (p : string) : bool := bool_decide (is_Some (fs !! p)).
Definition is_file (fs : FS) (p : string) : bool := bool_decide (fs !! p = Some File).
Definition mkdir (fs : FS) (p : string) : FS := <[p := Dir]> fs.

(** The directory of a path: the text before its last [/]. *)
Fixpoint dirname (p : string) : option string :=
  match p with
  | EmptyString => None
  | String c p' =>
      match dirname p' with
      | Some d => Some (String c d)
      | None => if Ascii.eqb c "/" then Some EmptyString else None
      end
  end.

Definition parent (p : string) : string :=
  match dirname p with Some d => d | None => "." end.

(** The file system once the file [p] has been written. *)
Definition create (fs : FS) (p : string) : FS := <[p := File]> fs.

(** [p.write_text(...)]: the file is opened for writing in its directory,
    which has to exist. *)
Definition write_text (fs : FS) (p : string) : result FS :=
  match fs !! parent p with
  | Some Dir =>
      match fs !! p with
      | Some Dir => Raise (IsADirectoryError p)
      | _ => Ok (create fs p)
      end
  | Some File => Raise (NotADirectoryError p)
  | None => Raise (FileNotFoundError p)
  end.
End Path.

(** ** Layout constants: [class Anchors] *)

Module Anchors.
Local Open Scope Q_scope.
(** [int(x)] truncates towards zero. It is applied to the four products
    below, which are finite. *)
Definition int (n : Num.t) : Z :=
  match n with
  | Num.Int z => z
  | Num.Flt f => match Float.trunc f with Ok z => z | Raise _ => 0 end
  end.
(** [z * x] for the class attribute [z] and the literal [x]. *)
Definition scaled (z : Z) (x : Q) : Num.t :=
  Num.times (Num.Int z) (Num.Flt (Float.of_Q x)).
Definition width : Z := 720.
Definition height : Z := 480.
Definition slide_height : Z := int (scaled height 0.8).
Definition slide_left : Z := int (scaled width 0.05).
Definition slide_width : Z := (width - slide_left * 2)%Z.
Definition slide_top : Z := 0.
Definition caption_frame_top : Z := slide_height.
Definition caption_frame_left : Z := 0.
Definition caption_frame_height : Z := (height - caption_frame_top)%Z.
Definition caption_frame_width : Z := width.
Definition caption_top : Z := (slide_height + 10)%Z.
Definition caption_height : Z := (caption_frame_height - 10 * 2)%Z.
Definition caption_left : Z := int (scaled width 0.1).
Definition caption_width : Z := (width - caption_left * 2)%Z.
Definition left_character_height : Z := int (scaled height 0.2).
Definition left_character_left : Z := 0.
Definition left_character_top : Z := (slide_height - left_character_height)%Z.
Definition left_character_width : Z := left_character_height.
End Anchors.

(** A Python [dict] of the script: its items in insertion order. *)
Definition dict : Type := list (yaml * yaml).

Definition is_key (name : string) (k : yaml) : bool :=
  match k with
  | YStr s => String.eqb s name
  | _ => false
  end.

(** [name in d] *)
Definition has_key (name : string) (d : dict) : bool :=
  existsb (fun kv => is_key name (fst kv)) d.

(** [d.get(name)] *)
Definition get (name : string) (d : dict) : option yaml :=
  option_map snd (find (fun kv => is_key name (fst kv)) d).

(** ** pydantic

    The coercion of a script value to the annotated type of a field is
    pydantic's; only the facts that a [str] passes the [str] validator
    unchanged, a list the list validator and a dict the dict validator are
    used. The shape of each model (which fields are required, which have a
    default, which accept [None]) is read off the class declarations of
    [main.py]. *)

Class Pydantic : Type := {
  str_validator : yaml -> option string;
  int_validator : yaml -> option Z;
  float_validator : yaml -> option float;
  bool_validator : yaml -> option bool;
  list_validator : yaml -> option (list yaml);
  dict_validator : yaml -> option dict;
  str_validator_str : forall s, str_validator (YStr s) = Some s;
  list_validator_list : forall l, list_validator (YSeq l) = Some l;
  dict_validator_dict : forall m, dict_validator (YMap m) = Some m
}.

Module Field.
(** A model is built by the call [cls(...)] with the items of the dict as
    keyword arguments: every key has to be a [str]. *)
Definition keywords (d : dict) : bool :=
  forallb (fun kv => match fst kv with YStr _ => true | _ => false end) d.

(** [name: T] *)
Definition required {T : Type} (model name : string)
    (validator : yaml -> option T) (d : dict) : result T :=
  match get name d with
  | None | Some YNull => Raise (ValidationError model)
  | Some v =>
      match validator v with
      | Some x => Ok x
      | None => Raise (ValidationError model)
      end
  end.

(** [name: T = default] with a default other than [None] *)
Definition defaulted {T : Type} (model name : string)
    (validator : yaml -> option T) (default : T) (d : dict) : result T :=
  match get name d with
  | None => Ok default
  | Some _ => required model name validator d
  end.

(** [name: Optional[T] = None], also written [name: T = None] *)
Definition optional {T : Type} (model name : string)
    (validator : yaml -> option T) (d : dict) : result (option T) :=
  match get name d with
  | None | Some YNull => Ok None
  | Some v =>
      match validator v with
      | Some x => Ok (Some x)
      | None => Raise (ValidationError model)
      end
  end.
End Field.

(** ** [class VoiceOver] *)

Module VoiceOver.

Record t : Type := mk {
  character : string;
  voice : string;
  text : string;
  end_pause : string
}.

(** [@validator("text")] *)
Definition validate_text (value : string) : string := Py.strip value.

(** The constructor [VoiceOver] on keyword arguments [d]: the fields are
    validated, [text] goes through [validate_text], [end_pause] defaults to
    ["500ms"]. *)
Definition init `{Pydantic} (d : dict) : result t :=
  c <- Field.required "VoiceOver" "character" str_validator d ;;
  v <- Field.required "VoiceOver" "voice" str_validator d ;;
  x <- Field.required "VoiceOver" "text" str_validator d ;;
  p <- Field.defaulted "VoiceOver" "end_pause" str_validator "500ms" d ;;
  Ok (mk c v (validate_text x) p).

Definition clean_text (self : t) : string :=
  Py.replace Py.LF " " (text self).

Definition saml_text (self : t) : string :=
  let escaped_text := Py.escape (clean_text self) in
  "<speak>" +:+ escaped_text +:+ "<break time='" +:+ end_pause self
    +:+ "'/></speak>".

Definition filename_base (self : t) : string :=
  let m := Sha1.new in
  let m := Sha1.update m (Py.encode_utf8 (character self)) in
  let m := Sha1.update m (Py.encode_utf8 "|") in
  let m := Sha1.update m (Py.encode_utf8 (voice self)) in
  let m := Sha1.update m (Py.encode_utf8 "|") in
  let m := Sha1.update m (Py.encode_utf8 (saml_text self)) in
  Sha1.hexdigest m.

Definition get_filepath (self : t) (parent : string) : string :=
  Path.div parent (filename_base self +:+ ".wav").

Definition write_audio_request (self : t) (fs : FS) (writer : Csv.writer)
    (parent : string) : Csv.writer :=
  let path := get_filepath self parent in
  if Path.exists_ fs path then writer
  else Csv.writerow writer [filename_base self; voice self; saml_text self].

End VoiceOver.

(** ** The host: what the program finds outside itself

    [here] is the directory of [main.py]; [mimic3] and [make] are the two
    external programs, each mapping the file system it finds to its exit
    status and the file system it leaves; [audio_duration] and [image_size]
    read a media file ([AudioFileClip(path).duration], a finite float that
    is not negative, and [Image.open(path).size]). *)

Class Host : Type := {
  here : string;
  resolve : string -> string;
  mimic3 : string -> FS -> Z * FS;
  make : FS -> Z * FS;
  audio_duration : string -> float;
  image_size : string -> option (Z * Z);
  audio_duration_ok :
    forall path, Float.is_duration (audio_duration path) = true
}.

Definition AUDIO_ROOT `{Host} : string := Path.div here "audio".
Definition CODE_ROOT `{Host} : string := Path.div here "codes".
Definition IMAGE_ROOT `{Host} : string := Path.div here "images".

(** ** moviepy clips *)

Inductive media : Type :=
| AudioFileClip (path : string)
| TextClip (txt color : string) (bg_color : option string)
    (fontsize : Num.t) (size : Z * Z)
| ImageClip (path : string)
| ColorClip (color : Z * Z * Z) (size : Z * Z).

Module Clip.

Record t : Type := mk {
  source : media;
  size : option (Num.t * Num.t);   (* set by [resize] *)
  position : Num.t * Num.t;
  start : Num.t;
  duration : option Num.t          (* [None] until it is set *)
}.

Definition new (m : media) (d : option Num.t) : t :=
  mk m None (Num.Int 0, Num.Int 0) (Num.Int 0) d.

Definition set_start (c : t) (s : Num.t) : t :=
  mk (source c) (size c) (position c) s (duration c).
Definition set_duration (c : t) (d : Num.t) : t :=
  mk (source c) (size c) (position c) (start c) (Some d).
Definition set_position (c : t) (p : Num.t * Num.t) : t :=
  mk (source c) (size c) p (start c) (duration c).
Definition resize (c : t) (wh : Num.t * Num.t) : t :=
  mk (source c) (Some wh) (position c) (start c) (duration c).

(** Reading [clip.duration] as a number. *)
Definition get_duration (c : t) : result Num.t :=
  match duration c with
  | Some d => Ok d
  | None => Raise TypeError
  end.

End Clip.

Definition point (x y : Z) : Num.t * Num.t := (Num.Int x, Num.Int y).

(** [VoiceOver.as_audio_clip] and [VoiceOver.as_caption]. *)
Module VoiceOverClips.

Definition as_audio_clip `{Host} (self : VoiceOver.t) (fs : FS)
    (parent : string) : result Clip.t :=
  let path := VoiceOver.get_filepath self parent in
  if Path.exists_ fs path
  then Ok (Clip.new (AudioFileClip path)
             (Some (Num.Flt (audio_duration path))))
  else Raise (OSError path).

Definition as_caption (self : VoiceOver.t) : Clip.t :=
  Clip.set_position
    (Clip.new (TextClip (VoiceOver.clean_text self) "white" None (Num.Int 18)
                 (Anchors.caption_width, Anchors.caption_height)) None)
    (point Anchors.caption_left Anchors.caption_top).

End VoiceOverClips.

(** ** Slides *)

Module Slide.

Inductive variant : Type :=
| Empty
| Image (image : string) (zoom : option float) (zoom_to_fit : bool)
| Code (code ext : string)
| Text (text : string) (font_size : Num.t).

(** [SlideBase] and the fields of the subclass. *)
Record t : Type := mk {
  voice_overs : list VoiceOver.t;
  min_duration : option Z;
  body : variant
}.

(** [self.voice_overs.append(vo)] *)
Definition append_voice_over (vo : VoiceOver.t) (self : t) : t :=
  mk (voice_overs self ++ [vo]) (min_duration self) (body self).

Fixpoint traverse {A B : Type} (f : A -> result B) (l : list A)
  : result (list B) :=
  match l with
  | [] => Ok []
  | a :: l' => b <- f a ;; bs <- traverse f l' ;; Ok (b :: bs)
  end.

(** An element of the list is coerced to a dict and passed to the
    constructor of [VoiceOver]; any failure is reported by the model that
    owns the field. *)
Definition voice_over_item `{Pydantic} (model : string) (v : yaml)
  : result VoiceOver.t :=
  match dict_validator v with
  | Some m =>
      if Field.keywords m then
        match VoiceOver.init m with
        | Ok vo => Ok vo
        | Raise _ => Raise (ValidationError model)
        end
      else Raise (ValidationError model)
  | None => Raise (ValidationError model)
  end.

(** The field [voice_overs: List[VoiceOver]] with an empty list as its
    default. *)
Definition voice_overs_field `{Pydantic} (model : string) (d : dict)
  : result (list VoiceOver.t) :=
  match get "voice_overs" d with
  | None => Ok []
  | Some YNull => Raise (ValidationError model)
  | Some v =>
      match list_validator v with
      | Some l => traverse (voice_over_item model) l
      | None => Raise (ValidationError model)
      end
  end.

Definition base_fields `{Pydantic} (model : string) (d : dict)
  : result (list VoiceOver.t * option Z) :=
  _ <- (if Field.keywords d then Ok tt else Raise TypeError) ;;
  vos <- voice_overs_field model d ;;
  md <- Field.optional model "min_duration" int_validator d ;;
  Ok (vos, md).

End Slide.

Module EmptySlide.
(** [EmptySlide()] *)
Definition init : Slide.t := Slide.mk [] None Slide.Empty.
End EmptySlide.

Module ImageSlide.

Definition parse_obj `{Pydantic} (item : dict) : result Slide.t :=
  base <- Slide.base_fields "ImageSlide" item ;;
  image <- Field.required "ImageSlide" "image" str_validator item ;;
  zoom <- Field.optional "ImageSlide" "zoom" float_validator item ;;
  zoom_to_fit <- Field.defaulted "ImageSlide" "zoom_to_fit" bool_validator
                   false item ;;
  Ok (Slide.mk (fst base) (snd base) (Slide.Image image zoom zoom_to_fit)).

(** The size chosen by [fit], lines 202 to 226. *)
Definition fit_size (image_width image_height frame_width frame_height : Z)
    (zoom_to_fit : bool) (zoom : option float) : result (Num.t * Num.t) :=
  match zoom with
  | Some zoom =>
      width <- Num.mul (Num.Int image_width) (Num.Flt zoom) ;;
      height <- Num.mul (Num.Int image_height) (Num.Flt zoom) ;;
      Ok (width, height)
  | None =>
      if (image_width >? frame_width) || (image_height >? frame_height) then
        rw <- Float.truediv image_width frame_width ;;
        rh <- Float.truediv image_height frame_height ;;
        if Float.gtb rw rh then
          let width := frame_width in
          height <- Float.truediv (width * image_height) image_width ;;
          Ok (Num.Int width, Num.Flt height)
        else
          let height := frame_height in
          width <- Float.truediv (height * image_width) image_height ;;
          Ok (Num.Flt width, Num.Int height)
      else if zoom_to_fit then
        rw <- Float.truediv image_width frame_width ;;
        rh <- Float.truediv image_height frame_height ;;
        if Float.gtb rw rh then
          let height := frame_height in
          width <- Float.truediv (height * image_width) image_height ;;
          Ok (Num.Flt width, Num.Int height)
        else
          let width := frame_width in
          height <- Float.truediv (width * image_height) image_width ;;
          Ok (Num.Int width, Num.Flt height)
      else
        Ok (Num.Int image_width, Num.Int image_height)
  end.

(** [frame + (frame_size - size) * 0.5], lines 228 and 229. *)
Definition centre (frame frame_size : Z) (size : Num.t) : result Num.t :=
  margin <- Num.sub (Num.Int frame_size) size ;;
  half <- Num.mul margin (Num.Flt (Float.of_Q 0.5)) ;;
  Num.add (Num.Int frame) half.

(** Size and position, lines 202 to 229. *)
Definition fit_box (image_width image_height frame_x frame_y frame_width
    frame_height : Z) (zoom_to_fit : bool) (zoom : option float)
  : result ((Num.t * Num.t) * (Num.t * Num.t)) :=
  wh <- fit_size image_width image_height frame_width frame_height
          zoom_to_fit zoom ;;
  let width := fst wh in
  let height := snd wh in
  x <- centre frame_x frame_width width ;;
  y <- centre frame_y frame_height height ;;
  Ok ((width, height), (x, y)).

Definition Image_open `{Host} (fs : FS) (path : string) : result (Z * Z) :=
  if Path.exists_ fs path then
    match image_size path with
    | Some wh => Ok wh
    | None => Raise (OSError path)
    end
  else Raise (OSError path).

Definition fit `{Host} (fs : FS) (image_path : string)
    (frame_x frame_y frame_width frame_height : Z)
    (zoom_to_fit : bool) (zoom : option float) : result Clip.t :=
  image_size <- Image_open fs (resolve image_path) ;;
  box <- fit_box (fst image_size) (snd image_size) frame_x frame_y
           frame_width frame_height zoom_to_fit zoom ;;
  Ok (Clip.set_position
        (Clip.resize (Clip.new (ImageClip image_path) None) (fst box))
        (snd box)).

Definition as_clip `{Host} (fs : FS) (image : string) (zoom : option float)
    (zoom_to_fit : bool) : result Clip.t :=
  fit fs image Anchors.slide_left Anchors.slide_top Anchors.slide_width
    Anchors.slide_height zoom_to_fit zoom.

End ImageSlide.

Module CodeSlide.

Definition parse_obj `{Pydantic} (item : dict) : result Slide.t :=
  base <- Slide.base_fields "CodeSlide" item ;;
  code <- Field.required "CodeSlide" "code" str_validator item ;;
  ext <- Field.required "CodeSlide" "ext" str_validator item ;;
  Ok (Slide.mk (fst base) (snd base) (Slide.Code code ext)).

Definition filename_base (code ext : string) : string :=
  let m := Sha1.new in
  let m := Sha1.update m (Py.encode_utf8 ext) in
  let m := Sha1.update m (Py.encode_utf8 "|") in
  let m := Sha1.update m (Py.encode_utf8 code) in
  Sha1.hexdigest m.

Definition get_filepath (code ext parent : string) : string :=
  Path.div parent (filename_base code ext +:+ "." +:+ ext).

Definition prepare `{Host} (code ext : string) (fs : FS) : result FS :=
  let path := get_filepath code ext CODE_ROOT in
  if Path.is_file fs path then Ok fs else Path.write_text fs path.

(** The image is rendered by [make]; the slide is then an [ImageSlide]
    with the default [zoom] and [zoom_to_fit]. *)
Definition as_clip `{Host} (fs : FS) (code ext : string) : result Clip.t :=
  let image_path := Path.div IMAGE_ROOT (filename_base code ext +:+ ".png") in
  ImageSlide.as_clip fs image_path None false.

End CodeSlide.

Module TextSlide.

Definition parse_obj `{Pydantic} (item : dict) : result Slide.t :=
  base <- Slide.base_fields "TextSlide" item ;;
  text <- Field.required "TextSlide" "text" str_validator item ;;
  font_size <- Field.defaulted "TextSlide" "font_size"
                 (fun v => option_map Num.Flt (float_validator v))
                 (Num.Int 25) item ;;
  Ok (Slide.mk (fst base) (snd base) (Slide.Text text font_size)).

Definition as_clip (text : string) (font_size : Num.t) : Clip.t :=
  Clip.set_position
    (Clip.new (TextClip text "black" (Some "white") font_size
                 (Anchors.slide_width, Anchors.slide_height)) None)
    (point Anchors.slide_left Anchors.slide_top).

End TextSlide.

(** Method dispatch on the class of the slide. *)
Definition prepare `{Host} (slide : Slide.t) (fs : FS) : result FS :=
  match Slide.body slide with
  | Slide.Code code ext => CodeSlide.prepare code ext fs
  | _ => Ok fs
  end.

Definition as_clip `{Host} (slide : Slide.t) (fs : FS) : result (option Clip.t) :=
  match Slide.body slide with
  | Slide.Empty => Ok None
  | Slide.Image image zoom zoom_to_fit =>
      c <- ImageSlide.as_clip fs image zoom zoom_to_fit ;; Ok (Some c)
  | Slide.Code code ext =>
      c <- CodeSlide.as_clip fs code ext ;; Ok (Some c)
  | Slide.Text text font_size => Ok (Some (TextSlide.as_clip text font_size))
  end.

(** ** [class Character] and [class Script] *)

Module Character.
Record t : Type := mk { image : string; voice : string }.
End Character.

Module Script.

(** [characters] is a dict with [str] keys: its items in insertion order. *)
Record t : Type := mk {
  slides : list dict;
  characters : list (string * Character.t)
}.

(** [self.characters[key]] *)
Definition getitem (cs : list (string * Character.t)) (key : yaml)
  : result Character.t :=
  match key with
  | YStr name =>
      match find (fun kv => String.eqb (fst kv) name) cs with
      | Some kv => Ok (snd kv)
      | None => Raise (KeyError key)
      end
  | _ => Raise (KeyError key)
  end.

(** The loop state: the list [slides], which holds the slide objects, and
    [current_item], a reference to one of them: its index in the list. *)
Definition state : Type := list Slide.t * nat.

Definition start (s : state) (slide : Slide.t) : state :=
  (fst s ++ [slide], length (fst s)).

Definition parse_item `{Pydantic} (self : t) (s : state) (item : dict)
  : result state :=
  if has_key "image" item then
    current_item <- ImageSlide.parse_obj item ;; Ok (start s current_item)
  else if has_key "text" item then
    current_item <- TextSlide.parse_obj item ;; Ok (start s current_item)
  else if has_key "code" item then
    current_item <- CodeSlide.parse_obj item ;; Ok (start s current_item)
  else
    match item with
    | [] => Raise IndexError
    | (key, value) :: _ =>
        c <- getitem (characters self) key ;;
        vo <- VoiceOver.init [ (YStr "character", key); (YStr "text", value);
                               (YStr "voice", YStr (Character.voice c)) ] ;;
        Ok (alter (Slide.append_voice_over vo) (snd s) (fst s), snd s)
    end.

Definition parse_slides `{Pydantic} (self : t) : result (list Slide.t) :=
  let current_item := EmptySlide.init in
  let slides := [current_item] in
  s <- for_each (parse_item self) (Script.slides self) (slides, 0%nat) ;;
  Ok (fst s).

End Script.

(** ** [generate_audio] and [main] *)

(** [subprocess.run(argv, input=stdin)] *)
Inductive event : Type :=
| Run (argv : list string) (stdin : option string).

Record Video : Type := mkVideo {
  video_clips : list Clip.t;
  audio_clips : list Clip.t;
  screen_size : Z * Z;
  bg_color : Z * Z * Z;
  video_duration : Num.t;
  fps : Z
}.

(** The world the program acts on: the files, the external programs run so
    far, and the videos written. *)
Record World : Type := mkWorld {
  fs : FS;
  ran : list event;
  written : list (string * Video)
}.

Definition all_voice_overs (slides : list Slide.t) : list VoiceOver.t :=
  flat_map Slide.voice_overs slides.

Definition audio_requests `{Host} (fs : FS) (slides : list Slide.t) : string :=
  let writer := Csv.new in
  let writer :=
    fold_left
      (fun writer slide =>
         fold_left
           (fun writer voice_over =>
              VoiceOver.write_audio_request voice_over fs writer AUDIO_ROOT)
           (Slide.voice_overs slide) writer)
      slides writer in
  Csv.getvalue writer.

Definition mimic3_argv `{Host} : list string :=
  [ "mimic3"; "--remote"; "--ssml"; "--stdin-format"; "lines"; "--csv-voice";
    "--length-scale"; "1.1"; "--output-dir"; AUDIO_ROOT ].

Definition generate_audio `{Host} (slides : list Slide.t) (w : World) : World :=
  let fs1 :=
    if negb (Path.exists_ (fs w) AUDIO_ROOT) then Path.mkdir (fs w) AUDIO_ROOT
    else fs w in
  let audio_requests := audio_requests fs1 slides in
  if String.eqb audio_requests EmptyString then mkWorld fs1 (ran w) (written w)
  else
    (* [subprocess.run] without [check]: the exit status is dropped *)
    let completed := mimic3 audio_requests fs1 in
    mkWorld (snd completed) (ran w ++ [Run mimic3_argv (Some audio_requests)])
      (written w).

(** The state of the loops of [main]. *)
Record Timeline : Type := mkTimeline {
  tl_video_clips : list Clip.t;
  tl_audio_clips : list Clip.t;
  last_clip_end : Num.t
}.

(** The inner loop, lines 330 to 344; its state is
    [(video_clips, audio_clips, slide_duration, caption_start)]. *)
Definition voice_over_step `{Host} (fs : FS)
    (s : list Clip.t * list Clip.t * Num.t * Num.t) (voice_over : VoiceOver.t)
  : result (list Clip.t * list Clip.t * Num.t * Num.t) :=
  let '(video_clips, audio_clips, slide_duration, caption_start) := s in
  audio_clip <- VoiceOverClips.as_audio_clip voice_over fs AUDIO_ROOT ;;
  voice_over_duration <- Clip.get_duration audio_clip ;;
  let audio_clips := audio_clips ++ [Clip.set_start audio_clip caption_start] in
  let caption_clip :=
    Clip.set_duration
      (Clip.set_start (VoiceOverClips.as_caption voice_over) caption_start)
      voice_over_duration in
  let video_clips := video_clips ++ [caption_clip] in
  slide_duration <- Num.add slide_duration voice_over_duration ;;
  caption_start <- Num.add caption_start voice_over_duration ;;
  Ok (video_clips, audio_clips, slide_duration, caption_start).

(** The body of the outer loop, lines 328 to 355. *)
Definition slide_step `{Host} (fs : FS) (tl : Timeline) (slide : Slide.t)
  : result Timeline :=
  let slide_duration := Num.Int 0 in
  let caption_start := last_clip_end tl in
  s <- for_each (voice_over_step fs) (Slide.voice_overs slide)
         (tl_video_clips tl, tl_audio_clips tl, slide_duration, caption_start) ;;
  let '(video_clips, audio_clips, slide_duration, _) := s in
  let slide_duration :=
    match Slide.min_duration slide with
    | Some min_duration =>
        if Num.ltb slide_duration (Num.Int min_duration)
        then Num.Int min_duration else slide_duration
    | None => slide_duration
    end in
  maybe_slide_clip <- as_clip slide fs ;;
  let video_clips :=
    match maybe_slide_clip with
    | Some c =>
        let slide_clip :=
          Clip.set_start (Clip.set_duration c slide_duration) (last_clip_end tl) in
        video_clips ++ [slide_clip]
    | None => video_clips
    end in
  last_clip_end <- Num.add (last_clip_end tl) slide_duration ;;
  Ok (mkTimeline video_clips audio_clips last_clip_end).

Definition background (last_clip_end : Num.t) : Clip.t :=
  Clip.set_duration
    (Clip.set_position
       (Clip.new (ColorClip (0, 0, 0)
                    (Anchors.caption_frame_width, Anchors.caption_frame_height))
          None)
       (point Anchors.caption_frame_left Anchors.caption_frame_top))
    last_clip_end.

Definition portrait_step `{Host} (fs : FS) (last_clip_end : Num.t)
    (video_clips : list Clip.t) (character : string * Character.t)
  : result (list Clip.t) :=
  c <- ImageSlide.fit fs (Character.image (snd character))
         Anchors.left_character_left Anchors.left_character_top
         Anchors.left_character_width Anchors.left_character_height
         false None ;;
  Ok (video_clips ++ [Clip.set_duration c last_clip_end]).

(** [CompositeAudioClip(clips)] takes the maximum over its clips: it raises
    on an empty list. *)
Definition CompositeAudioClip (clips : list Clip.t) : result (list Clip.t) :=
  match clips with
  | [] => Raise ValueError
  | _ => Ok clips
  end.

(** Lines 327 to 386 of [main]: from the slides to the composite clip. *)
Definition compose `{Host} (fs : FS) (script : Script.t) (slides : list Slide.t)
  : result Video :=
  tl <- for_each (slide_step fs) slides (mkTimeline [] [] (Num.Int 0)) ;;
  let last_clip_end := last_clip_end tl in
  let video_clips := background last_clip_end :: tl_video_clips tl in
  video_clips <- for_each (portrait_step fs last_clip_end)
                   (Script.characters script) video_clips ;;
  audio_track <- CompositeAudioClip (tl_audio_clips tl) ;;
  Ok (mkVideo video_clips audio_track
        (Anchors.width, Anchors.height) (255, 255, 255) last_clip_end 30).

(** [main], from the validated script on. *)
Definition main `{Pydantic} `{Host} (script : Script.t) (output_path : string)
    (w : World) : result World :=
  slides <- Script.parse_slides script ;;
  let w := generate_audio slides w in
  fs1 <- for_each (fun fs slide => prepare slide fs) slides (fs w) ;;
  let completed := make fs1 in
  let w := mkWorld (snd completed) (ran w ++ [Run ["make"] None]) (written w) in
  if negb (fst completed =? 0)
  then Raise (CalledProcessError "make" (fst completed))
  else
    video <- compose (fs w) script slides ;;
    Ok (mkWorld (Path.create (fs w) output_path) (ran w)
          (written w ++ [(output_path, video)])).

(** ** Notions used to state the properties *)

(** The bytes [VoiceOver.filename_base] feeds to SHA-1. *)
Definition hashed_message (vo : VoiceOver.t) : list Z :=
  Py.encode_utf8 (VoiceOver.character vo) ++ Py.encode_utf8 "|"
    ++ Py.encode_utf8 (VoiceOver.voice vo) ++ Py.encode_utf8 "|"
    ++ Py.encode_utf8 (VoiceOver.saml_text vo).

(** [VoiceOver(character=c, voice=v, text=x, end_pause=p)] on four [str]s. *)
Definition voice_over_of `{Pydantic} (c v x p : string) : result VoiceOver.t :=
  VoiceOver.init [ (YStr "character", YStr c); (YStr "voice", YStr v);
                   (YStr "text", YStr x); (YStr "end_pause", YStr p) ].

(** The entity reference of a character of the text. *)
Definition xml_entity (c : ascii) : string :=
  if Ascii.eqb c "&" then "&amp;"
  else if Ascii.eqb c ">" then "&gt;"
  else if Ascii.eqb c "<" then "&lt;"
  else String c EmptyString.

Fixpoint xml_escaped (s : string) : string :=
  match s with
  | EmptyString => EmptyString
  | String c s' => xml_entity c +:+ xml_escaped s'
  end.

Definition begins (p s : string) : bool :=
  match Py.starts_with p s with Some _ => true | None => false end.

(** No [<], no [>], and every [&] opens one of the three references. *)
Fixpoint no_markup (s : string) : bool :=
  match s with
  | EmptyString => true
  | String c s' =>
      if Ascii.eqb c "<" then false
      else if Ascii.eqb c ">" then false
      else if Ascii.eqb c "&" then
        (begins "amp;" s' || begins "lt;" s' || begins "gt;" s') && no_markup s'
      else no_markup s'
  end.

(** The script entries as the specification reads them: an entry starts a
    slide or speaks a line. *)
Inductive entry : Type :=
| NewSlide (slide : Slide.t)
| Speak (vo : VoiceOver.t).

Definition reserved (item : dict) : bool :=
  has_key "image" item || has_key "text" item || has_key "code" item.

(** The voice-over of an entry without a reserved key. *)
Definition spoken `{Pydantic} (self : Script.t) (item : dict)
  : result VoiceOver.t :=
  match item with
  | [] => Raise IndexError
  | (key, value) :: _ =>
      c <- Script.getitem (Script.characters self) key ;;
      VoiceOver.init [ (YStr "character", key); (YStr "text", value);
                       (YStr "voice", YStr (Character.voice c)) ]
  end.

Definition read_entry `{Pydantic} (self : Script.t) (item : dict)
  : result entry :=
  if has_key "image" item then
    s <- ImageSlide.parse_obj item ;; Ok (NewSlide s)
  else if has_key "text" item then
    s <- TextSlide.parse_obj item ;; Ok (NewSlide s)
  else if has_key "code" item then
    s <- CodeSlide.parse_obj item ;; Ok (NewSlide s)
  else
    vo <- spoken self item ;; Ok (Speak vo).

(** The segmentation in the specification's words: a fold that carries the
    current slide; a slide entry closes it and becomes current, a spoken
    line is appended to it. *)
Fixpoint segment (current : Slide.t) (es : list entry) : list Slide.t :=
  match es with
  | [] => [current]
  | NewSlide s :: es' => current :: segment s es'
  | Speak vo :: es' => segment (Slide.append_voice_over vo current) es'
  end.

Definition is_empty_slide (s : Slide.t) : bool :=
  match Slide.body s with Slide.Empty => true | _ => false end.

(** Playback length of the audio of a voice-over, and their running sum as
    the compositor accumulates it, from left to right. *)
Definition vo_duration `{Host} (vo : VoiceOver.t) : Num.t :=
  Num.Flt (audio_duration (VoiceOver.get_filepath vo AUDIO_ROOT)).

Definition vo_total `{Host} (from : Num.t) (vos : list VoiceOver.t) : Num.t :=
  fold_left (fun acc vo => Num.plus acc (vo_duration vo)) vos from.

(** The request row of a voice-over and the test that its audio is missing. *)
Definition request_row (vo : VoiceOver.t) : string :=
  Csv.writerow Csv.new
    [VoiceOver.filename_base vo; VoiceOver.voice vo; VoiceOver.saml_text vo].

Definition cache_miss `{Host} (fs : FS) (vo : VoiceOver.t) : bool :=
  negb (Path.exists_ fs (VoiceOver.get_filepath vo AUDIO_ROOT)).

Fixpoint concat_rows (rows : list string) : string :=
  match rows with
  | [] => EmptyString
  | r :: rows' => r +:+ concat_rows rows'
  end.

(** The effect of an entry on the loop state of [parse_slides]. *)
Definition advance (s : Script.state) (e : entry) : Script.state :=
  match e with
  | NewSlide slide => Script.start s slide
  | Speak vo => (alter (Slide.append_voice_over vo) (snd s) (fst s), snd s)
  end.

(** The variant a slide entry starts: [image] before [text] before [code]. *)
Definition starts_variant (item : dict) (slide : Slide.t) : bool :=
  match Slide.body slide with
  | Slide.Empty => false
  | Slide.Image _ _ _ => has_key "image" item
  | Slide.Text _ _ => negb (has_key "image" item) && has_key "text" item
  | Slide.Code _ _ =>
      negb (has_key "image" item) && negb (has_key "text" item)
      && has_key "code" item
  end.

Definition entry_of `{Pydantic} (self : Script.t) (item : dict) (e : entry)
  : Prop :=
  match e with
  | NewSlide slide => reserved item = true /\ starts_variant item slide = true
  | Speak vo => reserved item = false /\ spoken self item = Ok vo
  end.

(** [key] names a character of the registry. *)
Definition registered (cs : list (string * Character.t)) (key : yaml) : bool :=
  match key with
  | YStr name => existsb (fun kv => String.eqb (fst kv) name) cs
  | _ => false
  end.

(** The caption and audio layers of the voice-overs of a slide whose first
    caption starts at [caption_start]. *)
Fixpoint captions_from `{Host} (caption_start : Num.t) (vos : list VoiceOver.t)
  : list Clip.t :=
  match vos with
  | [] => []
  | vo :: vos' =>
      Clip.set_duration
        (Clip.set_start (VoiceOverClips.as_caption vo) caption_start)
        (vo_duration vo)
      :: captions_from (Num.plus caption_start (vo_duration vo)) vos'
  end.

Fixpoint audios_from `{Host} (caption_start : Num.t) (vos : list VoiceOver.t)
  : list Clip.t :=
  match vos with
  | [] => []
  | vo :: vos' =>
      Clip.set_start
        (Clip.new (AudioFileClip (VoiceOver.get_filepath vo AUDIO_ROOT))
           (Some (vo_duration vo)))
        caption_start
      :: audios_from (Num.plus caption_start (vo_duration vo)) vos'
  end.


(** The same host with the exit status of [mimic3] changed by [f]. *)
Definition with_mimic3_status (f : Z -> Z) (h : Host) : Host := {|
  here := @here h;
  resolve := @resolve h;
  mimic3 request fs :=
    (f (fst (@mimic3 h request fs)), snd (@mimic3 h request fs));
  make := @make h;
  audio_duration := @audio_duration h;
  image_size := @image_size h;
  audio_duration_ok := @audio_duration_ok h
|}.

(** The same host where every image has the size [size]. *)
Definition with_image_size (size : Z * Z) (h : Host) : Host := {|
  here := @here h;
  resolve := @resolve h;
  mimic3 := @mimic3 h;
  make := @make h;
  audio_duration := @audio_duration h;
  image_size _ := Some size;
  audio_duration_ok := @audio_duration_ok h
|}.

(** [a * b / c] on [int]s as Python evaluates it: the exact product, then a
    true division rounded once. *)
Definition scaled (a b c : Z) : Q :=
  Float.round (inject_Z (a * b) / inject_Z c).

(** [frame + (frame_size - size) * 0.5] for a float [size]: each of the three
    operations rounds. *)
Definition centred (frame frame_size : Z) (size : Q) : Q :=
  Float.round
    (inject_Z frame
     + Float.round (Float.round (inject_Z frame_size - size) * (1 # 2))).

(** The number is 0 or more (and is a number). *)
Definition nonneg (n : Num.t) : Prop := Num.leb (Num.Int 0) n = true.

(** A layer of the composite has a duration, starts at 0 or later and
    lasts 0 or more. *)
Definition layer_ok (c : Clip.t) : Prop :=
  exists d, Clip.duration c = Some d /\ nonneg (Clip.start c) /\ nonneg d.

(** The layer ends, at [start + duration], no later than [total]. *)
Definition ends_by (total : Num.t) (c : Clip.t) : Prop :=
  exists d e,
    Clip.duration c = Some d /\ Num.add (Clip.start c) d = Ok e
    /\ Num.leb e total = true.

(** The layers of the voice-overs: the audio clips and the captions, which
    are the white texts. *)
Definition is_spoken (c : Clip.t) : bool :=
  match Clip.source c with
  | AudioFileClip _ => true
  | TextClip _ color _ _ _ => String.eqb color "white"
  | _ => false
  end.

(** The duration of a slide: the sum of its voice-overs, raised to
    [min_duration] when that is larger. *)
Definition floor_duration `{Host} (slide : Slide.t) : Num.t :=
  match Slide.min_duration slide with
  | Some min_duration =>
      if Num.ltb (vo_total (Num.Int 0) (Slide.voice_overs slide))
           (Num.Int min_duration)
      then Num.Int min_duration
      else vo_total (Num.Int 0) (Slide.voice_overs slide)
  | None => vo_total (Num.Int 0) (Slide.voice_overs slide)
  end.

(** The [min_duration]s that the slides declare, added up. *)
Definition declared_min (slide : Slide.t) : Z :=
  match Slide.min_duration slide with
  | Some min_duration => Z.max 0 min_duration
  | None => 0
  end.

Definition min_total (slides : list Slide.t) : Z :=
  fold_right (fun slide acc => declared_min slide + acc) 0 slides.

(** The cursor of the compositor: an [int] between 0 and [bound], or a
    float that is not negative, possibly infinite. *)
Definition cursor_ok (bound : Z) (n : Num.t) : Prop :=
  match n with
  | Num.Int z => 0 <= z <= bound
  | Num.Flt (Finite q) => Float.is_duration (Finite q) = true
  | Num.Flt (Inf negative) => negative = false
  | Num.Flt NaN => False
  end.

(** The loop invariant of [main]: every layer emitted so far starts at 0
    or later and lasts 0 or more; when [exact] holds (it will say that the
    declared [min_duration]s are added without rounding), those that are
    not of a voice-over end at or before the cursor. *)
Definition timeline_ok (exact : Prop) (bound : Z) (tl : Timeline) : Prop :=
  cursor_ok bound (last_clip_end tl)
  /\ Forall layer_ok (tl_video_clips tl)
  /\ Forall layer_ok (tl_audio_clips tl)
  /\ (exact ->
       Forall (fun c => is_spoken c = false -> ends_by (last_clip_end tl) c)
         (tl_video_clips tl)).

(** ** A concrete script and host, used to run the definitions *)

Definition plain : Pydantic := {|
  str_validator v := match v with YStr s => Some s | _ => None end;
  int_validator v := match v with YInt z => Some z | _ => None end;
  float_validator v :=
    match v with
    | YFloat f => Some f
    | YInt z => match Float.of_int z with Ok f => Some f | Raise _ => None end
    | _ => None
    end;
  bool_validator v := match v with YBool b => Some b | _ => None end;
  list_validator v := match v with YSeq l => Some l | _ => None end;
  dict_validator v := match v with YMap m => Some m | _ => None end;
  str_validator_str := fun s => eq_refl;
  list_validator_list := fun l => eq_refl;
  dict_validator_dict := fun m => eq_refl
|}.

Definition demo_script : Script.t :=
  Script.mk
    [ [(YStr "A", YStr " hi ")];
      [(YStr "image", YStr "x.png"); (YStr "min_duration", YInt 5000)];
      [(YStr "A", YStr "bye")];
      [(YStr "A", YStr "ok")] ]
    [ ("A", Character.mk "a.png" "voice1") ].

Definition demo_vo (x : string) : VoiceOver.t :=
  VoiceOver.mk "A" "voice1" x "500ms".

Definition demo_wav (x : string) : string :=
  VoiceOver.get_filepath (demo_vo x) "/app/audio".

Definition demo_duration (path : string) : float :=
  if String.eqb path (demo_wav "hi") then Finite 1500
  else if String.eqb path (demo_wav "bye") then Finite 1000
  else if String.eqb path (demo_wav "ok") then Finite 2000
  else Finite 0.

(** A host whose [mimic3] writes the three audio files of [demo_script] and
    exits with [status]. *)
Definition studio (status : Z) : Host := {|
  here := "/app";
  resolve path := path;
  mimic3 _ fs :=
    (status,
     <[demo_wav "ok" := File]>
       (<[demo_wav "bye" := File]> (<[demo_wav "hi" := File]> fs)));
  make fs := (0, fs);
  audio_duration := demo_duration;
  image_size _ := Some (800, 300);
  audio_duration_ok := ltac:(
    intros path; unfold demo_duration;
    repeat match goal with
           | |- context [String.eqb ?a ?b] => destruct (String.eqb a b)
           end;
    vm_compute; reflexivity)
|}.

(** A host whose voice-overs all last 0.15; [mimic3] writes the audio file
    of the line [a]. *)
Definition brisk : Host := {|
  here := "/app";
  resolve path := path;
  mimic3 _ fs := (0, <[demo_wav "a" := File]> fs);
  make fs := (0, fs);
  audio_duration _ := Float.of_Q 0.15;
  image_size _ := Some (800, 300);
  audio_duration_ok := ltac:(intros path; vm_compute; reflexivity)
|}.

Definition demo_world : World :=
  mkWorld (<["x.png" := File]> (<["a.png" := File]> ∅)) [] [].

Definition demo_slides : list Slide.t :=
  [ Slide.mk [demo_vo "hi"] None Slide.Empty;
    Slide.mk [demo_vo "bye"; demo_vo "ok"] (Some 5000)
      (Slide.Image "x.png" None false) ].

(** A script whose second entry names a character that is not declared. *)
Definition stray_script : Script.t :=
  Script.mk
    [ [(YStr "A", YStr "hi")]; [(YStr "Z", YStr "boo")] ]
    [ ("A", Character.mk "a.png" "voice1") ].

(** A script whose only entry has two keys, none of them reserved. *)
Definition two_key_script : Script.t :=
  Script.mk
    [ [(YStr "A", YStr "hi"); (YStr "B", YStr "yo")] ]
    [ ("A", Character.mk "a.png" "voice1") ].

(** The files once [mimic3] has run for [demo_script]. *)
Definition demo_fs : FS :=
  fs (generate_audio (H := studio 0) demo_slides demo_world).

(** A script whose image slide has no voice-over and no [min_duration]. *)
Definition idle_script : Script.t :=
  Script.mk
    [ [(YStr "A", YStr "hi")]; [(YStr "image", YStr "x.png")] ]
    [ ("A", Character.mk "a.png" "voice1") ].

(** Two slides with three voice-overs each. *)
Definition drift_script : Script.t :=
  Script.mk
    [ [(YStr "A", YStr "a")]; [(YStr "A", YStr "a")]; [(YStr "A", YStr "a")];
      [(YStr "image", YStr "x.png")];
      [(YStr "A", YStr "a")]; [(YStr "A", YStr "a")]; [(YStr "A", YStr "a")] ]
    [ ("A", Character.mk "a.png" "voice1") ].

(** A slide without voice-over that declares a [min_duration] of 2^53 + 1,
    followed by a slide with one voice-over. *)
Definition far_script : Script.t :=
  Script.mk
    [ [(YStr "image", YStr "x.png");
       (YStr "min_duration", YInt 9007199254740993)];
      [(YStr "image", YStr "x.png")];
      [(YStr "A", YStr "a")] ]
    [ ("A", Character.mk "a.png" "voice1") ].


(** ** Notions used by the further properties *)


Fixpoint all_chars (p : ascii -> bool) (s : string) : bool :=
  match s with
  | EmptyString => true
  | String c s' => p c && all_chars p s'
  end.

(** A digit or a letter from [a] to [f]. *)
Definition is_hex_digit (c : ascii) : bool :=
  let n := Py.ord c in
  ((48 <=? n) && (n <=? 57)) || ((97 <=? n) && (n <=? 102)).

(** The bytes [CodeSlide.filename_base] feeds to SHA-1. *)
Definition code_message (code ext : string) : list Z :=
  Py.encode_utf8 ext ++ Py.encode_utf8 "|" ++ Py.encode_utf8 code.

(** The text starts, or ends, with a character that [strip] removes. *)
Definition starts_with_space (s : string) : bool :=
  match Py.drop_one Py.whitespace s with Some _ => true | None => false end.

Definition ends_with_space (s : string) : bool :=
  match Py.drop_one (map (fun w => Py.rev_string w EmptyString) Py.whitespace)
          (Py.rev_string s EmptyString) with
  | Some _ => true
  | None => false
  end.

(** The voice-overs an entry brings: those a slide entry declares itself,
    or the spoken line. *)
Definition entry_voice_overs (e : entry) : list VoiceOver.t :=
  match e with
  | NewSlide slide => Slide.voice_overs slide
  | Speak vo => [vo]
  end.

(** [max(a, b)] *)
Definition max_num (a b : Num.t) : Num.t := if Num.ltb a b then b else a.

(** The time a slide takes: the sum of its voice-overs, or [min_duration]
    when that is declared and larger. *)
Definition slide_span `{Host} (slide : Slide.t) : Num.t :=
  match Slide.min_duration slide with
  | Some m => max_num (vo_total (Num.Int 0) (Slide.voice_overs slide)) (Num.Int m)
  | None => vo_total (Num.Int 0) (Slide.voice_overs slide)
  end.

(** The captions are the white text layers. *)
Definition is_caption (c : Clip.t) : bool :=
  match Clip.source c with
  | TextClip _ color _ _ _ => String.eqb color "white"
  | _ => false
  end.

Definition timing (c : Clip.t) : Num.t * option Num.t :=
  (Clip.start c, Clip.duration c).

(** The files after [generate_audio] and the [prepare] of every slide. *)
Definition prepared `{Host} (slides : list Slide.t) (w : World) : result FS :=
  for_each (fun fs slide => prepare slide fs) slides
    (fs (generate_audio slides w)).

(** The video and audio layers of the slides in the order in which [main]
    emits them, the first slide starting at [cursor]: for each slide its
    captions, then its visual if it has one. *)
Fixpoint video_layout `{Host} (cursor : Num.t)
    (slides : list (Slide.t * option Clip.t)) : list Clip.t :=
  match slides with
  | [] => []
  | (slide, visual) :: slides' =>
      (captions_from cursor (Slide.voice_overs slide)
         ++ match visual with
            | Some c =>
                [Clip.set_start (Clip.set_duration c (floor_duration slide))
                   cursor]
            | None => []
            end)
        ++ video_layout (Num.plus cursor (floor_duration slide)) slides'
  end.

Fixpoint audio_layout `{Host} (cursor : Num.t) (slides : list Slide.t)
  : list Clip.t :=
  match slides with
  | [] => []
  | slide :: slides' =>
      audios_from cursor (Slide.voice_overs slide)
        ++ audio_layout (Num.plus cursor (floor_duration slide)) slides'
  end.

(** The portrait of a character, before its duration is set. *)
Definition portrait `{Host} (fs : FS) (character : string * Character.t)
  : result Clip.t :=
  ImageSlide.fit fs (Character.image (snd character))
    Anchors.left_character_left Anchors.left_character_top
    Anchors.left_character_width Anchors.left_character_height false None.

(** * Properties *)

(** ** Rounding to binary64 *)

Section Rounding.

Import Float.
Local Open Scope Q_scope.

Lemma pow2_pos (e : Z) : 0 < pow2 e.
Proof. apply Qpower_0_lt. reflexivity. Qed.

Lemma pow2_add (a b : Z) : pow2 (a + b) == pow2 a * pow2 b.
Proof. apply Qpower_plus. discriminate. Qed.

Lemma pow2_le (a b : Z) : (a <= b)%Z -> pow2 a <= pow2 b.
Proof. intros L. apply Qpower_le_compat_l; [exact L | discriminate]. Qed.

Lemma pow2_lt (a b : Z) : (a < b)%Z -> pow2 a < pow2 b.
Proof. intros L. apply Qpower_lt_compat_l; [exact L | reflexivity]. Qed.

Lemma pow2_Z (e : Z) : (0 <= e)%Z -> pow2 e == inject_Z (2 ^ e).
Proof. intros P. symmetry. now apply Zpower_Qpower. Qed.

Lemma pow2_le_inv (a b : Z) : pow2 a <= pow2 b -> (a <= b)%Z.
Proof.
  intros L. destruct (Z_le_gt_dec a b) as [|G]; [assumption |].
  apply Z.gt_lt, pow2_lt in G. lra.
Qed.

Lemma ilog2_spec (q : Q) : 0 < q -> pow2 (ilog2 q) <= q < pow2 (ilog2 q + 1).
Proof.
  destruct q as [n d]. intros P.
  assert (Pn : (0 < n)%Z) by (unfold Qlt in P; simpl in P; lia).
  unfold ilog2. cbn [Qnum Qden].
  set (ln := Z.log2 n). set (ld := Z.log2 (Z.pos d)).
  destruct (Z.log2_spec n Pn) as [Ln Un]. fold ln in Ln, Un.
  destruct (Z.log2_spec (Z.pos d) ltac:(lia)) as [Ld Ud]. fold ld in Ld, Ud.
  assert (Hln : (0 <= ln)%Z) by apply Z.log2_nonneg.
  assert (Hld : (0 <= ld)%Z) by apply Z.log2_nonneg.
  assert (Qn : pow2 ln <= inject_Z n < pow2 (ln + 1)).
  { rewrite !pow2_Z by lia. split; [rewrite <- Zle_Qle | rewrite <- Zlt_Qlt]; lia. }
  assert (Qd : pow2 ld <= inject_Z (Z.pos d) < pow2 (ld + 1)).
  { rewrite !pow2_Z by lia. split; [rewrite <- Zle_Qle | rewrite <- Zlt_Qlt]; lia. }
  assert (E : (n # d) * inject_Z (Z.pos d) == inject_Z n).
  { rewrite (Qmake_Qdiv n d). field. discriminate. }
  assert (Dp : 0 < inject_Z (Z.pos d)) by reflexivity.
  assert (U : n # d < pow2 (ln - ld + 1)).
  { pose proof (pow2_add (ln - ld + 1) ld) as A.
    replace (ln - ld + 1 + ld)%Z with (ln + 1)%Z in A by lia.
    pose proof (pow2_pos (ln - ld + 1)). pose proof (pow2_pos ld).
    apply Qnot_le_lt. intros C.
    assert (pow2 (ln - ld + 1) * pow2 ld <= (n # d) * inject_Z (Z.pos d)).
    { apply Qle_trans with ((n # d) * pow2 ld).
      - apply Qmult_le_compat_r; lra.
      - apply Qmult_le_l; [lra | lra]. }
    lra. }
  assert (Lo : pow2 (ln - ld - 1) <= n # d).
  { pose proof (pow2_add (ln - ld - 1) (ld + 1)) as A.
    replace (ln - ld - 1 + (ld + 1))%Z with ln in A by lia.
    pose proof (pow2_pos (ln - ld - 1)). pose proof (pow2_pos (ld + 1)).
    apply Qnot_lt_le. intros C.
    assert ((n # d) * inject_Z (Z.pos d) < pow2 (ln - ld - 1) * pow2 (ld + 1)).
    { apply Qle_lt_trans with ((n # d) * pow2 (ld + 1)).
      - apply Qmult_le_l; [lra | lra].
      - apply Qmult_lt_compat_r; lra. }
    lra. }
  destruct (Qle_bool (pow2 (ln - ld)) (n # d)) eqn:T.
  - apply Qle_bool_iff in T. split; [exact T | exact U].
  - split; [exact Lo |].
    replace (ln - ld - 1 + 1)%Z with (ln - ld)%Z by lia.
    apply Qnot_le_lt. intros C. apply Qle_bool_iff in C. congruence.
Qed.

Lemma ilog2_unique (q : Q) (k : Z) :
  pow2 k <= q < pow2 (k + 1) -> ilog2 q = k.
Proof.
  intros [L U].
  assert (P : 0 < q) by (pose proof (pow2_pos k); lra).
  destruct (ilog2_spec q P) as [L' U'].
  assert (A : (ilog2 q < k + 1)%Z).
  { destruct (Z_lt_le_dec (ilog2 q) (k + 1)) as [|G]; [assumption |].
    apply pow2_le in G. lra. }
  assert (B : (k < ilog2 q + 1)%Z).
  { destruct (Z_lt_le_dec k (ilog2 q + 1)) as [|G]; [assumption |].
    apply pow2_le in G. lra. }
  lia.
Qed.

Lemma ilog2_le (a b : Q) : 0 < a -> a <= b -> (ilog2 a <= ilog2 b)%Z.
Proof.
  intros P L. destruct (ilog2_spec a P) as [La _].
  destruct (ilog2_spec b ltac:(lra)) as [_ Ub].
  destruct (Z_le_gt_dec (ilog2 a) (ilog2 b)) as [|G]; [assumption |].
  assert (G' : (ilog2 b + 1 <= ilog2 a)%Z) by lia.
  apply pow2_le in G'. lra.
Qed.

Lemma ilog2_comp (a b : Q) : 0 < a -> a == b -> ilog2 a = ilog2 b.
Proof.
  intros P E. symmetry. apply ilog2_unique. rewrite <- E. now apply ilog2_spec.
Qed.

Lemma inject_Z_minus (a b : Z) : inject_Z (a - b) == inject_Z a - inject_Z b.
Proof. unfold Z.sub. rewrite inject_Z_plus, inject_Z_opp. ring. Qed.

Lemma rint_cases (x : Q) :
  let f := Qfloor x in
  (x - inject_Z f < 1 # 2 /\ rint x = f)
  \/ (1 # 2 < x - inject_Z f /\ rint x = (f + 1)%Z)
  \/ (x - inject_Z f == 1 # 2
      /\ rint x = if Z.even f then f else (f + 1)%Z).
Proof.
  intros f. unfold rint. fold f.
  destruct (x - inject_Z f ?= 1 # 2) eqn:C.
  - apply Qeq_alt in C. auto.
  - apply Qlt_alt in C. auto.
  - apply Qgt_alt in C. auto.
Qed.

Lemma floor_bounds (x : Q) :
  inject_Z (Qfloor x) <= x < inject_Z (Qfloor x) + 1.
Proof.
  split; [apply Qfloor_le |].
  pose proof (Qlt_floor x) as L. rewrite inject_Z_plus in L. exact L.
Qed.

Lemma rint_floor (x : Q) : (Qfloor x <= rint x <= Qfloor x + 1)%Z.
Proof.
  destruct (rint_cases x) as [[_ ->] | [[_ ->] | [_ ->]]];
    try destruct (Z.even _); lia.
Qed.

#[global] Instance rint_comp : Proper (Qeq ==> eq) rint.
Proof.
  intros a b E. unfold rint. rewrite (Qfloor_comp a b E).
  assert (C : (a - inject_Z (Qfloor b) ?= 1 # 2)
              = (b - inject_Z (Qfloor b) ?= 1 # 2)).
  { apply Qcompare_comp; [| reflexivity]. now rewrite E. }
  now rewrite C.
Qed.

Lemma rint_Z (z : Z) : rint (inject_Z z) = z.
Proof.
  unfold rint. rewrite Qfloor_Z.
  assert (E : inject_Z z - inject_Z z == 0) by ring.
  rewrite E. reflexivity.
Qed.

Lemma rint_le (x y : Q) : x <= y -> (rint x <= rint y)%Z.
Proof.
  intros L. pose proof (Qfloor_resp_le x y L) as F.
  pose proof (rint_floor x). pose proof (rint_floor y).
  destruct (Z.eq_dec (Qfloor x) (Qfloor y)) as [E | N]; [| lia].
  destruct (rint_cases x) as [[Cx Rx] | [[Cx Rx] | [Cx Rx]]];
    destruct (rint_cases y) as [[Cy Ry] | [[Cy Ry] | [Cy Ry]]];
    rewrite Rx, Ry; rewrite <- ?E in *;
    try destruct (Z.even (Qfloor x)); try lia; exfalso; lra.
Qed.

Lemma rint_opp (x : Q) : rint (- x) = (- rint x)%Z.
Proof.
  pose proof (floor_bounds x) as Bx. pose proof (floor_bounds (- x)) as Bn.
  destruct (Qeq_dec x (inject_Z (Qfloor x))) as [I | NI].
  - rewrite I. rewrite <- inject_Z_opp. now rewrite !rint_Z.
  - assert (F : Qfloor (- x) = (- Qfloor x - 1)%Z).
    { assert (A : (Qfloor (- x) < - Qfloor x)%Z).
      { rewrite Zlt_Qlt, inject_Z_opp.
        destruct (Qle_lt_or_eq _ _ (proj1 Bx)) as [S | S]; [lra |].
        exfalso. apply NI. now symmetry. }
      assert (B : (- Qfloor x - 1 <= Qfloor (- x))%Z).
      { apply Z.lt_succ_r. rewrite Zlt_Qlt. unfold Z.succ.
        rewrite !inject_Z_plus, inject_Z_minus, inject_Z_opp.
        change (inject_Z 1) with 1. lra. }
      lia. }
    assert (Ev : Z.even (- Qfloor x - 1) = negb (Z.even (Qfloor x))).
    { rewrite Z.even_sub, Z.even_opp. simpl (Z.even 1).
      now destruct (Z.even (Qfloor x)). }
    assert (I : inject_Z (- Qfloor x - 1) == - inject_Z (Qfloor x) - 1).
    { rewrite inject_Z_minus, inject_Z_opp. reflexivity. }
    destruct (rint_cases x) as [[Cx Rx] | [[Cx Rx] | [Cx Rx]]];
      destruct (rint_cases (- x)) as [[Cy Ry] | [[Cy Ry] | [Cy Ry]]];
      rewrite Rx, Ry; rewrite F in *; try rewrite Ev;
      try (destruct (Z.even (Qfloor x)); cbn [negb]); try lia; exfalso; lra.
Qed.

Lemma rint_ge (x : Q) (n : Z) : inject_Z n <= x -> (n <= rint x)%Z.
Proof. intros L. rewrite <- (rint_Z n). now apply rint_le. Qed.

Lemma rint_le_Z (x : Q) (n : Z) : x <= inject_Z n -> (rint x <= n)%Z.
Proof. intros L. rewrite <- (rint_Z n). now apply rint_le. Qed.

Lemma pow2_nonzero (e : Z) : ~ pow2 e == 0.
Proof. pose proof (pow2_pos e). lra. Qed.

Lemma scaled_le (a b : Q) (e : Z) : a <= b -> a / pow2 e <= b / pow2 e.
Proof.
  intros L. unfold Qdiv. apply Qmult_le_compat_r; [exact L |].
  apply Qlt_le_weak, Qinv_lt_0_compat, pow2_pos.
Qed.

Lemma scaled_pow2 (a e : Z) : pow2 a / pow2 e == pow2 (a - e).
Proof.
  pose proof (pow2_add (a - e) e) as A.
  replace (a - e + e)%Z with a in A by lia. rewrite A.
  field. apply pow2_nonzero.
Qed.

Lemma unscale (q : Q) (e : Z) : q / pow2 e * pow2 e == q.
Proof. field. apply pow2_nonzero. Qed.

Lemma round_zero (q : Q) : q == 0 -> round q = 0.
Proof.
  intros E. unfold round. apply Qeq_bool_iff in E. now rewrite E.
Qed.

Lemma round_value (q : Q) :
  ~ q == 0 ->
  round q = Qred (inject_Z (rint (q / pow2 (quantum q))) * pow2 (quantum q)).
Proof.
  intros N. unfold round. destruct (Qeq_bool q 0) eqn:E; [| reflexivity].
  apply Qeq_bool_iff in E. contradiction.
Qed.

Lemma round_eq (q : Q) :
  ~ q == 0 ->
  round q == inject_Z (rint (q / pow2 (quantum q))) * pow2 (quantum q).
Proof. intros N. rewrite (round_value q N). apply Qred_correct. Qed.

Lemma Qabs_positive (q : Q) : ~ q == 0 -> 0 < Qabs q.
Proof. intros N. apply Qabs_case; intros; lra. Qed.

Lemma quantum_comp (a b : Q) : ~ a == 0 -> a == b -> quantum a = quantum b.
Proof.
  intros N E. unfold quantum.
  rewrite (ilog2_comp (Qabs a) (Qabs b)); [reflexivity | |].
  - now apply Qabs_positive.
  - now rewrite E.
Qed.

Lemma quantum_positive (q : Q) :
  0 < q -> quantum q = Z.max (ilog2 q - 52) (-1074).
Proof.
  intros P. unfold quantum. rewrite (ilog2_comp (Qabs q) q); [reflexivity | |].
  - apply Qabs_positive. lra.
  - apply Qabs_pos. lra.
Qed.

Lemma quantum_opp (q : Q) : quantum (- q) = quantum q.
Proof.
  unfold quantum. destruct q as [n d]. unfold Qabs, Qopp. cbn [Qnum Qden].
  now rewrite Z.abs_opp.
Qed.

#[global] Instance round_comp : Proper (Qeq ==> eq) round.
Proof.
  intros a b E. destruct (Qeq_dec a 0) as [Z0 | N].
  - rewrite (round_zero a Z0). rewrite E in Z0. now rewrite (round_zero b Z0).
  - rewrite (round_value a N). rewrite E in N. rewrite (round_value b N).
    apply Qred_complete. rewrite <- E in N.
    rewrite (quantum_comp a b N E). now rewrite E.
Qed.

Lemma round_canon (q : Q) : Qred (round q) = round q.
Proof.
  destruct (Qeq_dec q 0) as [Z0 | N].
  - now rewrite (round_zero q Z0).
  - rewrite (round_value q N). apply Qred_complete, Qred_correct.
Qed.

Lemma round_eq_canon (q y : Q) : round q == y -> Qred y = y -> round q = y.
Proof.
  intros E C. rewrite <- (round_canon q), <- C. now apply Qred_complete.
Qed.

Lemma round_opp (q : Q) : round (- q) == - round q.
Proof.
  destruct (Qeq_dec q 0) as [Z0 | N].
  - rewrite (round_zero q Z0). rewrite round_zero; [reflexivity |]. lra.
  - assert (N' : ~ - q == 0) by lra.
    rewrite (round_eq _ N'), (round_eq _ N), quantum_opp.
    assert (E : - q / pow2 (quantum q) == - (q / pow2 (quantum q))).
    { field. apply pow2_nonzero. }
    rewrite E, rint_opp, inject_Z_opp. ring.
Qed.

Lemma round_nonneg (q : Q) : 0 <= q -> 0 <= round q.
Proof.
  intros P. destruct (Qeq_dec q 0) as [Z0 | N].
  - rewrite (round_zero q Z0). lra.
  - rewrite (round_eq q N). apply Qmult_le_0_compat.
    + change 0 with (inject_Z 0). rewrite <- Zle_Qle. apply rint_ge.
      change (inject_Z 0) with 0. apply Qle_shift_div_l; [apply pow2_pos |].
      lra.
    + apply Qlt_le_weak, pow2_pos.
Qed.

Lemma round_positive_le (a b : Q) : 0 < a -> a <= b -> round a <= round b.
Proof.
  intros P L.
  assert (Na : ~ a == 0) by lra. assert (Nb : ~ b == 0) by lra.
  rewrite (round_eq a Na), (round_eq b Nb).
  rewrite (quantum_positive a P), (quantum_positive b ltac:(lra)).
  pose proof (ilog2_le a b P L) as K.
  destruct (ilog2_spec a P) as [_ Ua].
  destruct (ilog2_spec b ltac:(lra)) as [Lb _].
  set (ka := ilog2 a) in *. set (kb := ilog2 b) in *.
  set (ea := Z.max (ka - 52) (-1074)). set (eb := Z.max (kb - 52) (-1074)).
  assert (Pa := pow2_pos ea). assert (Pb := pow2_pos eb).
  destruct (Z.eq_dec ea eb) as [E | NE].
  - rewrite <- E. apply Qmult_le_compat_r; [| lra].
    rewrite <- Zle_Qle. apply rint_le. now apply scaled_le.
  - assert (Lt : (ea < eb)%Z) by lia.
    apply Qle_trans with (pow2 (ea + 53)).
    + assert (T : pow2 (ea + 53) == inject_Z (2 ^ 53) * pow2 ea)
        by (rewrite pow2_add, (pow2_Z 53) by lia; ring).
      rewrite T. apply Qmult_le_compat_r; [| lra].
      rewrite <- Zle_Qle. apply rint_le_Z.
      rewrite <- (pow2_Z 53) by lia.
      assert (S : pow2 (ea + 53) / pow2 ea == pow2 53).
      { rewrite scaled_pow2. now replace (ea + 53 - ea)%Z with 53%Z by lia. }
      rewrite <- S. apply scaled_le.
      apply Qle_trans with (pow2 (ka + 1)); [lra | apply pow2_le; lia].
    + apply Qle_trans with (pow2 (eb + 52)); [apply pow2_le; lia |].
      assert (T : pow2 (eb + 52) == inject_Z (2 ^ 52) * pow2 eb)
        by (rewrite pow2_add, (pow2_Z 52) by lia; ring).
      rewrite T. apply Qmult_le_compat_r; [| lra].
      rewrite <- Zle_Qle. apply rint_ge.
      rewrite <- (pow2_Z 52) by lia.
      assert (S : pow2 (eb + 52) / pow2 eb == pow2 52).
      { rewrite scaled_pow2. now replace (eb + 52 - eb)%Z with 52%Z by lia. }
      rewrite <- S. apply scaled_le.
      apply Qle_trans with (pow2 kb); [apply pow2_le; lia | exact Lb].
Qed.

(** Rounding is monotone. *)
Theorem round_le (a b : Q) : a <= b -> round a <= round b.
Proof.
  intros L. destruct (Qlt_le_dec 0 a) as [Pa | Na].
  - now apply round_positive_le.
  - destruct (Qlt_le_dec b 0) as [Nb | Pb].
    + assert (R : round (- b) <= round (- a))
        by (apply round_positive_le; lra).
      rewrite !round_opp in R. lra.
    + pose proof (round_nonneg b Pb).
      assert (R : 0 <= round (- a)) by (apply round_nonneg; lra).
      rewrite round_opp in R. lra.
Qed.

(** A multiple of [2^e] below [2^(e+53)] in magnitude is a float, for [e]
    no smaller than the exponent of the subnormal numbers. *)
Lemma round_exact (q : Q) (m e : Z) :
  q == inject_Z m * pow2 e -> (-1074 <= e)%Z -> Qabs q < pow2 (e + 53) ->
  round q == q.
Proof.
  intros E Le B. destruct (Qeq_dec q 0) as [Z0 | N].
  - rewrite (round_zero q Z0). now symmetry.
  - rewrite (round_eq q N).
    assert (Q : (quantum q <= e)%Z).
    { unfold quantum. pose proof (Qabs_positive q N) as P.
      destruct (ilog2_spec _ P) as [Lo _].
      assert (ilog2 (Qabs q) < e + 53)%Z; [| lia].
      destruct (Z_lt_le_dec (ilog2 (Qabs q)) (e + 53)) as [|G]; [assumption |].
      apply pow2_le in G. lra. }
    assert (S : q / pow2 (quantum q) == inject_Z (m * 2 ^ (e - quantum q))).
    { rewrite E at 1. rewrite inject_Z_mult, <- pow2_Z by lia.
      rewrite <- scaled_pow2. field. apply pow2_nonzero. }
    rewrite S, rint_Z, <- S. apply unscale.
Qed.

Lemma round_idem (q : Q) : round (round q) = round q.
Proof.
  apply round_eq_canon; [| apply round_canon].
  destruct (Qeq_dec q 0) as [Z0 | N].
  - rewrite (round_zero q Z0). now rewrite round_zero.
  - assert (M : forall p, 0 < p -> round (round p) == round p).
    { intros p P. assert (Np : ~ p == 0) by lra.
      pose proof (round_eq p Np) as V.
      rewrite (quantum_positive p P) in V.
      destruct (ilog2_spec p P) as [Lo Up].
      set (k := ilog2 p) in *. set (e := Z.max (k - 52) (-1074)) in *.
      set (m := rint (p / pow2 e)) in *.
      assert (Pe := pow2_pos e).
      assert (M0 : (0 <= m)%Z).
      { apply rint_ge. apply Qle_shift_div_l; [exact Pe |].
        change (inject_Z 0) with 0. lra. }
      assert (M1 : (m <= 2 ^ 53)%Z).
      { apply rint_le_Z. rewrite <- (pow2_Z 53) by lia.
        assert (S : pow2 (e + 53) / pow2 e == pow2 53).
        { rewrite scaled_pow2. now replace (e + 53 - e)%Z with 53%Z by lia. }
        rewrite <- S. apply scaled_le.
        apply Qle_trans with (pow2 (k + 1)); [lra | apply pow2_le; lia]. }
      assert (Rn : 0 <= round p) by (apply round_nonneg; lra).
      destruct (Z.eq_dec m (2 ^ 53)%Z) as [Top | Below].
      - apply (round_exact _ (2 ^ 52)%Z (e + 1)%Z); [| lia |].
        + rewrite V, Top, (pow2_add e 1).
          change (2 ^ 53)%Z with (2 ^ 52 * 2)%Z. rewrite inject_Z_mult.
          change (pow2 1) with 2. change (inject_Z 2) with 2. ring.
        + rewrite Qabs_pos by exact Rn. rewrite V, Top.
          rewrite <- (pow2_Z 53) by lia. rewrite <- pow2_add.
          apply pow2_lt. lia.
      - apply (round_exact _ m e); [exact V | lia |].
        rewrite Qabs_pos by exact Rn. rewrite V.
        assert (T : pow2 (e + 53) == inject_Z (2 ^ 53) * pow2 e)
          by (rewrite pow2_add, (pow2_Z 53) by lia; ring).
        rewrite T. apply Qmult_lt_r; [exact Pe |].
        rewrite <- Zlt_Qlt. lia. }
    destruct (Qlt_le_dec 0 q) as [P | NP]; [now apply M |].
    assert (P : 0 < - q) by lra.
    pose proof (M _ P) as R.
    rewrite (round_comp _ _ (round_opp q)) in R.
    rewrite !round_opp in R. lra.
Qed.

Lemma round_Z (z : Z) : (Z.abs z <= 2 ^ 53)%Z -> round (inject_Z z) = inject_Z z.
Proof.
  intros B. apply round_eq_canon.
  - destruct (Z.eq_dec (Z.abs z) (2 ^ 53)%Z) as [Top | Below].
    + apply (round_exact _ (z / 2)%Z 1%Z); [| lia |].
      * assert (z = 2 ^ 53 \/ z = - 2 ^ 53)%Z as [-> | ->] by lia; reflexivity.
      * assert (A : Qabs (inject_Z z) == inject_Z (Z.abs z)) by reflexivity.
        rewrite A, Top. reflexivity.
    + apply (round_exact _ z 0%Z); [| lia |].
      * change (pow2 0) with 1. ring.
      * assert (A : Qabs (inject_Z z) == inject_Z (Z.abs z)) by reflexivity.
        rewrite A. rewrite (pow2_Z (0 + 53)) by lia. rewrite <- Zlt_Qlt.
        simpl ((0 + 53)%Z). lia.
  - apply Qred_identity. cbn. apply Z.gcd_1_r.
Qed.

End Rounding.

(** ** Floats and numbers *)

Section Numbers.

Import Float.
Local Open Scope Q_scope.

Lemma Qle_bool_false (a b : Q) : Qle_bool a b = false <-> b < a.
Proof.
  split.
  - intros E. apply Qnot_le_lt. intros L. apply Qle_bool_iff in L. congruence.
  - intros L. destruct (Qle_bool a b) eqn:E; [| reflexivity].
    apply Qle_bool_iff in E. lra.
Qed.

Lemma overflows_false (q : Q) : overflows q = false <-> Qabs q < pow2 1024.
Proof. unfold overflows. apply Qle_bool_false. Qed.

Lemma negative_false (q : Q) : 0 <= q -> negative q = false.
Proof.
  intros P. unfold negative. apply Qle_bool_iff in P. now rewrite P.
Qed.

Lemma Q_eq (a b : Q) : Qnum a = Qnum b -> Qden a = Qden b -> a = b.
Proof. destruct a, b. cbn. now intros -> ->. Qed.

Lemma is_float_spec (q : Q) :
  is_float (Finite q) = true <-> round q = q /\ Qabs q < pow2 1024.
Proof.
  unfold is_float. rewrite !andb_true_iff, negb_true_iff, overflows_false.
  rewrite Z.eqb_eq, Pos.eqb_eq. split.
  - intros [[N D] O]. split; [now apply Q_eq | exact O].
  - intros [E O]. rewrite E. auto.
Qed.

Lemma is_duration_spec (q : Q) :
  is_duration (Finite q) = true
  <-> round q = q /\ Qabs q < pow2 1024 /\ 0 <= q.
Proof.
  unfold is_duration. rewrite andb_true_iff, is_float_spec, Qle_bool_iff.
  tauto.
Qed.

Lemma is_duration_finite (f : float) :
  is_duration f = true -> exists q, f = Finite q.
Proof. destruct f; try discriminate. eauto. Qed.

Lemma round_pow2 (k : Z) : (-1074 <= k)%Z -> round (pow2 k) == pow2 k.
Proof.
  intros L. apply (round_exact _ 1%Z k); [| exact L |].
  - change (inject_Z 1) with 1. ring.
  - rewrite Qabs_pos by (apply Qlt_le_weak, pow2_pos). apply pow2_lt. lia.
Qed.

(** Rounding does not leave an interval whose ends are powers of 2. *)
Lemma round_bounded (q : Q) (k : Z) :
  (-1074 <= k)%Z -> Qabs q <= pow2 k -> Qabs (round q) <= pow2 k.
Proof.
  intros L B. apply Qabs_Qle_condition in B as [Lo Hi].
  apply Qabs_Qle_condition. split.
  - apply round_le in Lo. rewrite round_opp, (round_pow2 k L) in Lo. exact Lo.
  - apply round_le in Hi. now rewrite (round_pow2 k L) in Hi.
Qed.

Lemma round_fits (q : Q) (k : Z) :
  (-1074 <= k < 1024)%Z -> Qabs q <= pow2 k -> overflows (round q) = false.
Proof.
  intros [L U] B. apply overflows_false.
  apply Qle_lt_trans with (pow2 k); [now apply round_bounded |].
  now apply pow2_lt.
Qed.

Lemma of_Q_finite (q r : Q) :
  of_Q q = Finite r -> r = round q /\ is_float (Finite r) = true.
Proof.
  unfold of_Q. destruct (overflows (round q)) eqn:O; [discriminate |].
  intros [= <-]. split; [reflexivity |].
  apply is_float_spec. split; [apply round_idem | now apply overflows_false].
Qed.

Lemma of_Q_cases (q : Q) :
  (exists r, of_Q q = Finite r /\ r = round q /\ is_float (Finite r) = true)
  \/ (of_Q q = Inf (negative (round q)) /\ overflows (round q) = true).
Proof.
  destruct (of_Q q) as [r | s |] eqn:E.
  - left. exists r. destruct (of_Q_finite q r E). auto.
  - right. unfold of_Q in *. destruct (overflows (round q)); [auto | discriminate].
  - unfold of_Q in E. destruct (overflows (round q)); discriminate.
Qed.

Lemma of_Q_float (q : Q) : is_float (Finite q) = true -> of_Q q = Finite q.
Proof.
  intros F. apply is_float_spec in F as [R O]. unfold of_Q. rewrite R.
  apply overflows_false in O. now rewrite O.
Qed.

Lemma int_is_float (z : Z) :
  (Z.abs z <= 2 ^ 53)%Z -> is_float (Finite (inject_Z z)) = true.
Proof.
  intros B. apply is_float_spec. split; [now apply round_Z |].
  assert (A : Qabs (inject_Z z) == inject_Z (Z.abs z)) by reflexivity.
  rewrite A. rewrite (pow2_Z 1024) by lia. rewrite <- Zlt_Qlt.
  apply Z.le_lt_trans with (2 ^ 53)%Z; [exact B |].
  apply Z.pow_lt_mono_r; lia.
Qed.

Lemma of_int_exact (z : Z) :
  (Z.abs z <= 2 ^ 53)%Z -> of_int z = Ok (Finite (inject_Z z)).
Proof.
  intros B. apply int_is_float, is_float_spec in B as [R O].
  unfold of_int. rewrite R. apply overflows_false in O. now rewrite O.
Qed.

Lemma of_int_of_Q (z : Z) (f : float) :
  of_int z = Ok f -> of_Q (inject_Z z) = f.
Proof.
  unfold of_int, of_Q. destruct (overflows _); [discriminate |].
  now intros [= <-].
Qed.

(** [<=] on floats is reflexive away from NaN, and transitive. *)
Lemma float_leb_refl (a : float) : a <> NaN -> leb a a = true.
Proof.
  destruct a as [q | s |]; cbn; intros N.
  - apply Qle_bool_iff, Qle_refl.
  - now destruct s.
  - contradiction.
Qed.

Lemma float_leb_trans (a b c : float) :
  leb a b = true -> leb b c = true -> leb a c = true.
Proof.
  destruct a as [x | [] |], b as [y | [] |], c as [z | [] |]; cbn;
    try discriminate; try reflexivity.
  rewrite !Qle_bool_iff. apply Qle_trans.
Qed.



Lemma as_float_exact (z : Z) :
  (Z.abs z <= 2 ^ 53)%Z -> Num.as_float (Num.Int z) = Finite (inject_Z z).
Proof. intros B. cbn. now apply of_Q_float, int_is_float. Qed.

End Numbers.

(** ** Strings *)

#[local] Arguments String.append !_ _ / : simpl nomatch.

Section Strings.

Lemma app_assoc_s (a b c : string) : (a +:+ b) +:+ c = a +:+ (b +:+ c).
Proof. induction a as [|x a IH]; simpl; [reflexivity | now rewrite IH]. Qed.

Lemma app_nil_r_s (a : string) : a +:+ EmptyString = a.
Proof. induction a as [|x a IH]; simpl; [reflexivity | now rewrite IH]. Qed.

Lemma length_app_s (a b : string) :
  String.length (a +:+ b) = (String.length a + String.length b)%nat.
Proof. induction a as [|x a IH]; simpl; [reflexivity | now rewrite IH]. Qed.

Lemma app_inv_head_s (a b c : string) : a +:+ b = a +:+ c -> b = c.
Proof. induction a as [|x a IH]; simpl; [easy | intros E; injection E; auto]. Qed.

Lemma app_inv_tail_s (a b c : string) : a +:+ c = b +:+ c -> a = b.
Proof.
  revert b; induction a as [|x a IH]; intros [|y b] E; simpl in E.
  - reflexivity.
  - apply (f_equal String.length) in E; simpl in E.
    rewrite length_app_s in E; lia.
  - apply (f_equal String.length) in E; simpl in E.
    rewrite length_app_s in E; lia.
  - injection E as -> E. f_equal. now apply IH.
Qed.

Lemma encode_utf8_app (a b : string) :
  Py.encode_utf8 (a +:+ b) = Py.encode_utf8 a ++ Py.encode_utf8 b.
Proof. induction a as [|x a IH]; simpl; [reflexivity | now rewrite IH]. Qed.

Lemma ord_inj (c d : ascii) : Py.ord c = Py.ord d -> c = d.
Proof.
  unfold Py.ord; intros E. apply N2Z.inj in E.
  rewrite <- (ascii_N_embedding c), <- (ascii_N_embedding d). now rewrite E.
Qed.

Lemma encode_utf8_inj (a b : string) :
  Py.encode_utf8 a = Py.encode_utf8 b -> a = b.
Proof.
  revert b; induction a as [|x a IH]; intros [|y b] E; simpl in E;
    try discriminate; [reflexivity |].
  injection E as E1 E2. apply ord_inj in E1. subst y. f_equal. now apply IH.
Qed.

Lemma replace_app (old : ascii) (new a b : string) :
  Py.replace old new (a +:+ b) = Py.replace old new a +:+ Py.replace old new b.
Proof.
  induction a as [|x a IH]; simpl; [reflexivity |].
  rewrite IH. destruct (Ascii.eqb x old); simpl; [| reflexivity].
  symmetry. apply app_assoc_s.
Qed.

(** The three successive replacements of [escape] amount to mapping every
    character to its entity reference: the ampersands that the first
    replacement introduces are followed by letters only. *)
Lemma escape_xml_escaped (s : string) : Py.escape s = xml_escaped s.
Proof.
  unfold Py.escape. induction s as [|c s IH]; [reflexivity |].
  simpl. unfold xml_entity.
  destruct (Ascii.eqb_spec c "&") as [-> | Namp]; simpl.
  { now rewrite <- IH. }
  destruct (Ascii.eqb_spec c ">") as [-> | Ngt]; simpl.
  { now rewrite <- IH. }
  destruct (Ascii.eqb_spec c "<") as [-> | Nlt]; simpl.
  { now rewrite <- IH. }
  now rewrite <- IH.
Qed.

Lemma no_markup_xml_escaped (s : string) : no_markup (xml_escaped s) = true.
Proof.
  induction s as [|c s IH]; [reflexivity |].
  simpl. unfold xml_entity.
  destruct (Ascii.eqb_spec c "&") as [-> | Namp]; [exact IH |].
  destruct (Ascii.eqb_spec c ">") as [-> | Ngt]; [exact IH |].
  destruct (Ascii.eqb_spec c "<") as [-> | Nlt]; [exact IH |].
  simpl.
  destruct (Ascii.eqb_spec c "<"); [contradiction |].
  destruct (Ascii.eqb_spec c ">"); [contradiction |].
  destruct (Ascii.eqb_spec c "&"); [contradiction |].
  exact IH.
Qed.

Lemma no_markup_contains (s : string) :
  no_markup s = true ->
  Py.contains "<" s = false /\ Py.contains ">" s = false.
Proof.
  induction s as [|c s IH]; [easy |].
  cbn [no_markup Py.contains].
  rewrite (Ascii.eqb_sym "<" c), (Ascii.eqb_sym ">" c).
  destruct (Ascii.eqb c "<"); [discriminate |].
  destruct (Ascii.eqb c ">"); [discriminate |].
  destruct (Ascii.eqb c "&"); cbn [orb]; intros E.
  - apply andb_prop in E as [_ E]. now apply IH.
  - now apply IH.
Qed.

(** [xml_escaped] is a prefix code, hence injective. *)
Lemma xml_escaped_inj (a b : string) : xml_escaped a = xml_escaped b -> a = b.
Proof.
  revert b; induction a as [|x a IH]; intros [|y b]; simpl.
  - reflexivity.
  - unfold xml_entity.
    destruct (Ascii.eqb y "&"); [discriminate |].
    destruct (Ascii.eqb y ">"); [discriminate |].
    destruct (Ascii.eqb y "<"); discriminate.
  - unfold xml_entity.
    destruct (Ascii.eqb x "&"); [discriminate |].
    destruct (Ascii.eqb x ">"); [discriminate |].
    destruct (Ascii.eqb x "<"); discriminate.
  - unfold xml_entity.
    destruct (Ascii.eqb_spec x "&") as [-> | Xa];
      [| destruct (Ascii.eqb_spec x ">") as [-> | Xg];
         [| destruct (Ascii.eqb_spec x "<") as [-> | Xl]]];
    (destruct (Ascii.eqb_spec y "&") as [-> | Ya];
      [| destruct (Ascii.eqb_spec y ">") as [-> | Yg];
         [| destruct (Ascii.eqb_spec y "<") as [-> | Yl]]]);
    simpl; intros E; try discriminate E;
    try (injection E as E; f_equal; now apply IH);
    try (injection E as E1 E; congruence).
    injection E as E1 E. subst y. f_equal. now apply IH.
Qed.

End Strings.

(** ** The voice-over model *)

(** Cancel the common constant prefix of the two sides of an equation
    between texts. *)
Ltac strip_heads E :=
  repeat first [ apply app_inv_head_s in E | progress (injection E as E) ].

Section VoiceOverFacts.

Context `{Pydantic}.

Lemma voice_over_init_entry (c v x : string) :
  VoiceOver.init [ (YStr "character", YStr c); (YStr "text", YStr x);
                   (YStr "voice", YStr v) ]
  = Ok (VoiceOver.mk c v (VoiceOver.validate_text x) "500ms").
Proof.
  unfold VoiceOver.init, Field.required, Field.defaulted. cbn.
  rewrite !str_validator_str. reflexivity.
Qed.

Lemma voice_over_of_ok (c v x p : string) :
  voice_over_of c v x p = Ok (VoiceOver.mk c v (Py.strip x) p).
Proof.
  unfold voice_over_of, VoiceOver.init, Field.required, Field.defaulted. cbn.
  rewrite !str_validator_str. reflexivity.
Qed.

Lemma filename_base_digest (vo : VoiceOver.t) :
  VoiceOver.filename_base vo = Sha1.hexdigest (hashed_message vo).
Proof.
  unfold VoiceOver.filename_base, hashed_message, Sha1.update, Sha1.new.
  f_equal. cbn [app]. now rewrite <- !app_assoc.
Qed.

Lemma hashed_message_text (vo : VoiceOver.t) :
  hashed_message vo =
  Py.encode_utf8 (VoiceOver.character vo +:+ "|" +:+ VoiceOver.voice vo
                    +:+ "|" +:+ VoiceOver.saml_text vo).
Proof. unfold hashed_message. now rewrite !encode_utf8_app. Qed.

Lemma hashed_message_inv (vo vo' : VoiceOver.t) :
  hashed_message vo = hashed_message vo' ->
  VoiceOver.character vo +:+ "|" +:+ VoiceOver.voice vo
    +:+ "|" +:+ VoiceOver.saml_text vo
  = VoiceOver.character vo' +:+ "|" +:+ VoiceOver.voice vo'
    +:+ "|" +:+ VoiceOver.saml_text vo'.
Proof. rewrite !hashed_message_text. apply encode_utf8_inj. Qed.

(** C10: the synthesis payload of a voice-over is [<speak>], the clean text
    with every [&], [<] and [>] replaced by its entity reference, and
    [<break time='END_PAUSE'/></speak>]; the escaped text holds no [<] and
    no [>], and each of its [&] opens an entity reference; a voice-over
    built from a script entry has the default end pause ["500ms"]. *)
Theorem saml_text_is_escaped_payload (vo : VoiceOver.t) :
  VoiceOver.saml_text vo
  = "<speak>" +:+ xml_escaped (VoiceOver.clean_text vo) +:+ "<break time='"
      +:+ VoiceOver.end_pause vo +:+ "'/></speak>"
  /\ no_markup (Py.escape (VoiceOver.clean_text vo)) = true
  /\ Py.contains "<" (Py.escape (VoiceOver.clean_text vo)) = false
  /\ Py.contains ">" (Py.escape (VoiceOver.clean_text vo)) = false
  /\ (forall c v x : string,
         VoiceOver.init [ (YStr "character", YStr c); (YStr "text", YStr x);
                          (YStr "voice", YStr v) ]
         = Ok (VoiceOver.mk c v (VoiceOver.validate_text x) "500ms")).
Proof.
  assert (M : no_markup (Py.escape (VoiceOver.clean_text vo)) = true)
    by (rewrite escape_xml_escaped; apply no_markup_xml_escaped).
  destruct (no_markup_contains _ M) as [Lt Gt].
  repeat split; auto.
  - unfold VoiceOver.saml_text. now rewrite escape_xml_escaped.
  - apply voice_over_init_entry.
Qed.

(** C3, as the code has it: a voice-over built from four strings keeps the
    stripped text; its key is the SHA-1 digest of
    [character|voice|payload]; two voice-overs that agree on character,
    voice, end pause and on the text after stripping and after replacing
    line feeds by spaces have the same key; changing the character alone,
    the voice alone, the end pause alone, or the text to one with another
    normal form, changes the hashed bytes. *)
Theorem cache_key_of_normalised_fields (c v x p c' v' x' p' : string) :
  let vo := VoiceOver.mk c v (Py.strip x) p in
  let vo' := VoiceOver.mk c' v' (Py.strip x') p' in
  voice_over_of c v x p = Ok vo
  /\ voice_over_of c' v' x' p' = Ok vo'
  /\ VoiceOver.filename_base vo = Sha1.hexdigest (hashed_message vo)
  /\ (c = c' -> v = v' -> p = p' ->
      VoiceOver.clean_text vo = VoiceOver.clean_text vo' ->
      VoiceOver.filename_base vo = VoiceOver.filename_base vo')
  /\ (c <> c' -> v = v' -> x = x' -> p = p' ->
      hashed_message vo <> hashed_message vo')
  /\ (v <> v' -> c = c' -> x = x' -> p = p' ->
      hashed_message vo <> hashed_message vo')
  /\ (p <> p' -> c = c' -> v = v' -> x = x' ->
      hashed_message vo <> hashed_message vo')
  /\ (VoiceOver.clean_text vo <> VoiceOver.clean_text vo' ->
      c = c' -> v = v' -> p = p' ->
      hashed_message vo <> hashed_message vo').
Proof.
  intros vo vo'.
  split; [apply voice_over_of_ok |].
  split; [apply voice_over_of_ok |].
  split; [apply filename_base_digest |].
  split.
  { intros -> -> -> E. rewrite !filename_base_digest.
    unfold hashed_message, VoiceOver.saml_text. subst vo vo'. cbn in *.
    unfold VoiceOver.clean_text in E. cbn in E. now rewrite E. }
  split.
  { intros N -> -> -> E. apply hashed_message_inv in E.
    subst vo vo'; cbn in E. apply app_inv_tail_s in E. contradiction. }
  split.
  { intros N -> -> -> E. apply hashed_message_inv in E.
    subst vo vo'; cbn in E. strip_heads E.
    apply app_inv_tail_s in E. contradiction. }
  split.
  { intros N -> -> -> E. apply hashed_message_inv in E.
    subst vo vo'; cbn in E. strip_heads E.
    apply app_inv_tail_s in E. contradiction. }
  { intros N -> -> -> E. apply hashed_message_inv in E.
    subst vo vo'; cbn in E. strip_heads E.
    apply app_inv_tail_s in E.
    change (Py.escape (VoiceOver.clean_text (VoiceOver.mk c' v' (Py.strip x) p'))
            = Py.escape (VoiceOver.clean_text (VoiceOver.mk c' v' (Py.strip x') p')))
      in E.
    rewrite !escape_xml_escaped in E.
    apply xml_escaped_inj in E. contradiction. }
Qed.

End VoiceOverFacts.

(** C3, as stated, fails: two texts that differ in surrounding white space
    give the same key, and so do two texts of which one has a line feed
    where the other has a space. *)
Lemma cache_key_ignores_surrounding_space :
  (" hi " <> "hi" /\
   exists vo vo',
     voice_over_of (H := plain) "A" "voice1" " hi " "500ms" = Ok vo /\
     voice_over_of (H := plain) "A" "voice1" "hi" "500ms" = Ok vo' /\
     VoiceOver.filename_base vo = VoiceOver.filename_base vo')
  /\ (String "a" (String Py.LF "b") <> "a b" /\
      exists vo vo',
        voice_over_of (H := plain) "A" "voice1" (String "a" (String Py.LF "b"))
          "500ms" = Ok vo /\
        voice_over_of (H := plain) "A" "voice1" "a b" "500ms" = Ok vo' /\
        VoiceOver.filename_base vo = VoiceOver.filename_base vo').
Proof.
  split; (split; [discriminate |]).
  - exists (VoiceOver.mk "A" "voice1" "hi" "500ms").
    exists (VoiceOver.mk "A" "voice1" "hi" "500ms").
    split; [| split]; vm_compute; reflexivity.
  - exists (VoiceOver.mk "A" "voice1" (String "a" (String Py.LF "b")) "500ms").
    exists (VoiceOver.mk "A" "voice1" "a b" "500ms").
    split; [| split]; vm_compute; reflexivity.
Qed.

Lemma cache_key_of_normalised_fields_witness :
  hashed_message (VoiceOver.mk "A" "voice1" (Py.strip "hi") "500ms")
  <> hashed_message (VoiceOver.mk "B" "voice1" (Py.strip "hi") "500ms").
Proof.
  destruct (cache_key_of_normalised_fields (H := plain)
              "A" "voice1" "hi" "500ms" "B" "voice1" "hi" "500ms")
    as (_ & _ & _ & _ & Hc & _).
  apply Hc; [discriminate | reflexivity | reflexivity | reflexivity].
Defined.

(** ** The script parser *)

Section Parser.

Context `{Pydantic}.

Lemma is_ok_inv {A : Type} (m : result A) :
  is_ok m = true -> exists a, m = Ok a.
Proof. destruct m as [a | e]; simpl; [eauto | discriminate]. Defined.

Lemma bind_ok {A B : Type} (m : result A) (k : A -> result B) (b : B) :
  bind m k = Ok b -> exists a, m = Ok a /\ k a = Ok b.
Proof. destruct m as [a | e]; simpl; [eauto | discriminate]. Qed.

Lemma for_each_app {A S : Type} (body : S -> A -> result S) (l1 l2 : list A)
    (s : S) :
  for_each body (l1 ++ l2) s = bind (for_each body l1 s) (for_each body l2).
Proof.
  revert s; induction l1 as [|a l1 IH]; intros s; simpl; [reflexivity |].
  destruct (body s a); simpl; [apply IH | reflexivity].
Qed.

Lemma parse_item_advance (self : Script.t) (s : Script.state) (item : dict) :
  Script.parse_item self s item
  = bind (read_entry self item) (fun e => Ok (advance s e)).
Proof.
  unfold Script.parse_item, read_entry, spoken.
  destruct (has_key "image" item).
  { destruct (ImageSlide.parse_obj item); reflexivity. }
  destruct (has_key "text" item).
  { destruct (TextSlide.parse_obj item); reflexivity. }
  destruct (has_key "code" item).
  { destruct (CodeSlide.parse_obj item); reflexivity. }
  destruct item as [|[key value] more]; [reflexivity |].
  destruct (Script.getitem (Script.characters self) key); [| reflexivity].
  simpl. destruct (VoiceOver.init _); reflexivity.
Qed.

Lemma alter_last {A : Type} (f : A -> A) (pre : list A) (x : A) :
  alter f (length pre) (pre ++ [x]) = pre ++ [f x].
Proof.
  induction pre as [|y pre IH]; [reflexivity |].
  cbn [length app]. change (alter f (S (length pre)) (y :: pre ++ [x]))
    with (y :: alter f (length pre) (pre ++ [x])).
  now rewrite IH.
Qed.

(** The loop with its mutable current slide computes the fold [segment]:
    the current slide is always the last of the list. *)
Lemma for_each_parse_item (self : Script.t) (items : list dict)
    (pre : list Slide.t) (current : Slide.t) :
  bind (for_each (Script.parse_item self) items (pre ++ [current], length pre))
       (fun s => Ok (fst s))
  = bind (Slide.traverse (read_entry self) items)
         (fun es => Ok (pre ++ segment current es)).
Proof.
  revert pre current; induction items as [|item items IH]; intros pre current.
  - reflexivity.
  - simpl. rewrite parse_item_advance.
    destruct (read_entry self item) as [[slide | vo] | e]; simpl.
    + unfold Script.start; simpl.
      specialize (IH (pre ++ [current]) slide).
      rewrite IH.
      destruct (Slide.traverse (read_entry self) items); simpl;
        [now rewrite <- app_assoc | reflexivity].
    + rewrite alter_last, IH.
      destruct (Slide.traverse (read_entry self) items); reflexivity.
    + reflexivity.
Qed.

Lemma parse_slides_segment (self : Script.t) :
  Script.parse_slides self
  = bind (Slide.traverse (read_entry self) (Script.slides self))
         (fun es => Ok (segment EmptySlide.init es)).
Proof.
  unfold Script.parse_slides.
  exact (for_each_parse_item self (Script.slides self) [] EmptySlide.init).
Qed.





Lemma image_parse_obj_body (item : dict) (s : Slide.t) :
  ImageSlide.parse_obj item = Ok s ->
  exists image zoom zoom_to_fit, Slide.body s = Slide.Image image zoom zoom_to_fit.
Proof.
  unfold ImageSlide.parse_obj. intros E.
  apply bind_ok in E as (base & _ & E).
  apply bind_ok in E as (image & _ & E).
  apply bind_ok in E as (zoom & _ & E).
  apply bind_ok in E as (zoom_to_fit & _ & E).
  injection E as <-. simpl. eauto.
Qed.

Lemma text_parse_obj_body (item : dict) (s : Slide.t) :
  TextSlide.parse_obj item = Ok s ->
  exists text font_size, Slide.body s = Slide.Text text font_size.
Proof.
  unfold TextSlide.parse_obj. intros E.
  apply bind_ok in E as (base & _ & E).
  apply bind_ok in E as (text & _ & E).
  apply bind_ok in E as (font_size & _ & E).
  injection E as <-. simpl. eauto.
Qed.

Lemma code_parse_obj_body (item : dict) (s : Slide.t) :
  CodeSlide.parse_obj item = Ok s ->
  exists code ext, Slide.body s = Slide.Code code ext.
Proof.
  unfold CodeSlide.parse_obj. intros E.
  apply bind_ok in E as (base & _ & E).
  apply bind_ok in E as (code & _ & E).
  apply bind_ok in E as (ext & _ & E).
  injection E as <-. simpl. eauto.
Qed.

Lemma read_entry_reserved (self : Script.t) (item : dict) (e : entry) :
  read_entry self item = Ok e -> entry_of self item e.
Proof.
  unfold read_entry, entry_of, reserved, starts_variant.
  destruct (has_key "image" item).
  { intros E. apply bind_ok in E as (s & E1 & E2). injection E2 as <-.
    apply image_parse_obj_body in E1 as (? & ? & ? & ->). auto. }
  destruct (has_key "text" item).
  { intros E. apply bind_ok in E as (s & E1 & E2). injection E2 as <-.
    apply text_parse_obj_body in E1 as (? & ? & ->). auto. }
  destruct (has_key "code" item).
  { intros E. apply bind_ok in E as (s & E1 & E2). injection E2 as <-.
    apply code_parse_obj_body in E1 as (? & ? & ->). auto. }
  intros E. apply bind_ok in E as (vo & E1 & E2). injection E2 as <-. auto.
Qed.

Lemma traverse_read_entry (self : Script.t) (items : list dict)
    (es : list entry) :
  Slide.traverse (read_entry self) items = Ok es ->
  Forall2 (entry_of self) items es.
Proof.
  revert es; induction items as [|item items IH]; intros es; simpl.
  - intros [= <-]. constructor.
  - destruct (read_entry self item) as [e |] eqn:E; simpl; [| discriminate].
    destruct (Slide.traverse (read_entry self) items) as [es' |]; simpl;
      [| discriminate].
    intros [= <-]. constructor; [now apply read_entry_reserved | now apply IH].
Qed.


End Parser.

Section ParserClaims.

Context `{Pydantic} `{Host}.


Lemma getitem_unregistered (cs : list (string * Character.t)) (key : yaml) :
  registered cs key = false -> Script.getitem cs key = Raise (KeyError key).
Proof.
  destruct key; simpl; try reflexivity.
  induction cs as [|kv cs IH]; simpl; [reflexivity |].
  destruct (String.eqb (fst kv) s); simpl; [discriminate | exact IH].
Qed.

Lemma reserved_false (item : dict) :
  reserved item = false ->
  has_key "image" item = false /\ has_key "text" item = false
  /\ has_key "code" item = false.
Proof.
  unfold reserved. intros E.
  apply orb_false_elim in E as [E E3]. apply orb_false_elim in E as [E1 E2].
  auto.
Qed.

(** C5, as the code has it: the entry is reached after entries that parse
    and has no reserved key. If it is the empty mapping, parsing raises
    [IndexError]; if its first key is not the name of a declared character,
    parsing raises [KeyError] with that key; [main] raises the same
    exception. An entry with several keys is read as its first key and
    value alone; the other keys are ignored. *)
Theorem parse_slides_rejects (self : Script.t) (pre post : list dict)
    (item : dict) (st : Script.state) :
  Script.slides self = pre ++ item :: post ->
  for_each (Script.parse_item self) pre ([EmptySlide.init], 0%nat) = Ok st ->
  reserved item = false ->
  (item = [] ->
   Script.parse_slides self = Raise IndexError
   /\ forall output_path w, main self output_path w = Raise IndexError)
  /\ (forall key value more,
         item = (key, value) :: more ->
         registered (Script.characters self) key = false ->
         Script.parse_slides self = Raise (KeyError key)
         /\ forall output_path w, main self output_path w = Raise (KeyError key))
  /\ (forall key value more,
         item = (key, value) :: more ->
         Script.parse_item self st item
         = Script.parse_item self st [(key, value)]).
Proof.
  intros Hs Hpre R.
  destruct (reserved_false item R) as (R1 & R2 & R3).
  assert (P : Script.parse_slides self
              = bind (bind (Script.parse_item self st item)
                        (for_each (Script.parse_item self) post))
                  (fun s => Ok (fst s))).
  { unfold Script.parse_slides. rewrite Hs, for_each_app, Hpre. reflexivity. }
  split; [| split].
  - intros ->. assert (Q : Script.parse_slides self = Raise IndexError).
    { rewrite P. reflexivity. }
    split; [exact Q |]. intros output_path w. unfold main. now rewrite Q.
  - intros key value more -> U.
    assert (Q : Script.parse_slides self = Raise (KeyError key)).
    { rewrite P. unfold Script.parse_item. rewrite R1, R2, R3.
      rewrite (getitem_unregistered _ _ U). reflexivity. }
    split; [exact Q |]. intros output_path w. unfold main. now rewrite Q.
  - intros key value more ->. unfold Script.parse_item.
    rewrite R1, R2, R3.
    assert (K : forall name, has_key name ((key, value) :: more) = false ->
                             has_key name [(key, value)] = false).
    { intros name. unfold has_key. simpl.
      destruct (is_key name key); [discriminate | reflexivity]. }
    rewrite (K _ R1), (K _ R2), (K _ R3). reflexivity.
Qed.

End ParserClaims.


Lemma parse_slides_rejects_witness :
  Script.parse_slides (H := plain) stray_script = Raise (KeyError (YStr "Z")).
Proof.
  destruct (parse_slides_rejects (H := plain) (H0 := studio 0) stray_script
              [[(YStr "A", YStr "hi")]] [] [(YStr "Z", YStr "boo")]
              ([Slide.mk [demo_vo "hi"] None Slide.Empty], 0%nat))
    as (_ & U & _).
  - reflexivity.
  - vm_compute. reflexivity.
  - reflexivity.
  - destruct (U (YStr "Z") (YStr "boo") []) as [Q _];
      [reflexivity | reflexivity | exact Q].
Defined.

(** C5, as stated, fails: an entry with two keys, none of them reserved,
    is accepted; its second key is not even a declared character. *)
Lemma two_key_entry_is_accepted :
  Forall (fun item => reserved item = false /\ length item = 2%nat)
    (Script.slides two_key_script)
  /\ Script.parse_slides (H := plain) two_key_script
     = Ok [Slide.mk [demo_vo "hi"] None Slide.Empty].
Proof.
  split.
  - repeat constructor.
  - vm_compute. reflexivity.
Qed.

(** ** Image fitting *)

Section Fit.

Context `{Host}.
Local Open Scope Q_scope.

Lemma inject_Z_abs (z : Z) : Qabs (inject_Z z) == inject_Z (Z.abs z).
Proof. reflexivity. Qed.

Lemma inject_Z_pos (z : Z) : (0 < z)%Z -> 0 < inject_Z z.
Proof. intros P. change 0 with (inject_Z 0). now rewrite <- Zlt_Qlt. Qed.

Lemma int_bound (z : Z) (k : Z) :
  (0 <= k)%Z -> (Z.abs z <= 2 ^ k)%Z -> Qabs (inject_Z z) <= Float.pow2 k.
Proof.
  intros P B. rewrite inject_Z_abs, (pow2_Z k) by exact P.
  now rewrite <- Zle_Qle.
Qed.





(** A side set to the frame's is centred at the frame's origin. *)
Lemma centre_full (frame frame_size : Z) :
  (Z.abs frame <= 2 ^ 53)%Z ->
  ImageSlide.centre frame frame_size (Num.Int frame_size)
  = Ok (Num.Flt (Finite (inject_Z frame))).
Proof.
  intros B. unfold ImageSlide.centre.
  cbn [Num.sub Num.checked Num.minus Num.arith bind].
  rewrite Z.sub_diag.
  change (Num.mul (Num.Int 0) (Num.Flt (Float.of_Q 0.5)))
    with (Ok (Num.Flt (Finite 0)) : result Num.t).
  cbn [bind]. unfold Num.add, Num.checked. cbn [Num.fits andb].
  rewrite (of_int_exact frame B). cbn [is_ok].
  unfold Num.plus, Num.arith. rewrite (as_float_exact frame B).
  cbn [Num.as_float Float.add].
  assert (E : inject_Z frame + 0 == inject_Z frame) by ring.
  unfold Float.of_Q. rewrite (round_comp _ _ E).
  apply int_is_float, is_float_spec in B as [R O]. rewrite R.
  apply overflows_false in O. now rewrite O.
Qed.

(** A float side: the position is [centred], without overflow. *)
Lemma centre_float (frame frame_size : Z) (size : Q) :
  (Z.abs frame <= 2 ^ 53)%Z -> (Z.abs frame_size <= 2 ^ 53)%Z ->
  Qabs size <= Float.pow2 106 ->
  ImageSlide.centre frame frame_size (Num.Flt (Finite size))
  = Ok (Num.Flt (Finite (centred frame frame_size size))).
Proof.
  intros Bf Bs Bz.
  set (margin := Float.round (inject_Z frame_size - size)).
  set (half := Float.round (margin * (1 # 2))).
  pose proof (int_bound frame 53 ltac:(lia) Bf) as Fb.
  pose proof (int_bound frame_size 53 ltac:(lia) Bs) as Sb.
  pose proof (pow2_le 53 106 ltac:(lia)) as P1.
  assert (P2 : Float.pow2 107 == Float.pow2 106 + Float.pow2 106).
  { rewrite (pow2_add 106 1). change (Float.pow2 1) with 2. ring. }
  assert (P3 : Float.pow2 108 == Float.pow2 107 + Float.pow2 107).
  { rewrite (pow2_add 107 1). change (Float.pow2 1) with 2. ring. }
  pose proof (pow2_pos 106) as P0.
  apply Qabs_Qle_condition in Fb as [F0 F1].
  apply Qabs_Qle_condition in Sb as [S0 S1].
  apply Qabs_Qle_condition in Bz as [Z0 Z1].
  assert (M : Qabs margin <= Float.pow2 107).
  { apply round_bounded; [lia |]. apply Qabs_Qle_condition. lra. }
  assert (Hf : Qabs half <= Float.pow2 107).
  { apply round_bounded; [lia |].
    apply Qabs_Qle_condition in M as [M0 M1].
    apply Qabs_Qle_condition. lra. }
  assert (O1 : Float.overflows margin = false)
    by (apply (round_fits _ 107); [lia | apply Qabs_Qle_condition; lra]).
  assert (O2 : Float.overflows half = false).
  { apply (round_fits _ 107); [lia |].
    apply Qabs_Qle_condition in M as [M0 M1].
    apply Qabs_Qle_condition. lra. }
  assert (O3 : Float.overflows (centred frame frame_size size) = false).
  { apply (round_fits _ 108); [lia |]. fold margin half.
    apply Qabs_Qle_condition in Hf as [H0 H1].
    apply Qabs_Qle_condition. lra. }
  unfold ImageSlide.centre, Num.sub, Num.checked. cbn [Num.fits andb].
  rewrite (of_int_exact frame_size Bs). cbn [is_ok bind].
  unfold Num.minus, Num.arith. rewrite (as_float_exact frame_size Bs).
  cbn [Num.as_float Float.sub Float.opp Float.add].
  assert (E1 : inject_Z frame_size + - size == inject_Z frame_size - size)
    by ring.
  unfold Float.of_Q at 1. rewrite (round_comp _ _ E1). fold margin.
  rewrite O1.
  unfold Num.mul, Num.checked. cbn [Num.fits andb bind].
  unfold Num.times, Num.arith. cbn [Num.as_float].
  change (Float.of_Q 0.5) with (Finite (1 # 2)). cbn [Float.mul].
  unfold Float.of_Q at 1. fold half. rewrite O2.
  unfold Num.add, Num.checked. cbn [Num.fits andb].
  rewrite (of_int_exact frame Bf). cbn [is_ok].
  unfold Num.plus, Num.arith. rewrite (as_float_exact frame Bf).
  cbn [Num.as_float Float.add].
  unfold Float.of_Q.
  change (Float.round (inject_Z frame + half))
    with (centred frame frame_size size).
  now rewrite O3.
Qed.



(** [fit] on an image that opens. *)
Lemma fit_opened (fs : FS) (path : string) (iw ih fx fy fw fh : Z)
    (zoom_to_fit : bool) (zoom : option float) :
  Path.exists_ fs (resolve path) = true ->
  image_size (resolve path) = Some (iw, ih) ->
  ImageSlide.fit fs path fx fy fw fh zoom_to_fit zoom
  = (box <- ImageSlide.fit_box iw ih fx fy fw fh zoom_to_fit zoom ;;
     Ok (Clip.mk (ImageClip path) (Some (fst box)) (snd box) (Num.Int 0)
           None)).
Proof.
  intros E S. unfold ImageSlide.fit, ImageSlide.Image_open.
  rewrite E, S. reflexivity.
Qed.


(** C2, evaluated: for a frame of 400 by 300 and an image of 100 by 100
    with [zoom_to_fit], the code chooses the size 400 by 400.0, not 300 by
    300: the clip that [fit] returns is 100 higher than the frame and
    starts 50 above it. *)
Theorem fit_grow_overflows :
  ImageSlide.fit_size 100 100 400 300 true None
  = Ok (Num.Int 400, Num.Flt (Finite 400))
  /\ Num.ltb (Num.Int 300) (Num.Flt (Finite 400)) = true
  /\ (forall (fs : FS) (path : string) (fx fy : Z),
        Path.exists_ fs (resolve path) = true ->
        image_size (resolve path) = Some (100, 100)%Z ->
        (Z.abs fx <= 2 ^ 53)%Z -> (Z.abs fy <= 2 ^ 52)%Z ->
        exists clip,
          ImageSlide.fit fs path fx fy 400 300 true None = Ok clip
          /\ Clip.source clip = ImageClip path
          /\ Clip.size clip = Some (Num.Int 400, Num.Flt (Finite 400))
          /\ Clip.position clip
             = (Num.Flt (Finite (inject_Z fx)),
                Num.Flt (Finite (inject_Z (fy - 50))))).
Proof.
  split; [vm_compute; reflexivity |]. split; [vm_compute; reflexivity |].
  intros fs path fx fy E S Bx By.
  rewrite (fit_opened _ _ _ _ _ _ _ _ _ _ E S). unfold ImageSlide.fit_box.
  change (ImageSlide.fit_size 100 100 400 300 true None)
    with (Ok (Num.Int 400, Num.Flt (Finite 400)) : result (Num.t * Num.t)).
  cbn [bind fst snd].
  rewrite (centre_full fx 400 Bx). cbn [bind].
  rewrite (centre_float fy 300 400);
    [| lia | vm_compute; discriminate | vm_compute; discriminate].
  cbn [bind]. eexists. split; [reflexivity |].
  cbn [Clip.source Clip.size Clip.position fst snd].
  split; [reflexivity |]. split; [reflexivity |].
  do 3 f_equal. unfold centred.
  change (Float.round (Float.round (inject_Z 300 - 400) * (1 # 2)))
    with (inject_Z (-50)).
  assert (A : inject_Z fy + inject_Z (-50) == inject_Z (fy - 50))
    by (rewrite <- inject_Z_plus; reflexivity).
  rewrite (round_comp _ _ A). apply round_Z. lia.
Qed.

End Fit.


Lemma fit_grow_overflows_witness :
  exists clip,
    ImageSlide.fit (H := with_image_size (100, 100) (studio 0))
      (fs demo_world) "x.png" 36 0 400 300 true None = Ok clip
    /\ Clip.source clip = ImageClip "x.png"
    /\ Clip.size clip = Some (Num.Int 400, Num.Flt (Finite 400))
    /\ Clip.position clip = (Num.Flt (Finite 36), Num.Flt (Finite (-50))).
Proof.
  destruct (fit_grow_overflows (H := with_image_size (100, 100) (studio 0)))
    as (_ & _ & G).
  apply (G (fs demo_world) "x.png" 36 0)%Z;
    [vm_compute; reflexivity | reflexivity | vm_compute; discriminate
    | vm_compute; discriminate].
Defined.


(** ** The timeline compositor *)

Section Compositor.

Context `{Host}.
Local Open Scope Q_scope.

Lemma for_each_invariant {A S : Type} (body : S -> A -> result S)
    (I : S -> Prop) (l : list A) (s s' : S) :
  (forall s a s', body s a = Ok s' -> I s -> I s') ->
  for_each body l s = Ok s' -> I s -> I s'.
Proof.
  intros Step; revert s; induction l as [|a l IH]; intros s; simpl.
  - now intros [= <-].
  - destruct (body s a) as [s1 |] eqn:E; simpl; [| discriminate].
    intros E' Is. apply (IH s1 E'). now apply (Step s a).
Qed.

(** An addition that returns has the value of [plus]. *)
Lemma add_plus (a b s : Num.t) : Num.add a b = Ok s -> s = Num.plus a b.
Proof.
  unfold Num.add, Num.checked.
  destruct a, b; try destruct (_ && _); now intros [= <-].
Qed.


Lemma num_leb_trans (a b c : Num.t) :
  Num.leb a b = true -> Num.leb b c = true -> Num.leb a c = true.
Proof. apply float_leb_trans. Qed.

(** The floats met as cursors and durations: finite and not negative, or
    plus infinity. *)
Lemma cursor_float (f : float) :
  Float.is_duration f = true -> cursor_ok 0 (Num.Flt f).
Proof. destruct f; cbn; auto; discriminate. Qed.

Lemma cursor_weaken (B B' : Z) (n : Num.t) :
  (B <= B')%Z -> cursor_ok B n -> cursor_ok B' n.
Proof. destruct n as [z | f]; cbn; [lia | auto]. Qed.

Lemma cursor_nonneg (B : Z) (n : Num.t) : cursor_ok B n -> nonneg n.
Proof.
  unfold nonneg, Num.leb. destruct n as [z | [q | [] |]]; cbn; try tauto;
    try discriminate.
  - intros [P _]. apply Qle_bool_iff. change 0 with (inject_Z 0).
    rewrite <- Zle_Qle. exact P.
  - intros D. apply is_duration_spec in D as (_ & _ & P).
    now apply Qle_bool_iff.
Qed.

Lemma cursor_leb_refl (B : Z) (n : Num.t) :
  cursor_ok B n -> Num.leb n n = true.
Proof.
  intros C. apply float_leb_refl. destruct n as [z | [q | s |]]; cbn in *;
    try discriminate. contradiction.
Qed.

(** An [int] that is not negative converts to a float of the same kind. *)
Lemma as_float_nonneg (z : Z) :
  (0 <= z)%Z -> cursor_ok 0 (Num.Flt (Num.as_float (Num.Int z))).
Proof.
  intros P. cbn [Num.as_float].
  assert (Pq : 0 <= inject_Z z)
    by (change 0 with (inject_Z 0); now rewrite <- Zle_Qle).
  pose proof (round_nonneg _ Pq) as R.
  destruct (of_Q_cases (inject_Z z)) as [(r & -> & -> & F) | [-> _]]; cbn.
  - apply is_duration_spec. apply is_float_spec in F as [F1 F2]. auto.
  - now apply negative_false.
Qed.

Lemma good_add (f g : float) :
  cursor_ok 0 (Num.Flt f) -> cursor_ok 0 (Num.Flt g) ->
  cursor_ok 0 (Num.Flt (Float.add f g))
  /\ (Float.is_float f = true -> Float.leb f (Float.add f g) = true).
Proof.
  destruct f as [p | [] |], g as [q | [] |]; cbn [cursor_ok];
    try discriminate; try contradiction; intros Df Dg.
  - apply is_duration_spec in Df as (Rp & Op & Pp).
    apply is_duration_spec in Dg as (Rq & Oq & Pq).
    assert (P : 0 <= Float.round (p + q)) by (apply round_nonneg; lra).
    assert (M : p <= Float.round (p + q)).
    { rewrite <- Rp at 1. apply round_le. lra. }
    cbn [Float.add].
    destruct (of_Q_cases (p + q)) as [(r & -> & -> & F) | [-> _]].
    + split.
      * cbn. apply is_duration_spec. apply is_float_spec in F as [F1 F2]. auto.
      * intros _. cbn. now apply Qle_bool_iff.
    + rewrite (negative_false _ P). cbn. auto.
  - cbn. auto.
  - cbn. auto.
  - cbn. auto.
Qed.

Lemma cursor_flt (B : Z) (r : float) :
  cursor_ok 0 (Num.Flt r) -> cursor_ok B (Num.Flt r).
Proof. now destruct r. Qed.

Lemma cursor_is_float (B : Z) (p : Q) :
  cursor_ok B (Num.Flt (Finite p)) -> Float.is_float (Finite p) = true.
Proof.
  cbn [cursor_ok]. unfold Float.is_duration. intros C.
  now apply andb_true_iff in C as [C _].
Qed.

(** Adding a duration to the cursor. *)
Lemma cursor_plus (B M : Z) (a d : Num.t) :
  cursor_ok B a -> cursor_ok M d ->
  cursor_ok (B + M) (Num.plus a d)
  /\ ((B <= 2 ^ 53)%Z -> Num.leb a (Num.plus a d) = true).
Proof.
  intros Ca Cd. destruct a as [x | f], d as [y | g].
  - cbn in *. split; [lia |]. intros _. unfold Num.leb. cbn.
    apply Qle_bool_iff. rewrite <- Zle_Qle. lia.
  - cbn [cursor_ok] in Ca.
    pose proof (as_float_nonneg x (proj1 Ca)) as Gx.
    apply (cursor_flt 0) in Cd.
    destruct (good_add _ _ Gx Cd) as [G L]. split.
    + apply cursor_flt. exact G.
    + intros Bb.
      change (Float.leb (Finite (inject_Z x))
                (Float.add (Num.as_float (Num.Int x)) g) = true).
      rewrite (as_float_exact x) in * by lia.
      apply L. apply int_is_float. lia.
  - cbn [cursor_ok] in Cd.
    pose proof (as_float_nonneg y (proj1 Cd)) as Gy.
    apply (cursor_flt 0) in Ca.
    destruct (good_add _ _ Ca Gy) as [G L]. split.
    + apply cursor_flt. exact G.
    + intros _.
      change (Float.leb f (Float.add f (Num.as_float (Num.Int y))) = true).
      destruct f as [p | [] |]; try contradiction; try discriminate.
      * apply L. now apply (cursor_is_float 0).
      * now destruct (Num.as_float (Num.Int y)) as [| [] |].
  - apply (cursor_flt 0) in Ca. apply (cursor_flt 0) in Cd.
    destruct (good_add _ _ Ca Cd) as [G L]. split.
    + apply cursor_flt. exact G.
    + intros _. change (Float.leb f (Float.add f g) = true).
      destruct f as [p | [] |]; try contradiction; try discriminate.
      * apply L. now apply (cursor_is_float 0).
      * now destruct g as [| [] |].
Qed.

Lemma vo_duration_ok (vo : VoiceOver.t) : cursor_ok 0 (vo_duration vo).
Proof. apply cursor_float, audio_duration_ok. Qed.

Lemma vo_total_ok (B : Z) (a : Num.t) (vos : list VoiceOver.t) :
  cursor_ok B a -> cursor_ok B (vo_total a vos).
Proof.
  revert a; induction vos as [|vo vos IH]; intros a C; [exact C |].
  unfold vo_total. cbn [fold_left]. apply IH.
  destruct (cursor_plus B 0 a (vo_duration vo) C (vo_duration_ok vo)) as [G _].
  now rewrite Z.add_0_r in G.
Qed.

(** The inner loop emits one caption and one audio layer per voice-over and
    advances both counters by the playback lengths. *)
Lemma voice_over_loop (fs : FS) (vos : list VoiceOver.t)
    (vc ac : list Clip.t) (sd cs : Num.t)
    (r : list Clip.t * list Clip.t * Num.t * Num.t) :
  for_each (voice_over_step fs) vos (vc, ac, sd, cs) = Ok r ->
  r = (vc ++ captions_from cs vos, ac ++ audios_from cs vos,
       vo_total sd vos, vo_total cs vos).
Proof.
  revert vc ac sd cs; induction vos as [|vo vos IH]; intros vc ac sd cs;
    cbn [for_each].
  - intros [= <-]. cbn. now rewrite !app_nil_r.
  - intros E. apply bind_ok in E as ([[[vc1 ac1] sd1] cs1] & S & E).
    unfold voice_over_step in S. unfold VoiceOverClips.as_audio_clip in S.
    destruct (Path.exists_ fs (VoiceOver.get_filepath vo AUDIO_ROOT));
      cbn [bind] in S; [| discriminate].
    cbn [Clip.get_duration Clip.new Clip.duration bind] in S.
    apply bind_ok in S as (sd' & A1 & S). apply bind_ok in S as (cs' & A2 & S).
    apply add_plus in A1. apply add_plus in A2. subst sd' cs'.
    injection S as <- <- <- <-.
    apply IH in E. rewrite E. cbn [captions_from audios_from].
    unfold vo_total. cbn [fold_left]. unfold vo_duration.
    now rewrite <- !app_assoc.
Qed.







Lemma slide_step_ok (fs : FS) (tl tl' : Timeline) (slide : Slide.t) :
  slide_step fs tl slide = Ok tl' ->
  exists o,
    as_clip slide fs = Ok o
    /\ tl_video_clips tl'
       = (tl_video_clips tl
            ++ captions_from (last_clip_end tl) (Slide.voice_overs slide))
           ++ match o with
              | Some c =>
                  [Clip.set_start (Clip.set_duration c (floor_duration slide))
                     (last_clip_end tl)]
              | None => []
              end
    /\ tl_audio_clips tl'
       = tl_audio_clips tl
           ++ audios_from (last_clip_end tl) (Slide.voice_overs slide)
    /\ Num.add (last_clip_end tl) (floor_duration slide)
       = Ok (last_clip_end tl')
    /\ last_clip_end tl' = Num.plus (last_clip_end tl) (floor_duration slide).
Proof.
  unfold slide_step. intros E.
  apply bind_ok in E as ([[[vc ac] sd] cs] & L & E).
  apply voice_over_loop in L. injection L as -> -> -> ->.
  apply bind_ok in E as (o & A & E). apply bind_ok in E as (e & S & E).
  injection E as <-.
  exists o. cbn [tl_video_clips tl_audio_clips last_clip_end].
  fold (floor_duration slide) in S |- *.
  split; [exact A |].
  split; [destruct o; [reflexivity | now rewrite app_nil_r] |].
  split; [reflexivity |]. split; [exact S | now apply add_plus in S].
Qed.


End Compositor.

Section Layers.

Context `{Host}.
Local Open Scope Z_scope.

Lemma ltb_int_pos (B : Z) (n : Num.t) (m : Z) :
  cursor_ok B n -> Num.ltb n (Num.Int m) = true -> 0 < m.
Proof.
  unfold Num.ltb. destruct n as [z | [q | [] |]]; cbn; try contradiction;
    try discriminate.
  - intros [P _]. rewrite negb_true_iff, Qle_bool_false, <- Zlt_Qlt. lia.
  - intros D. apply is_duration_spec in D as (_ & _ & P).
    rewrite negb_true_iff, Qle_bool_false. intros L.
    rewrite Zlt_Qlt. change (inject_Z 0) with 0%Q. lra.
Qed.

Lemma floor_duration_ok (slide : Slide.t) :
  cursor_ok (declared_min slide) (floor_duration slide).
Proof.
  unfold floor_duration, declared_min.
  pose proof (vo_total_ok 0 (Num.Int 0) (Slide.voice_overs slide)
                ltac:(cbn; lia)) as T.
  destruct (Slide.min_duration slide) as [m |]; [| exact T].
  destruct (Num.ltb _ _) eqn:L.
  - apply (ltb_int_pos _ _ _ T) in L. cbn. lia.
  - apply (cursor_weaken 0); [lia | exact T].
Qed.

Lemma captions_ok (B : Z) (cs : Num.t) (vos : list VoiceOver.t) :
  cursor_ok B cs ->
  Forall (fun c => layer_ok c /\ is_spoken c = true) (captions_from cs vos).
Proof.
  revert cs; induction vos as [|vo vos IH]; intros cs C;
    cbn [captions_from]; constructor.
  - split; [| reflexivity]. exists (vo_duration vo).
    cbn [Clip.set_duration Clip.set_start Clip.duration Clip.start].
    split; [reflexivity |]. split; [now apply (cursor_nonneg B) |].
    apply (cursor_nonneg 0), vo_duration_ok.
  - apply IH.
    destruct (cursor_plus B 0 cs (vo_duration vo) C (vo_duration_ok vo))
      as [G _].
    now rewrite Z.add_0_r in G.
Qed.

Lemma audios_ok (B : Z) (cs : Num.t) (vos : list VoiceOver.t) :
  cursor_ok B cs ->
  Forall (fun c => layer_ok c /\ is_spoken c = true) (audios_from cs vos).
Proof.
  revert cs; induction vos as [|vo vos IH]; intros cs C;
    cbn [audios_from]; constructor.
  - split; [| reflexivity]. exists (vo_duration vo).
    cbn [Clip.new Clip.set_start Clip.duration Clip.start].
    split; [reflexivity |]. split; [now apply (cursor_nonneg B) |].
    apply (cursor_nonneg 0), vo_duration_ok.
  - apply IH.
    destruct (cursor_plus B 0 cs (vo_duration vo) C (vo_duration_ok vo))
      as [G _].
    now rewrite Z.add_0_r in G.
Qed.

Lemma ends_by_mono (total total' : Num.t) (c : Clip.t) :
  Num.leb total total' = true -> ends_by total c -> ends_by total' c.
Proof.
  intros L (d & e & D & A & B). exists d, e.
  split; [exact D |]. split; [exact A |]. now apply (num_leb_trans _ total).
Qed.

Lemma declared_min_nonneg (slide : Slide.t) : 0 <= declared_min slide.
Proof. unfold declared_min. destruct (Slide.min_duration slide); lia. Qed.

Lemma min_total_cons (slide : Slide.t) (slides : list Slide.t) :
  min_total (slide :: slides) = declared_min slide + min_total slides.
Proof. reflexivity. Qed.

Lemma min_total_nonneg (slides : list Slide.t) : 0 <= min_total slides.
Proof.
  induction slides as [|s l IH]; [cbn; lia |].
  rewrite min_total_cons. pose proof (declared_min_nonneg s). lia.
Qed.

Lemma slide_step_timeline_ok (fs : FS) (exact : Prop) (B : Z)
    (tl tl' : Timeline) (slide : Slide.t) :
  slide_step fs tl slide = Ok tl' ->
  (exact -> B <= 2 ^ 53) ->
  timeline_ok exact B tl -> timeline_ok exact (B + declared_min slide) tl'.
Proof.
  intros E Bound (C & V & A & I).
  apply slide_step_ok in E as (o & _ & Ev & Ea & Es & El).
  pose proof (floor_duration_ok slide) as D.
  destruct (cursor_plus _ _ _ _ C D) as [C' M]. rewrite <- El in C', M.
  pose proof (captions_ok B _ (Slide.voice_overs slide) C) as Cap.
  pose proof (audios_ok B _ (Slide.voice_overs slide) C) as Aud.
  unfold timeline_ok. split; [exact C' |]. rewrite Ev, Ea.
  split; [| split].
  - apply Forall_app. split; [apply Forall_app; split |].
    + exact V.
    + eapply List.Forall_impl; [| exact Cap]. now intros c [L _].
    + destruct o as [c |]; constructor; [| constructor].
      exists (floor_duration slide).
      cbn [Clip.set_duration Clip.set_start Clip.duration Clip.start].
      split; [reflexivity |].
      split; [now apply (cursor_nonneg B) | now apply (cursor_nonneg _ _ D)].
  - apply Forall_app. split; [exact A |].
    eapply List.Forall_impl; [| exact Aud]. now intros c [L _].
  - intros X. specialize (I X). specialize (Bound X).
    apply Forall_app. split; [apply Forall_app; split |].
    + eapply List.Forall_impl; [| exact I]. intros c G S.
      apply (ends_by_mono (last_clip_end tl)); [now apply M | now apply G].
    + eapply List.Forall_impl; [| exact Cap]. intros c [_ S] S'. congruence.
    + destruct o as [c |]; constructor; [| constructor].
      intros _. exists (floor_duration slide), (last_clip_end tl').
      cbn [Clip.set_duration Clip.set_start Clip.duration Clip.start].
      split; [reflexivity |]. split; [exact Es |].
      now apply (cursor_leb_refl (B + declared_min slide)).
Qed.

Lemma slide_loop_ok (fs : FS) (exact : Prop) (slides : list Slide.t) (B : Z)
    (tl tl' : Timeline) :
  for_each (slide_step fs) slides tl = Ok tl' ->
  (exact -> B + min_total slides <= 2 ^ 53) ->
  timeline_ok exact B tl -> timeline_ok exact (B + min_total slides) tl'.
Proof.
  revert B tl; induction slides as [|slide slides IH]; intros B tl.
  - cbn [for_each]. change (min_total []) with 0.
    intros [= <-] _ I. now rewrite Z.add_0_r.
  - cbn [for_each]. rewrite min_total_cons.
    intros E Bound I. apply bind_ok in E as (tl1 & S & E).
    pose proof (min_total_nonneg slides) as P.
    pose proof (declared_min_nonneg slide) as P'.
    replace (B + (declared_min slide + min_total slides))
      with (B + declared_min slide + min_total slides) by lia.
    apply (IH _ tl1 E).
    + intros X. specialize (Bound X). lia.
    + apply (slide_step_timeline_ok fs exact B tl tl1 slide S); [| exact I].
      intros X. specialize (Bound X). lia.
Qed.

Lemma fit_start (fs : FS) (image_path : string) (fx fy fw fh : Z)
    (zoom_to_fit : bool) (zoom : option float) (c : Clip.t) :
  ImageSlide.fit fs image_path fx fy fw fh zoom_to_fit zoom = Ok c ->
  Clip.start c = Num.Int 0 /\ Clip.duration c = None
  /\ Clip.source c = ImageClip image_path.
Proof.
  unfold ImageSlide.fit. intros E.
  apply bind_ok in E as (sz & _ & E). apply bind_ok in E as (box & _ & E).
  injection E as <-. auto.
Qed.

(** A layer that starts at 0 and lasts the whole video. *)
Lemma whole_video_layer (B : Z) (total : Num.t) (c : Clip.t) :
  cursor_ok B total -> Clip.start c = Num.Int 0 ->
  let c' := Clip.set_duration c total in
  layer_ok c' /\ ends_by total c'.
Proof.
  intros C S c'. split.
  - exists total. cbn [c' Clip.set_duration Clip.duration Clip.start].
    rewrite S. split; [reflexivity |].
    split; [reflexivity | now apply (cursor_nonneg B)].
  - exists total, total. cbn [c' Clip.set_duration Clip.duration Clip.start].
    rewrite S. split; [reflexivity |].
    split; [| now apply (cursor_leb_refl B)].
    destruct total as [z | [q | [] |]]; cbn in C; try contradiction;
      try discriminate.
    + reflexivity.
    + unfold Num.add, Num.checked. cbn [Num.fits andb].
      change (is_ok (Float.of_int 0)) with true. cbn iota.
      unfold Num.plus, Num.arith. cbn [Num.as_float].
      change (Float.of_Q (inject_Z 0)) with (Finite 0). cbn [Float.add].
      assert (E : (0 + q == q)%Q) by ring.
      unfold Float.of_Q. rewrite (round_comp _ _ E).
      apply is_duration_spec in C as (R & O & _). rewrite R.
      apply overflows_false in O. now rewrite O.
    + reflexivity.
Qed.

Lemma portraits_ok (fs : FS) (P : Clip.t -> Prop) (total : Num.t)
    (cs : list (string * Character.t)) (vc vc' : list Clip.t) :
  (forall c, Clip.start c = Num.Int 0 -> P (Clip.set_duration c total)) ->
  for_each (portrait_step fs total) cs vc = Ok vc' ->
  Forall P vc -> Forall P vc'.
Proof.
  intros W. apply for_each_invariant. clear vc vc'.
  intros vc ch vc' E V. unfold portrait_step in E.
  apply bind_ok in E as (c & F & E). injection E as <-.
  apply Forall_app. split; [exact V |]. constructor; [| constructor].
  destruct (fit_start _ _ _ _ _ _ _ _ _ F) as (S & _ & _). now apply W.
Qed.

Lemma compose_inv (fs : FS) (script : Script.t) (slides : list Slide.t)
    (video : Video) :
  compose fs script slides = Ok video ->
  exists tl,
    for_each (slide_step fs) slides (mkTimeline [] [] (Num.Int 0)) = Ok tl
    /\ for_each (portrait_step fs (last_clip_end tl))
         (Script.characters script)
         (background (last_clip_end tl) :: tl_video_clips tl)
       = Ok (video_clips video)
    /\ audio_clips video = tl_audio_clips tl
    /\ tl_audio_clips tl <> []
    /\ video_duration video = last_clip_end tl.
Proof.
  unfold compose. intros E.
  apply bind_ok in E as (tl & L & E). apply bind_ok in E as (vc & P & E).
  apply bind_ok in E as (ac & A & E). injection E as <-.
  exists tl. cbn [video_clips audio_clips video_duration].
  unfold CompositeAudioClip in A.
  destruct (tl_audio_clips tl) as [|a l]; [discriminate |].
  injection A as <-. auto.
Qed.

Lemma compose_layers_ok (fs : FS) (script : Script.t)
    (slides : list Slide.t) (video : Video) :
  compose fs script slides = Ok video ->
  nonneg (video_duration video)
  /\ Forall layer_ok (video_clips video)
  /\ Forall layer_ok (audio_clips video)
  /\ (min_total slides <= 2 ^ 53 ->
      Forall (fun c => is_spoken c = false ->
                       ends_by (video_duration video) c)
        (video_clips video)).
Proof.
  intros E. apply compose_inv in E as (tl & L & Pt & -> & _ & ->).
  destruct (slide_loop_ok fs (min_total slides <= 2 ^ 53) slides 0 _ tl L)
    as (C & V & A & I).
  - intros X. lia.
  - unfold timeline_ok. cbn. repeat split; try constructor; lia.
  - rewrite Z.add_0_l in *.
    destruct (whole_video_layer _ _
                (Clip.set_position
                   (Clip.new (ColorClip (0, 0, 0)
                                (Anchors.caption_frame_width,
                                 Anchors.caption_frame_height)) None)
                   (point Anchors.caption_frame_left
                      Anchors.caption_frame_top)) C eq_refl) as [Bl Be].
    fold (background (last_clip_end tl)) in Bl, Be.
    split; [now apply (cursor_nonneg (min_total slides)) |].
    split; [| split; [exact A |]].
    + apply (portraits_ok _ _ _ _ _ _ (fun c S =>
               proj1 (whole_video_layer _ _ c C S)) Pt).
      now constructor.
    + intros Bound. specialize (I Bound).
      apply (portraits_ok _ _ _ _ _ _ (fun c S _ =>
               proj2 (whole_video_layer _ _ c C S)) Pt).
      constructor; auto.
Qed.

End Layers.

Section CompositorClaims.

Context `{Pydantic} `{Host}.




Lemma generate_audio_written (slides : list Slide.t) (w : World) :
  written (generate_audio slides w) = written w.
Proof.
  unfold generate_audio.
  destruct (String.eqb _ EmptyString); reflexivity.
Qed.

Lemma main_inv (script : Script.t) (output_path : string) (w w' : World) :
  main script output_path w = Ok w' ->
  exists slides fs1 video,
    Script.parse_slides script = Ok slides
    /\ prepared slides w = Ok fs1
    /\ fst (make fs1) = 0
    /\ compose (snd (make fs1)) script slides = Ok video
    /\ w' = mkWorld (Path.create (snd (make fs1)) output_path)
              (ran (generate_audio slides w) ++ [Run ["make"] None])
              (written (generate_audio slides w) ++ [(output_path, video)]).
Proof.
  unfold main. intros E. apply bind_ok in E as (slides & P & E).
  apply bind_ok in E as (fs1 & Pr & E).
  destruct (Z.eqb_spec (fst (make fs1)) 0) as [Z0 | N]; cbn [negb] in E;
    [| discriminate].
  apply bind_ok in E as (video & C & E). injection E as <-.
  exists slides, fs1, video. cbn [fs ran written] in *. auto.
Qed.

(** C8, as the code has it: in the video that [main] writes every layer
    has a duration, starts at or after 0 and lasts 0 or more (not: more
    than 0); the total duration, the cursor after the last slide, is not
    negative; when the declared [min_duration]s add up to no more than
    [2^53], every layer that is not of a voice-over (the slide visuals,
    the background, the portraits) ends at or before the total duration.
    Nothing is said of the end of a caption or audio layer. *)
Theorem layers_inside_timeline (script : Script.t) (output_path : string)
    (w w' : World) :
  main script output_path w = Ok w' ->
  exists slides video,
    Script.parse_slides script = Ok slides
    /\ written w' = written w ++ [(output_path, video)]
    /\ nonneg (video_duration video)
    /\ Forall layer_ok (video_clips video)
    /\ Forall layer_ok (audio_clips video)
    /\ (min_total slides <= 2 ^ 53 ->
        Forall (fun c => is_spoken c = false ->
                         ends_by (video_duration video) c)
          (video_clips video)).
Proof.
  intros E. apply main_inv in E as (slides & fs1 & video & P & _ & _ & C & ->).
  exists slides, video. split; [exact P |].
  split; [cbn; now rewrite generate_audio_written |].
  now apply compose_layers_ok in C.
Qed.

End CompositorClaims.


Lemma layers_inside_timeline_witness :
  exists w' video,
    main (H := plain) (H0 := studio 0) demo_script "out.mp4" demo_world = Ok w'
    /\ written w' = written demo_world ++ [("out.mp4", video)]
    /\ Forall layer_ok (video_clips video)
    /\ Forall layer_ok (audio_clips video)
    /\ Forall (fun c => is_spoken c = false ->
                        ends_by (video_duration video) c)
         (video_clips video).
Proof.
  assert (K : is_ok (main (H := plain) (H0 := studio 0) demo_script
                       "out.mp4" demo_world) = true)
    by (vm_compute; reflexivity).
  apply is_ok_inv in K as [w' M].
  destruct (layers_inside_timeline (H := plain) (H0 := studio 0)
              demo_script "out.mp4" demo_world w' M)
    as (slides & video & P & W & _ & V & A & I).
  exists w', video.
  assert (D : Script.parse_slides (H := plain) demo_script = Ok demo_slides)
    by (vm_compute; reflexivity).
  rewrite D in P. injection P as <-.
  exact (conj M (conj W (conj V (conj A (I ltac:(vm_compute; discriminate)))))).
Defined.


(** Against C8 as stated. A slide without voice-over and without
    [min_duration] gives its image a layer of duration 0. With three
    voice-overs of 0.15 on each of two slides the last audio layer ends at
    0.9 while the total duration is 0.8999999999999999: the cursor of the
    captions and the duration of the slide are rounded separately. And a
    [min_duration] beyond 2^53 is lost when the cursor becomes a float: the
    image of a slide that lasts 2^53 + 1 ends after the total duration,
    2^53. *)
Lemma timeline_invariant_fails :
  (exists video visual,
      (w' <- main (H := plain) (H0 := studio 0) idle_script "out.mp4"
               demo_world ;;
       Ok (written w')) = Ok [("out.mp4", video)]
      /\ In visual (video_clips video)
      /\ Clip.source visual = ImageClip "x.png"
      /\ Clip.duration visual = Some (Num.Int 0)
      /\ Num.ltb (Num.Int 0) (Num.Int 0) = false)
  /\ (exists video audio d,
         (w' <- main (H := plain) (H0 := brisk) drift_script "out.mp4"
                  demo_world ;;
          Ok (written w')) = Ok [("out.mp4", video)]
         /\ In audio (audio_clips video)
         /\ Clip.duration audio = Some d
         /\ Num.add (Clip.start audio) d = Ok (Num.Flt (Float.of_Q 0.9))
         /\ video_duration video
            = Num.Flt (Finite (2026619832316723 # 2251799813685248))
         /\ Num.leb (Num.Flt (Float.of_Q 0.9)) (video_duration video) = false)
  /\ (exists video visual d,
         (w' <- main (H := plain) (H0 := brisk) far_script "out.mp4"
                  demo_world ;;
          Ok (written w')) = Ok [("out.mp4", video)]
         /\ In visual (video_clips video)
         /\ is_spoken visual = false
         /\ Clip.duration visual = Some d
         /\ Num.add (Clip.start visual) d = Ok (Num.Int (2 ^ 53 + 1))
         /\ video_duration video = Num.Flt (Finite (inject_Z (2 ^ 53)))
         /\ Num.leb (Num.Int (2 ^ 53 + 1)) (video_duration video) = false).
Proof.
  split; [| split].
  - do 2 eexists. split; [vm_compute; reflexivity |].
    split; [do 2 right; left; reflexivity |].
    split; [reflexivity |].
    split; reflexivity.
  - do 3 eexists. split; [vm_compute; reflexivity |].
    split; [do 5 right; left; reflexivity |].
    split; [reflexivity |].
    split; [vm_compute; reflexivity |].
    split; [reflexivity |]. vm_compute. reflexivity.
  - do 3 eexists. split; [vm_compute; reflexivity |].
    split; [right; left; reflexivity |].
    split; [reflexivity |].
    split; [reflexivity |].
    split; [vm_compute; reflexivity |].
    split; [reflexivity |]. vm_compute. reflexivity.
Qed.
(** ** The synthesis request *)

Section Requests.

Context `{Host}.

Lemma writerow_new (w : Csv.writer) (row : list string) :
  Csv.writerow w row = w +:+ Csv.writerow Csv.new row.
Proof. unfold Csv.writerow, Csv.new. simpl. reflexivity. Qed.

Lemma write_audio_request_row (vo : VoiceOver.t) (fs : FS) (w : Csv.writer) :
  VoiceOver.write_audio_request vo fs w AUDIO_ROOT
  = if cache_miss fs vo then w +:+ request_row vo else w.
Proof.
  unfold VoiceOver.write_audio_request, cache_miss, request_row.
  destruct (Path.exists_ fs _); simpl; [reflexivity | apply writerow_new].
Qed.

Lemma concat_rows_app (a b : list string) :
  concat_rows (a ++ b) = concat_rows a +:+ concat_rows b.
Proof.
  induction a as [|r a IH]; simpl; [reflexivity |].
  now rewrite IH, app_assoc_s.
Qed.

Lemma voice_over_requests (fs : FS) (vos : list VoiceOver.t) (w : Csv.writer) :
  fold_left (fun writer voice_over =>
               VoiceOver.write_audio_request voice_over fs writer AUDIO_ROOT)
    vos w
  = w +:+ concat_rows (map request_row (List.filter (cache_miss fs) vos)).
Proof.
  revert w; induction vos as [|vo vos IH]; intros w;
    cbn [fold_left List.filter].
  - cbn [map concat_rows]. now rewrite app_nil_r_s.
  - rewrite IH, write_audio_request_row.
    destruct (cache_miss fs vo); cbn [map concat_rows]; [| reflexivity].
    now rewrite app_assoc_s.
Qed.

Lemma filter_app_b {A : Type} (f : A -> bool) (a b : list A) :
  List.filter f (a ++ b) = List.filter f a ++ List.filter f b.
Proof.
  induction a as [|x a IH]; cbn [List.filter app]; [reflexivity |].
  destruct (f x); cbn [app]; now rewrite IH.
Qed.

Lemma slide_requests (fs : FS) (slides : list Slide.t) (w : Csv.writer) :
  fold_left
    (fun writer slide =>
       fold_left
         (fun writer voice_over =>
            VoiceOver.write_audio_request voice_over fs writer AUDIO_ROOT)
         (Slide.voice_overs slide) writer)
    slides w
  = w +:+ concat_rows
            (map request_row
               (List.filter (cache_miss fs) (all_voice_overs slides))).
Proof.
  unfold all_voice_overs.
  revert w; induction slides as [|slide slides IH]; intros w;
    cbn [fold_left flat_map].
  - cbn [List.filter map concat_rows]. now rewrite app_nil_r_s.
  - rewrite IH, voice_over_requests, filter_app_b, map_app, concat_rows_app.
    now rewrite app_assoc_s.
Qed.

Lemma audio_requests_rows (fs : FS) (slides : list Slide.t) :
  audio_requests fs slides
  = concat_rows
      (map request_row (List.filter (cache_miss fs) (all_voice_overs slides))).
Proof.
  unfold audio_requests, Csv.getvalue. rewrite slide_requests. reflexivity.
Qed.

Lemma request_row_length (vo : VoiceOver.t) :
  (0 < String.length (request_row vo))%nat.
Proof.
  unfold request_row, Csv.writerow. rewrite !length_app_s.
  unfold Csv.lineterminator. cbn [String.length]. lia.
Qed.

Lemma concat_rows_empty (vos : list VoiceOver.t) :
  String.eqb (concat_rows (map request_row vos)) EmptyString
  = match vos with [] => true | _ => false end.
Proof.
  destruct vos as [|vo vos]; [reflexivity |].
  apply String.eqb_neq. cbn [map concat_rows]. intros E.
  apply (f_equal String.length) in E. rewrite length_app_s in E.
  pose proof (request_row_length vo). cbn [String.length] in E. lia.
Qed.

(** Creating the audio directory does not create an audio file. *)
Lemma cache_miss_mkdir (fs : FS) (vo : VoiceOver.t) :
  cache_miss (Path.mkdir fs AUDIO_ROOT) vo = cache_miss fs vo.
Proof.
  unfold cache_miss, Path.exists_, Path.mkdir. f_equal.
  apply bool_decide_ext. rewrite lookup_insert_ne; [reflexivity |].
  unfold VoiceOver.get_filepath, Path.div. intros E.
  apply (f_equal String.length) in E. rewrite !length_app_s in E.
  cbn [String.length] in E. lia.
Qed.

Lemma filter_ext_b {A : Type} (f g : A -> bool) (l : list A) :
  (forall a, f a = g a) -> List.filter f l = List.filter g l.
Proof.
  intros E. induction l as [|x l IH]; cbn [List.filter]; [reflexivity |].
  now rewrite E, IH.
Qed.

Lemma be_bytes_range (count : nat) (x : Z) :
  Forall (fun b => 0 <= b < 256) (Sha1.be_bytes count x).
Proof.
  revert x; induction count as [|count IH]; intros x; cbn [Sha1.be_bytes].
  - constructor.
  - apply Forall_app. split; [apply IH |].
    constructor; [| constructor]. apply Z.mod_pos_bound. lia.
Qed.

Lemma digest_range (msg : list Z) :
  Forall (fun b => 0 <= b < 256) (Sha1.digest msg).
Proof.
  unfold Sha1.digest.
  destruct (fold_left Sha1.compress _ Sha1.init) as [[[[h0 h1] h2] h3] h4].
  do 4 (apply Forall_app; split; [apply be_bytes_range |]).
  apply be_bytes_range.
Qed.

Lemma hex_digit_plain (n : Z) :
  0 <= n < 16 ->
  Ascii.eqb Csv.delimiter (Sha1.hex_digit n) = false
  /\ Ascii.eqb Csv.quotechar (Sha1.hex_digit n) = false
  /\ Ascii.eqb Py.CR (Sha1.hex_digit n) = false
  /\ Ascii.eqb Py.LF (Sha1.hex_digit n) = false.
Proof.
  intros [L U]. destruct n as [|p|p]; [repeat split | | lia].
  do 4 (destruct p as [p|p|]; try (repeat split; fail); try lia).
Qed.

(** A hexadecimal digest is written to the request as it is. *)
Lemma quote_hex (l : list Z) :
  Forall (fun b => 0 <= b < 256) l -> Csv.needs_quotes (Sha1.hex l) = false.
Proof.
  unfold Csv.needs_quotes. induction 1 as [|b l R F IH]; [reflexivity |].
  cbn [Sha1.hex Py.contains].
  assert (R1 : 0 <= b / 16 < 16).
  { split; [apply Z.div_pos; lia | apply Z.div_lt_upper_bound; lia]. }
  assert (R2 : 0 <= b mod 16 < 16) by (apply Z.mod_pos_bound; lia).
  destruct (hex_digit_plain _ R1) as (-> & -> & -> & ->).
  destruct (hex_digit_plain _ R2) as (-> & -> & -> & ->).
  exact IH.
Qed.

Lemma quote_filename_base (vo : VoiceOver.t) :
  Csv.quote (VoiceOver.filename_base vo) = VoiceOver.filename_base vo.
Proof.
  unfold Csv.quote. rewrite filename_base_digest. unfold Sha1.hexdigest.
  now rewrite (quote_hex _ (digest_range _)).
Qed.

(** C7: the request of [generate_audio] holds one row per voice-over whose
    audio file does not exist, in the order of the script, and nothing
    else; [write_audio_request] adds the row of a voice-over exactly when
    its file is missing; a row starts with the cache key, unquoted, which
    is also the stem of the audio file; [mimic3] is run once with that
    request when a file is missing, and not at all when none is. *)
Theorem audio_request_is_cache_misses (slides : list Slide.t) (w : World) :
  let missing := List.filter (cache_miss (fs w)) (all_voice_overs slides) in
  let request := concat_rows (map request_row missing) in
  (forall vo,
      request_row vo
      = VoiceOver.filename_base vo +:+ "|" +:+ Csv.quote (VoiceOver.voice vo)
          +:+ "|" +:+ Csv.quote (VoiceOver.saml_text vo)
          +:+ Csv.lineterminator
      /\ VoiceOver.get_filepath vo AUDIO_ROOT
         = Path.div AUDIO_ROOT (VoiceOver.filename_base vo +:+ ".wav"))
  /\ (forall vo writer,
         VoiceOver.write_audio_request vo (fs w) writer AUDIO_ROOT
         = if cache_miss (fs w) vo then writer +:+ request_row vo else writer)
  /\ ran (generate_audio slides w)
     = ran w ++ match missing with
                | [] => []
                | _ :: _ => [Run mimic3_argv (Some request)]
                end.
Proof.
  intros missing request. split; [| split].
  - intros vo. split; [| reflexivity].
    unfold request_row, Csv.writerow, Csv.new.
    cbn [map Csv.join String.append].
    rewrite quote_filename_base.
    repeat (rewrite app_assoc_s; cbn [String.append]). reflexivity.
  - intros vo writer. apply write_audio_request_row.
  - unfold generate_audio.
    assert (E : forall fs1,
               (forall vo, cache_miss fs1 vo = cache_miss (fs w) vo) ->
               audio_requests fs1 slides = request).
    { intros fs1 Efs. rewrite audio_requests_rows.
      now rewrite (filter_ext_b _ _ _ Efs). }
    assert (R : audio_requests
                  (if negb (Path.exists_ (fs w) AUDIO_ROOT)
                   then Path.mkdir (fs w) AUDIO_ROOT else fs w) slides
                = request).
    { apply E. intros vo. destruct (negb _);
        [apply cache_miss_mkdir | reflexivity]. }
    rewrite R. unfold request. rewrite concat_rows_empty.
    fold missing. destruct missing; cbn [ran]; [now rewrite app_nil_r |].
    reflexivity.
Qed.

End Requests.

(** ** The exit status of the synthesis backend *)

(** The exit status of [mimic3] has no influence on [main]. *)
Lemma main_ignores_mimic3_status `{Pydantic} (h : Host) (f : Z -> Z)
    (script : Script.t) (output_path : string) (w : World) :
  main (H0 := with_mimic3_status f h) script output_path w
  = main (H0 := h) script output_path w.
Proof. reflexivity. Qed.

(** C4, evaluated: [mimic3] exits with status 1 on the request of
    [demo_script]; [main] runs [make] next, composes and writes the video. *)
Theorem failed_synthesis_goes_unnoticed :
  exists request video,
    fst (mimic3 (Host := studio 1) request
           (Path.mkdir (fs demo_world) (AUDIO_ROOT (H := studio 1)))) = 1
    /\ (w' <- main (H := plain) (H0 := studio 1) demo_script "out.mp4"
                demo_world ;;
        Ok (ran w', written w'))
       = Ok ([ Run (mimic3_argv (H := studio 1)) (Some request);
               Run ["make"] None ],
             [("out.mp4", video)]).
Proof.
  do 2 eexists. split; [reflexivity |].
  vm_compute. reflexivity.
Qed.

(** ** Running the definitions *)

Example sha1_empty :
  Sha1.hexdigest (Py.encode_utf8 EmptyString)
  = "da39a3ee5e6b4b0d3255bfef95601890afd80709".
Proof. vm_compute. reflexivity. Qed.

Example sha1_abc :
  Sha1.hexdigest (Py.encode_utf8 "abc")
  = "a9993e364706816aba3e25717850c26c9cd0d89d".
Proof. vm_compute. reflexivity. Qed.

Example sha1_two_blocks :
  Sha1.hexdigest
    (Py.encode_utf8 "abcdbcdecdefdefgefghfghighijhijkijkljklmklmnlmnomnopnopq")
  = "84983e441c3bd26ebaae4aa1f95129e5e54670f1".
Proof. vm_compute. reflexivity. Qed.

Example strip_unicode_space :
  Py.strip (Py.bytes [32; 9; 194; 160; 104; 105; 32; 33; 226; 128; 131; 10])
  = "hi !".
Proof. vm_compute. reflexivity. Qed.

Example escape_ampersand_first : Py.escape "a<b & c>d" = "a&lt;b &amp; c&gt;d".
Proof. vm_compute. reflexivity. Qed.

Example csv_row_quoted :
  Csv.writerow Csv.new ["k"; "v"; "a|b"]
  = "k|v|" +:+ String Csv.quotechar "a|b" +:+ String Csv.quotechar Csv.lineterminator.
Proof. vm_compute. reflexivity. Qed.

Example demo_cache_key :
  VoiceOver.filename_base (demo_vo "hi")
  = "6655e1b5bfe68e03ca59b7c0160bb78bd3b29ba7".
Proof. vm_compute. reflexivity. Qed.

Example demo_parse :
  Script.parse_slides (H := plain) demo_script = Ok demo_slides.
Proof. vm_compute. reflexivity. Qed.

Example anchors_values :
  (Anchors.slide_left, Anchors.slide_top, Anchors.slide_width,
   Anchors.slide_height) = (36, 0, 648, 384)
  /\ (Anchors.caption_left, Anchors.caption_top, Anchors.caption_width,
      Anchors.caption_height) = (72, 394, 576, 76)
  /\ (Anchors.left_character_left, Anchors.left_character_top,
      Anchors.left_character_width, Anchors.left_character_height)
     = (0, 288, 96, 96).
Proof. repeat split. Qed.

Example anchors_products :
  Anchors.scaled 480 0.8 = Num.Flt (Finite 384)
  /\ Anchors.scaled 720 0.05 = Num.Flt (Finite 36)
  /\ Anchors.scaled 720 0.1 = Num.Flt (Finite 72)
  /\ Anchors.scaled 480 0.2 = Num.Flt (Finite 96).
Proof. vm_compute. repeat split. Qed.

(** 0.1 + 0.2 is 0.30000000000000004. *)
Example float_sum_rounds :
  Float.add (Float.of_Q 0.1) (Float.of_Q 0.2)
  = Finite (1351079888211149 # 4503599627370496)
  /\ Float.of_Q 0.3 = Finite (5404319552844595 # 18014398509481984).
Proof. vm_compute. split; reflexivity. Qed.

Example float_limits :
  Float.of_Q (Float.pow2 1024) = Inf false
  /\ Float.of_Q (Float.pow2 1024 - Float.pow2 970) = Inf false
  /\ Float.of_Q (Float.pow2 1024 - Float.pow2 971)
     = Finite (Qred (Float.pow2 1024 - Float.pow2 971))
  /\ Float.of_Q (Float.pow2 (-1075)) = Finite 0
  /\ Float.of_Q (3 * Float.pow2 (-1075)) = Finite (Qred (Float.pow2 (-1073)))
  /\ Float.of_int (2 ^ 53 + 1) = Ok (Finite (inject_Z (2 ^ 53)))
  /\ Float.of_int (2 ^ 1024) = Raise OverflowError.
Proof. vm_compute. repeat split. Qed.

(** The arithmetic of [Float] and the processor's agree on the numbers of
    the examples: the literals, the products of [Anchors], the sums of
    playback lengths, the quotients and the margins of [fit]. *)
Example hardware_literals :
  let lit a b := PrimFloat.div (Hardware.of_Z a) (Hardware.of_Z b) in
  Hardware.value (lit 15 100) = Float.of_Q 0.15
  /\ Hardware.value (lit 8 10) = Float.of_Q 0.8
  /\ Hardware.value (lit 5 100) = Float.of_Q 0.05
  /\ Hardware.value (lit 1 10) = Float.of_Q 0.1
  /\ Hardware.value (lit 2 10) = Float.of_Q 0.2
  /\ Hardware.value (PrimFloat.mul (Hardware.of_Z 480) (lit 8 10))
     = Num.as_float (Anchors.scaled 480 0.8)
  /\ Hardware.value (PrimFloat.mul (Hardware.of_Z 720) (lit 5 100))
     = Num.as_float (Anchors.scaled 720 0.05)
  /\ Hardware.value (PrimFloat.mul (Hardware.of_Z 720) (lit 1 10))
     = Num.as_float (Anchors.scaled 720 0.1)
  /\ Hardware.value (PrimFloat.mul (Hardware.of_Z 480) (lit 2 10))
     = Num.as_float (Anchors.scaled 480 0.2).
Proof. vm_compute. repeat split. Qed.

Example hardware_sums :
  let d := PrimFloat.div (Hardware.of_Z 15) (Hardware.of_Z 100) in
  let slide := PrimFloat.add (PrimFloat.add d d) d in
  let late := PrimFloat.add (PrimFloat.add (PrimFloat.add slide d) d) d in
  let d' := Float.of_Q 0.15 in
  let slide' := Float.add (Float.add d' d') d' in
  let late' := Float.add (Float.add (Float.add slide' d') d') d' in
  Hardware.value (PrimFloat.add slide slide) = Float.add slide' slide'
  /\ Float.add slide' slide' = Finite (2026619832316723 # 2251799813685248)
  /\ Hardware.value late = late'
  /\ late' = Float.of_Q 0.9.
Proof. vm_compute. repeat split. Qed.

Example hardware_fit :
  let width := PrimFloat.div (Hardware.of_Z (384 * 1000)) (Hardware.of_Z 700) in
  let margin :=
    PrimFloat.mul (PrimFloat.sub (Hardware.of_Z 648) width)
      (PrimFloat.div (Hardware.of_Z 1) (Hardware.of_Z 2)) in
  Ok (Hardware.value width) = Float.truediv (384 * 1000) 700
  /\ Hardware.value width = Finite (scaled 384 1000 700)
  /\ Hardware.value (PrimFloat.add (Hardware.of_Z 36) margin)
     = Finite (centred 36 648 (scaled 384 1000 700))
  /\ Ok (Hardware.value
           (PrimFloat.div (Hardware.of_Z 101862011) (Hardware.of_Z 39322253)))
     = Float.truediv 101862011 39322253
  /\ Float.truediv 101862011 39322253 = Float.truediv 162306470 62655901
  /\ Ok (Hardware.value
           (PrimFloat.div (Hardware.of_Z (62655901 * 101862011))
              (Hardware.of_Z 162306470)))
     = Float.truediv (62655901 * 101862011) 162306470.
Proof. vm_compute. repeat split. Qed.

(** [prepare] writes the snippet of a code slide into the codes directory,
    which it does not create. *)
Example prepare_needs_directory :
  let snippet := CodeSlide.get_filepath "print(1)" "py" "/app/codes" in
  CodeSlide.prepare (H := studio 0) "print(1)" "py" demo_fs
  = Raise (FileNotFoundError snippet)
  /\ (fs' <- CodeSlide.prepare (H := studio 0) "print(1)" "py"
               (Path.mkdir demo_fs "/app/codes") ;;
      Ok (Path.is_file fs' snippet, Path.is_file demo_fs snippet))
     = Ok (true, false).
Proof. vm_compute. split; reflexivity. Qed.

(** * Further properties *)

(** ** Cache keys *)

Section CacheKeys.

Lemma contains_app (c : ascii) (a b : string) :
  Py.contains c (a +:+ b) = Py.contains c a || Py.contains c b.
Proof.
  induction a as [|x a IH]; cbn [String.append Py.contains]; [reflexivity |].
  rewrite IH. now rewrite orb_assoc.
Qed.

(** A text is cut in one way only at the first occurrence of a character. *)
Lemma split_first (c : ascii) (a a' r r' : string) :
  Py.contains c a = false -> Py.contains c a' = false ->
  a +:+ String c r = a' +:+ String c r' -> a = a' /\ r = r'.
Proof.
  revert a'; induction a as [|x a IH]; intros [|y a'];
    cbn [String.append Py.contains]; intros Ca Ca' E.
  - injection E as ->. auto.
  - injection E as <- _. rewrite Ascii.eqb_refl in Ca'. discriminate.
  - injection E as -> _. rewrite Ascii.eqb_refl in Ca. discriminate.
  - injection E as -> E.
    apply orb_false_elim in Ca as [_ Ca]. apply orb_false_elim in Ca' as [_ Ca'].
    destruct (IH a' Ca Ca' E) as [-> ->]. auto.
Qed.

(** X1: the separator [|] is not escaped in the hashed text: moving a part
    of the character name that follows a [|] to the front of the voice
    name does not change the cache key. *)
Theorem cache_key_separator_collision (c1 c2 v x p : string) :
  VoiceOver.filename_base (VoiceOver.mk (c1 +:+ "|" +:+ c2) v x p)
  = VoiceOver.filename_base (VoiceOver.mk c1 (c2 +:+ "|" +:+ v) x p).
Proof.
  rewrite !filename_base_digest. f_equal.
  rewrite !hashed_message_text. f_equal.
  cbn [VoiceOver.character VoiceOver.voice].
  unfold VoiceOver.saml_text, VoiceOver.clean_text.
  cbn [VoiceOver.text VoiceOver.end_pause].
  repeat (rewrite app_assoc_s; cbn [String.append]). reflexivity.
Qed.

(** X2: for voice-overs whose character and voice names hold no [|], the
    hashed text determines the character, the voice, the clean text and
    the end pause: two such voice-overs that differ in one of them are
    hashed from different bytes. *)
Theorem hashed_message_injective (vo vo' : VoiceOver.t) :
  Py.contains "|" (VoiceOver.character vo) = false ->
  Py.contains "|" (VoiceOver.character vo') = false ->
  Py.contains "|" (VoiceOver.voice vo) = false ->
  Py.contains "|" (VoiceOver.voice vo') = false ->
  hashed_message vo = hashed_message vo' ->
  VoiceOver.character vo = VoiceOver.character vo'
  /\ VoiceOver.voice vo = VoiceOver.voice vo'
  /\ VoiceOver.clean_text vo = VoiceOver.clean_text vo'
  /\ VoiceOver.end_pause vo = VoiceOver.end_pause vo'.
Proof.
  intros Cc Cc' Cv Cv' E. apply hashed_message_inv in E.
  apply split_first in E as [Ec E]; [| assumption | assumption].
  apply split_first in E as [Ev E]; [| assumption | assumption].
  unfold VoiceOver.saml_text in E. cbn [String.append] in E.
  strip_heads E. rewrite !escape_xml_escaped in E.
  apply split_first in E as [Et E].
  - apply xml_escaped_inj in Et. strip_heads E.
    apply app_inv_tail_s in E. auto.
  - apply (no_markup_contains _ (no_markup_xml_escaped _)).
  - apply (no_markup_contains _ (no_markup_xml_escaped _)).
Qed.

Lemma hashed_message_injective_witness :
  VoiceOver.clean_text (demo_vo "hi") = VoiceOver.clean_text (demo_vo "hi").
Proof.
  destruct (hashed_message_injective (demo_vo "hi") (demo_vo "hi")
              eq_refl eq_refl eq_refl eq_refl eq_refl) as (_ & _ & E & _).
  exact E.
Defined.

Lemma code_filename_base_digest (code ext : string) :
  CodeSlide.filename_base code ext = Sha1.hexdigest (code_message code ext).
Proof.
  unfold CodeSlide.filename_base, code_message, Sha1.update, Sha1.new.
  f_equal. cbn [app]. now rewrite <- !app_assoc.
Qed.

(** X3: the cache key of a code slide is hashed from [ext|code]. When the
    two extensions hold no [|], the hashed bytes determine the extension
    and the code; when an extension holds a [|], the part after it can be
    moved to the front of the code without changing the key, so that the
    two slides share the path of their rendered image. *)
Theorem code_key_message (code ext code' ext' : string) :
  (Py.contains "|" ext = false -> Py.contains "|" ext' = false ->
   code_message code ext = code_message code' ext' ->
   ext = ext' /\ code = code')
  /\ CodeSlide.filename_base code (ext +:+ "|" +:+ ext')
     = CodeSlide.filename_base (ext' +:+ "|" +:+ code) ext.
Proof.
  split.
  - intros C C' E. unfold code_message in E.
    rewrite <- !encode_utf8_app in E. apply encode_utf8_inj in E.
    now apply split_first in E.
  - rewrite !code_filename_base_digest. f_equal. unfold code_message.
    rewrite <- !encode_utf8_app. f_equal.
    repeat (rewrite app_assoc_s; cbn [String.append]). reflexivity.
Qed.

Lemma code_key_message_witness :
  "py" = "py" /\ "print(1)" = "print(1)".
Proof.
  destruct (code_key_message "print(1)" "py" "print(1)" "py") as [I _].
  apply I; reflexivity.
Defined.

Lemma be_bytes_length (count : nat) (x : Z) :
  length (Sha1.be_bytes count x) = count.
Proof.
  revert x; induction count as [|count IH]; intros x; cbn [Sha1.be_bytes];
    [reflexivity |].
  rewrite length_app, IH. cbn [length]. lia.
Qed.

Lemma digest_length (msg : list Z) : length (Sha1.digest msg) = 20%nat.
Proof.
  unfold Sha1.digest.
  destruct (fold_left Sha1.compress _ Sha1.init) as [[[[h0 h1] h2] h3] h4].
  rewrite !length_app, !be_bytes_length. reflexivity.
Qed.

Lemma hex_length (l : list Z) : String.length (Sha1.hex l) = (2 * length l)%nat.
Proof.
  induction l as [|b l IH]; cbn [Sha1.hex String.length length];
    [reflexivity |].
  rewrite IH. lia.
Qed.

Lemma hex_digit_is_hex (n : Z) :
  0 <= n < 16 -> is_hex_digit (Sha1.hex_digit n) = true.
Proof.
  intros [L U]. destruct n as [|p|p]; [reflexivity | | lia].
  do 4 (destruct p as [p|p|]; try reflexivity; try lia).
Qed.

Lemma hex_all_hex (l : list Z) :
  Forall (fun b => 0 <= b < 256) l -> all_chars is_hex_digit (Sha1.hex l) = true.
Proof.
  induction 1 as [|b l R F IH]; [reflexivity |].
  cbn [Sha1.hex all_chars].
  rewrite !hex_digit_is_hex, IH; [reflexivity | |].
  - apply Z.mod_pos_bound. lia.
  - split; [apply Z.div_pos; lia | apply Z.div_lt_upper_bound; lia].
Qed.


(** X4: the cache key of a voice-over and the cache key of a code slide
    are 40 characters long, each a digit or a letter from [a] to [f]: the
    file names built from them hold no path separator and need no quoting. *)
Theorem filename_base_is_hex (vo : VoiceOver.t) (code ext : string) :
  String.length (VoiceOver.filename_base vo) = 40%nat
  /\ all_chars is_hex_digit (VoiceOver.filename_base vo) = true
  /\ String.length (CodeSlide.filename_base code ext) = 40%nat
  /\ all_chars is_hex_digit (CodeSlide.filename_base code ext) = true.
Proof.
  rewrite filename_base_digest, code_filename_base_digest.
  unfold Sha1.hexdigest. rewrite !hex_length, !digest_length.
  repeat split; apply hex_all_hex, digest_range.
Qed.

End CacheKeys.

(** ** The lines of the synthesis request *)

Section RequestLines.








End RequestLines.

(** ** The text of a voice-over *)

Section Trimmed.

Lemma starts_with_eq (w s s' : string) :
  Py.starts_with w s = Some s' <-> s = w +:+ s'.
Proof.
  revert s; induction w as [|a w IH]; intros s; cbn [Py.starts_with String.append].
  - split; [now intros [= ->] | now intros ->].
  - destruct s as [|b s]; [split; discriminate |].
    destruct (Ascii.eqb_spec a b) as [-> | N].
    + rewrite IH. split; [now intros -> | now intros [= ->]].
    + split; [discriminate | intros [= E _]; congruence].
Qed.

Lemma drop_one_some (ws : list string) (s s' : string) :
  Py.drop_one ws s = Some s' -> exists w, In w ws /\ s = w +:+ s'.
Proof.
  induction ws as [|w ws IH]; cbn [Py.drop_one]; [discriminate |].
  destruct (Py.starts_with w s) as [r |] eqn:E.
  - intros [= <-]. exists w. split; [now left | now apply starts_with_eq].
  - intros D. destruct (IH D) as (w' & I & ->). exists w'. split; [now right | reflexivity].
Qed.

Lemma drop_one_none (ws : list string) (w s r : string) :
  Py.drop_one ws s = None -> In w ws -> s <> w +:+ r.
Proof.
  induction ws as [|w' ws IH]; cbn [Py.drop_one]; [intros _ [] |].
  destruct (Py.starts_with w' s) as [r' |] eqn:E; [discriminate |].
  intros D [-> | I].
  - intros Es. apply starts_with_eq in Es. congruence.
  - now apply IH.
Qed.

Lemma lstrip_from_fixed (ws : list string) (fuel : nat) (s : string) :
  Py.drop_one ws s = None -> Py.lstrip_from ws fuel s = s.
Proof. intros D. destruct fuel; cbn [Py.lstrip_from]; [| rewrite D]; reflexivity. Qed.

Lemma lstrip_from_suffix (ws : list string) (fuel : nat) (s : string) :
  exists p, s = p +:+ Py.lstrip_from ws fuel s.
Proof.
  revert s; induction fuel as [|fuel IH]; intros s; cbn [Py.lstrip_from].
  - exists EmptyString. reflexivity.
  - destruct (Py.drop_one ws s) as [s' |] eqn:D.
    + apply drop_one_some in D as (w & _ & ->).
      destruct (IH s') as [p E]. exists (w +:+ p).
      rewrite app_assoc_s. now rewrite <- E.
    + exists EmptyString. reflexivity.
Qed.

Lemma lstrip_from_done (ws : list string) (fuel : nat) (s : string) :
  Forall (fun w => w <> EmptyString) ws ->
  (String.length s <= fuel)%nat ->
  Py.drop_one ws (Py.lstrip_from ws fuel s) = None.
Proof.
  intros N; revert s; induction fuel as [|fuel IH]; intros s L;
    cbn [Py.lstrip_from].
  - destruct s; [| cbn in L; lia].
    destruct (Py.drop_one ws EmptyString) as [s' |] eqn:D; [| reflexivity].
    apply drop_one_some in D as (w & I & E).
    destruct w; [| discriminate].
    rewrite List.Forall_forall in N. now destruct (N _ I).
  - destruct (Py.drop_one ws s) as [s' |] eqn:D; [| exact D].
    apply IH. apply drop_one_some in D as (w & I & ->).
    rewrite length_app_s in L.
    rewrite List.Forall_forall in N. specialize (N _ I).
    destruct w; [contradiction | cbn in L; lia].
Qed.

Lemma rev_string_acc (s acc : string) :
  Py.rev_string s acc = Py.rev_string s EmptyString +:+ acc.
Proof.
  revert acc; induction s as [|c s IH]; intros acc; cbn [Py.rev_string];
    [reflexivity |].
  rewrite (IH (String c acc)), (IH (String c EmptyString)).
  now rewrite app_assoc_s.
Qed.

Lemma rev_string_app (a b : string) :
  Py.rev_string (a +:+ b) EmptyString
  = Py.rev_string b EmptyString +:+ Py.rev_string a EmptyString.
Proof.
  induction a as [|c a IH]; cbn [String.append Py.rev_string].
  - now rewrite app_nil_r_s.
  - rewrite rev_string_acc, IH, (rev_string_acc a (String c EmptyString)).
    now rewrite app_assoc_s.
Qed.

Lemma rev_string_involutive (s : string) :
  Py.rev_string (Py.rev_string s EmptyString) EmptyString = s.
Proof.
  induction s as [|c s IH]; cbn [Py.rev_string]; [reflexivity |].
  rewrite (rev_string_acc s (String c EmptyString)), rev_string_app, IH.
  reflexivity.
Qed.

Lemma rev_string_length (s : string) :
  String.length (Py.rev_string s EmptyString) = String.length s.
Proof.
  induction s as [|c s IH]; cbn [Py.rev_string String.length]; [reflexivity |].
  rewrite rev_string_acc, length_app_s, IH. cbn [String.length]. lia.
Qed.

Lemma whitespace_nonempty :
  Forall (fun w => w <> EmptyString) Py.whitespace
  /\ Forall (fun w => w <> EmptyString)
       (map (fun w => Py.rev_string w EmptyString) Py.whitespace).
Proof. split; repeat (constructor; [discriminate |]); constructor. Qed.

(** The result of [strip] neither starts nor ends with white space, and
    [strip] leaves it unchanged. *)
Lemma strip_trimmed (s : string) :
  starts_with_space (Py.strip s) = false
  /\ ends_with_space (Py.strip s) = false
  /\ Py.strip (Py.strip s) = Py.strip s.
Proof.
  destruct whitespace_nonempty as [NW NR].
  set (RW := map (fun w => Py.rev_string w EmptyString) Py.whitespace) in *.
  set (t := Py.lstrip s).
  assert (Lt : Py.drop_one Py.whitespace t = None)
    by (apply lstrip_from_done; [exact NW | lia]).
  set (u := Py.strip s).
  assert (Eu : Py.rev_string u EmptyString
               = Py.lstrip_from RW
                   (String.length (Py.rev_string t EmptyString))
                   (Py.rev_string t EmptyString)).
  { unfold u, Py.strip, Py.rstrip. fold t. fold RW.
    apply rev_string_involutive. }
  assert (Tu : Py.drop_one RW (Py.rev_string u EmptyString) = None)
    by (rewrite Eu; apply lstrip_from_done; [exact NR | lia]).
  assert (Lu : Py.drop_one Py.whitespace u = None).
  { destruct (Py.drop_one Py.whitespace u) as [u' |] eqn:D; [| reflexivity].
    apply drop_one_some in D as (w & I & E). exfalso.
    destruct (lstrip_from_suffix RW
                (String.length (Py.rev_string t EmptyString))
                (Py.rev_string t EmptyString)) as [p Ep].
    rewrite <- Eu in Ep.
    apply (f_equal (fun x => Py.rev_string x EmptyString)) in Ep.
    rewrite rev_string_involutive, rev_string_app, rev_string_involutive in Ep.
    rewrite E, app_assoc_s in Ep.
    exact (drop_one_none _ _ _ _ Lt I Ep). }
  unfold starts_with_space, ends_with_space. fold RW.
  rewrite Lu, Tu. split; [reflexivity |]. split; [reflexivity |].
  change (Py.strip u = u). unfold Py.strip, Py.lstrip, Py.rstrip. fold RW.
  rewrite (lstrip_from_fixed _ _ _ Lu), (lstrip_from_fixed _ _ _ Tu).
  apply rev_string_involutive.
Qed.

Context `{Pydantic}.

Lemma init_text (d : dict) (vo : VoiceOver.t) :
  VoiceOver.init d = Ok vo -> exists x, VoiceOver.text vo = Py.strip x.
Proof.
  unfold VoiceOver.init. intros E.
  apply bind_ok in E as (c & _ & E). apply bind_ok in E as (v & _ & E).
  apply bind_ok in E as (x & _ & E). apply bind_ok in E as (p & _ & E).
  injection E as <-. exists x. reflexivity.
Qed.

(** X6: the text of a voice-over built by the constructor neither starts
    nor ends with a white space character, and validating it again leaves
    it unchanged. *)
Theorem validated_text_is_trimmed (d : dict) (vo : VoiceOver.t) :
  VoiceOver.init d = Ok vo ->
  starts_with_space (VoiceOver.text vo) = false
  /\ ends_with_space (VoiceOver.text vo) = false
  /\ VoiceOver.validate_text (VoiceOver.text vo) = VoiceOver.text vo.
Proof.
  intros E. apply init_text in E as [x ->]. apply strip_trimmed.
Qed.

End Trimmed.

Lemma validated_text_is_trimmed_witness :
  VoiceOver.validate_text "hi  there" = "hi  there".
Proof.
  destruct (validated_text_is_trimmed (H := plain)
              [ (YStr "character", YStr "A"); (YStr "voice", YStr "v");
                (YStr "text", YStr "  hi  there  ") ]
              (VoiceOver.mk "A" "v" "hi  there" "500ms"))
    as (_ & _ & E).
  - vm_compute. reflexivity.
  - exact E.
Defined.

(** ** More on the script parser *)

Section ParserMore.

Context `{Pydantic}.

Lemma segment_length (current : Slide.t) (es : list entry) :
  length (segment current es)
  = S (length (List.filter
                 (fun e => match e with NewSlide _ => true | Speak _ => false end)
                 es)).
Proof.
  revert current; induction es as [|[s | vo] es IH]; intros current;
    cbn [segment List.filter length]; [reflexivity | | apply IH].
  now rewrite IH.
Qed.

Lemma entries_reserved (self : Script.t) (items : list dict) (es : list entry) :
  Forall2 (entry_of self) items es ->
  length (List.filter
            (fun e => match e with NewSlide _ => true | Speak _ => false end) es)
  = length (List.filter reserved items).
Proof.
  induction 1 as [|item e items es E _ IH]; [reflexivity |].
  cbn [List.filter]. destruct e as [s | vo]; destruct E as [-> _];
    cbn [length]; now rewrite IH.
Qed.

(** X7: a parsed script has one slide more than it has entries with a
    reserved key: the initial Empty slide. *)
Theorem parse_slides_length (self : Script.t) (slides : list Slide.t) :
  Script.parse_slides self = Ok slides ->
  length slides = S (length (List.filter reserved (Script.slides self))).
Proof.
  rewrite parse_slides_segment. intros E.
  apply bind_ok in E as (es & Es & E). injection E as <-.
  rewrite segment_length. f_equal.
  apply (entries_reserved self). now apply traverse_read_entry.
Qed.

Lemma all_voice_overs_segment (current : Slide.t) (es : list entry) :
  all_voice_overs (segment current es)
  = Slide.voice_overs current ++ flat_map entry_voice_overs es.
Proof.
  unfold all_voice_overs.
  revert current; induction es as [|[s | vo] es IH]; intros current;
    cbn [segment flat_map entry_voice_overs].
  - reflexivity.
  - now rewrite IH.
  - rewrite IH. cbn [Slide.append_voice_over Slide.voice_overs].
    now rewrite <- app_assoc.
Qed.

Lemma base_fields_no_voice_overs (model : string) (item : dict)
    (base : list VoiceOver.t * option Z) :
  get "voice_overs" item = None ->
  Slide.base_fields model item = Ok base -> fst base = [].
Proof.
  unfold Slide.base_fields, Slide.voice_overs_field. intros ->. intros E.
  apply bind_ok in E as (u & _ & E). cbn [bind] in E.
  apply bind_ok in E as (md & _ & E). injection E as <-. reflexivity.
Qed.

Lemma read_entry_no_voice_overs (self : Script.t) (item : dict) (s : Slide.t) :
  get "voice_overs" item = None ->
  read_entry self item = Ok (NewSlide s) -> Slide.voice_overs s = [].
Proof.
  intros G. unfold read_entry.
  destruct (has_key "image" item).
  { intros E. apply bind_ok in E as (s' & E1 & [= <-]).
    unfold ImageSlide.parse_obj in E1.
    apply bind_ok in E1 as (base & B & E1).
    apply bind_ok in E1 as (? & _ & E1). apply bind_ok in E1 as (? & _ & E1).
    apply bind_ok in E1 as (? & _ & E1). injection E1 as <-.
    exact (base_fields_no_voice_overs _ _ _ G B). }
  destruct (has_key "text" item).
  { intros E. apply bind_ok in E as (s' & E1 & [= <-]).
    unfold TextSlide.parse_obj in E1.
    apply bind_ok in E1 as (base & B & E1).
    apply bind_ok in E1 as (? & _ & E1). apply bind_ok in E1 as (? & _ & E1).
    injection E1 as <-.
    exact (base_fields_no_voice_overs _ _ _ G B). }
  destruct (has_key "code" item).
  { intros E. apply bind_ok in E as (s' & E1 & [= <-]).
    unfold CodeSlide.parse_obj in E1.
    apply bind_ok in E1 as (base & B & E1).
    apply bind_ok in E1 as (? & _ & E1). apply bind_ok in E1 as (? & _ & E1).
    injection E1 as <-.
    exact (base_fields_no_voice_overs _ _ _ G B). }
  intros E. apply bind_ok in E as (vo & _ & [=]).
Qed.

Lemma traverse_spoken_lines (self : Script.t) (items : list dict)
    (es : list entry) :
  Forall (fun item => get "voice_overs" item = None) items ->
  Slide.traverse (read_entry self) items = Ok es ->
  Slide.traverse (spoken self)
    (List.filter (fun item => negb (reserved item)) items)
  = Ok (flat_map entry_voice_overs es).
Proof.
  intros F; revert es; induction F as [|item items G F IH]; intros es;
    cbn [Slide.traverse List.filter].
  - intros [= <-]. reflexivity.
  - destruct (read_entry self item) as [e |] eqn:E; cbn [bind]; [| discriminate].
    destruct (Slide.traverse (read_entry self) items) as [es' |]; cbn [bind];
      [| discriminate].
    intros [= <-]. specialize (IH es' eq_refl).
    pose proof (read_entry_reserved self item e E) as R.
    destruct e as [s | vo]; destruct R as [R R'].
    + rewrite R. cbn [negb flat_map entry_voice_overs].
      now rewrite (read_entry_no_voice_overs self item s G E).
    + rewrite R. cbn [negb Slide.traverse flat_map entry_voice_overs].
      rewrite R', IH. reflexivity.
Qed.

(** X8: when no entry of the script has a key [voice_overs], the
    voice-overs of the parsed slides, read slide after slide, are the
    voice-overs of the entries without a reserved key, one for each, in
    the order of the script. *)
Theorem parse_slides_keeps_order (self : Script.t) (slides : list Slide.t) :
  Forall (fun item => get "voice_overs" item = None) (Script.slides self) ->
  Script.parse_slides self = Ok slides ->
  Slide.traverse (spoken self)
    (List.filter (fun item => negb (reserved item)) (Script.slides self))
  = Ok (all_voice_overs slides).
Proof.
  intros F. rewrite parse_slides_segment. intros E.
  apply bind_ok in E as (es & Es & E). injection E as <-.
  rewrite all_voice_overs_segment. cbn [EmptySlide.init Slide.voice_overs app].
  now apply traverse_spoken_lines.
Qed.

End ParserMore.

Lemma parse_slides_length_witness : length demo_slides = 2%nat.
Proof.
  apply (parse_slides_length (H := plain) demo_script demo_slides).
  vm_compute. reflexivity.
Defined.

Lemma parse_slides_keeps_order_witness :
  Slide.traverse (spoken (H := plain) demo_script)
    (List.filter (fun item => negb (reserved item)) (Script.slides demo_script))
  = Ok (all_voice_overs demo_slides).
Proof.
  apply (parse_slides_keeps_order (H := plain) demo_script demo_slides).
  - repeat constructor.
  - vm_compute. reflexivity.
Defined.

Section SlideEntryErrors.

Context `{Pydantic}.

Lemma traverse_error {A B : Type} (f : A -> result B) (l : list A)
    (only e : exn) :
  (forall a e', f a = Raise e' -> e' = only) ->
  Slide.traverse f l = Raise e -> e = only.
Proof.
  intros F. induction l as [|a l IH]; cbn [Slide.traverse]; [discriminate |].
  destruct (f a) as [b | e'] eqn:E; cbn [bind].
  - destruct (Slide.traverse f l) as [bs | e'']; cbn [bind];
      [discriminate | intros [= <-]; now apply IH].
  - intros [= <-]. now apply (F a).
Qed.

Lemma voice_over_item_error (model : string) (v : yaml) (e : exn) :
  Slide.voice_over_item model v = Raise e -> e = ValidationError model.
Proof.
  unfold Slide.voice_over_item.
  destruct (dict_validator v) as [m |]; [| now intros [= <-]].
  destruct (Field.keywords m); [| now intros [= <-]].
  destruct (VoiceOver.init m); [discriminate | now intros [= <-]].
Qed.

Lemma optional_error {T : Type} (model name : string)
    (validator : yaml -> option T) (d : dict) (e : exn) :
  Field.optional model name validator d = Raise e -> e = ValidationError model.
Proof.
  unfold Field.optional. destruct (get name d) as [[] |]; try discriminate;
    destruct (validator _); try discriminate; now intros [= <-].
Qed.

Lemma required_error {T : Type} (model name : string)
    (validator : yaml -> option T) (d : dict) (e : exn) :
  Field.required model name validator d = Raise e -> e = ValidationError model.
Proof.
  unfold Field.required. destruct (get name d) as [[] |];
    try (now intros [= <-]); destruct (validator _); try discriminate;
    now intros [= <-].
Qed.

Lemma base_fields_error (model : string) (d : dict) (e : exn) :
  Field.keywords d = true ->
  Slide.base_fields model d = Raise e -> e = ValidationError model.
Proof.
  unfold Slide.base_fields. intros ->. cbn [bind].
  destruct (Slide.voice_overs_field model d) as [vos | e'] eqn:V; cbn [bind].
  - destruct (Field.optional model "min_duration" int_validator d) eqn:O;
      cbn [bind]; [discriminate |].
    intros [= <-]. now apply optional_error in O.
  - intros [= <-]. unfold Slide.voice_overs_field in V.
    destruct (get "voice_overs" d) as [v |]; [| discriminate].
    assert (L : match list_validator v with
                | Some l => Slide.traverse (Slide.voice_over_item model) l
                | None => Raise (ValidationError model)
                end = Raise e' -> e' = ValidationError model).
    { destruct (list_validator v); [| now intros [= <-]].
      apply traverse_error. apply voice_over_item_error. }
    destruct v; try (now apply L); now injection V as <-.
Qed.

Lemma required_missing {T : Type} (model name : string)
    (validator : yaml -> option T) (d : dict) :
  get name d = None \/ get name d = Some YNull ->
  Field.required model name validator d = Raise (ValidationError model).
Proof. unfold Field.required. now intros [-> | ->]. Qed.

(** X9: an entry with string keys that is read as a slide is rejected
    with pydantic's [ValidationError] for its class when the value of its
    reserved key is null, and a code entry also when it has no [ext] or a
    null one: parsing stops at the first such entry. *)
Theorem slide_entry_rejected (self : Script.t) (pre post : list dict)
    (item : dict) (st : Script.state) :
  Script.slides self = pre ++ item :: post ->
  for_each (Script.parse_item self) pre ([EmptySlide.init], 0%nat) = Ok st ->
  Field.keywords item = true ->
  (has_key "image" item = true -> get "image" item = Some YNull ->
   Script.parse_slides self = Raise (ValidationError "ImageSlide"))
  /\ (has_key "image" item = false -> has_key "text" item = true ->
      get "text" item = Some YNull ->
      Script.parse_slides self = Raise (ValidationError "TextSlide"))
  /\ (has_key "image" item = false -> has_key "text" item = false ->
      has_key "code" item = true ->
      get "code" item = Some YNull \/ get "ext" item = None
      \/ get "ext" item = Some YNull ->
      Script.parse_slides self = Raise (ValidationError "CodeSlide")).
Proof.
  intros Hs Hpre K.
  assert (P : Script.parse_slides self
              = bind (bind (Script.parse_item self st item)
                        (for_each (Script.parse_item self) post))
                  (fun s => Ok (fst s))).
  { unfold Script.parse_slides. rewrite Hs, for_each_app, Hpre. reflexivity. }
  rewrite P. unfold Script.parse_item.
  split; [| split].
  - intros -> G. unfold ImageSlide.parse_obj.
    destruct (Slide.base_fields "ImageSlide" item) as [base | e] eqn:B;
      cbn [bind].
    + rewrite required_missing by auto. reflexivity.
    + now rewrite (base_fields_error _ _ _ K B).
  - intros -> -> G. unfold TextSlide.parse_obj.
    destruct (Slide.base_fields "TextSlide" item) as [base | e] eqn:B;
      cbn [bind].
    + rewrite required_missing by auto. reflexivity.
    + now rewrite (base_fields_error _ _ _ K B).
  - intros -> -> -> G. unfold CodeSlide.parse_obj.
    destruct (Slide.base_fields "CodeSlide" item) as [base | e] eqn:B;
      cbn [bind].
    + destruct G as [G | G].
      * rewrite required_missing by auto. reflexivity.
      * destruct (Field.required "CodeSlide" "code" str_validator item)
          as [code | e] eqn:C; cbn [bind].
        -- rewrite required_missing by tauto. reflexivity.
        -- now rewrite (required_error _ _ _ _ _ C).
    + now rewrite (base_fields_error _ _ _ K B).
Qed.

End SlideEntryErrors.

Lemma slide_entry_rejected_witness :
  Script.parse_slides (H := plain)
    (Script.mk [ [(YStr "code", YStr "print(1)")] ] [])
  = Raise (ValidationError "CodeSlide").
Proof.
  destruct (slide_entry_rejected (H := plain)
              (Script.mk [ [(YStr "code", YStr "print(1)")] ] [])
              [] [] [(YStr "code", YStr "print(1)")]
              ([EmptySlide.init], 0%nat) eq_refl eq_refl eq_refl)
    as (_ & _ & C).
  apply C; [reflexivity | reflexivity | reflexivity |].
  right. left. reflexivity.
Defined.

(** ** More on image fitting *)

Section FitMore.

Local Open Scope Q_scope.

Lemma fits_int (z : Z) : (Z.abs z <= 2 ^ 107)%Z -> Num.fits (Num.Int z) = true.
Proof.
  intros B. unfold Num.fits, Float.of_int.
  rewrite (round_fits _ 107); [reflexivity | lia |].
  now apply int_bound.
Qed.

Lemma truediv_cases (a b k : Z) :
  (Z.abs a <= 2 ^ k)%Z -> (0 <= k < 1024)%Z ->
  (b = 0%Z /\ Float.truediv a b = Raise ZeroDivisionError)
  \/ (b <> 0%Z /\ exists q, Float.truediv a b = Ok (Finite q)).
Proof.
  intros A K. unfold Float.truediv.
  destruct (Z.eqb_spec b 0) as [-> | N]; [now left | right].
  split; [exact N |].
  rewrite (round_fits _ k); [eexists; reflexivity | lia |].
  unfold Qdiv. rewrite Qabs_Qmult, Qabs_Qinv, !inject_Z_abs.
  assert (Pb : 0 < inject_Z (Z.abs b)) by (apply inject_Z_pos; lia).
  apply Qle_trans with (inject_Z (Z.abs a)).
  - apply Qle_shift_div_r; [exact Pb |].
    assert (0 <= inject_Z (Z.abs a))
      by (change 0 with (inject_Z 0); rewrite <- Zle_Qle; lia).
    assert (1 <= inject_Z (Z.abs b))
      by (change 1 with (inject_Z 1); rewrite <- Zle_Qle; lia).
    nra.
  - rewrite (pow2_Z k) by lia. now rewrite <- Zle_Qle.
Qed.

Lemma abs_prod (a b : Z) :
  (Z.abs a <= 2 ^ 53)%Z -> (Z.abs b <= 2 ^ 53)%Z -> (Z.abs (a * b) <= 2 ^ 106)%Z.
Proof.
  intros A B. rewrite Z.abs_mul.
  change (2 ^ 106)%Z with (2 ^ 53 * 2 ^ 53)%Z.
  apply Z.mul_le_mono_nonneg; lia.
Qed.

(** An [int] side is one of the four sizes; a float side is any float. *)
Lemma centre_returns (frame frame_size : Z) (size : Num.t) :
  (Z.abs frame <= 2 ^ 53)%Z -> (Z.abs frame_size <= 2 ^ 53)%Z ->
  (forall s, size = Num.Int s -> (Z.abs s <= 2 ^ 53)%Z) ->
  exists r, ImageSlide.centre frame frame_size size = Ok r.
Proof.
  intros Bf Bs Bz. unfold ImageSlide.centre.
  assert (Ff : Num.fits (Num.Int frame) = true) by (apply fits_int; lia).
  assert (Fs : Num.fits (Num.Int frame_size) = true) by (apply fits_int; lia).
  destruct size as [s | f].
  - specialize (Bz s eq_refl).
    cbn [Num.sub Num.checked Num.minus Num.arith bind].
    unfold Num.mul, Num.checked.
    rewrite (fits_int (frame_size - s)) by lia. cbn [Num.fits andb bind].
    unfold Num.add, Num.checked, Num.times, Num.arith. rewrite Ff.
    cbn [Num.fits andb]. eexists. reflexivity.
  - unfold Num.sub, Num.checked. rewrite Fs. cbn [Num.fits andb bind].
    unfold Num.mul, Num.checked, Num.minus, Num.arith. cbn [Num.fits andb bind].
    unfold Num.add, Num.checked, Num.times, Num.arith. rewrite Ff.
    cbn [Num.fits andb]. eexists. reflexivity.
Qed.

(** The size computation raises only on a division by 0; the sizes it
    returns as [int]s are among its arguments. *)
Lemma fit_size_cases (iw ih fw fh : Z) (zoom_to_fit : bool)
    (zoom : option float) :
  (Z.abs iw <= 2 ^ 53)%Z -> (Z.abs ih <= 2 ^ 53)%Z ->
  (Z.abs fw <= 2 ^ 53)%Z -> (Z.abs fh <= 2 ^ 53)%Z ->
  (ImageSlide.fit_size iw ih fw fh zoom_to_fit zoom = Raise ZeroDivisionError
   /\ zoom = None /\ (iw = 0 \/ ih = 0 \/ fw = 0 \/ fh = 0)%Z)
  \/ (exists w h,
        ImageSlide.fit_size iw ih fw fh zoom_to_fit zoom = Ok (w, h)
        /\ (forall s, w = Num.Int s -> (Z.abs s <= 2 ^ 53)%Z)
        /\ (forall s, h = Num.Int s -> (Z.abs s <= 2 ^ 53)%Z)).
Proof.
  intros Biw Bih Bfw Bfh. unfold ImageSlide.fit_size.
  assert (Fw : Num.fits (Num.Int iw) = true) by (apply fits_int; lia).
  assert (Fh : Num.fits (Num.Int ih) = true) by (apply fits_int; lia).
  destruct zoom as [zoom |].
  - right. unfold Num.mul, Num.checked. rewrite Fw, Fh.
    cbn [Num.fits andb bind]. do 2 eexists. split; [reflexivity |].
    split; intros s; discriminate.
  - pose proof (truediv_cases iw fw 53 Biw ltac:(lia)) as Dw.
    pose proof (truediv_cases ih fh 53 Bih ltac:(lia)) as Dh.
    pose proof (truediv_cases (fw * ih) iw 106 (abs_prod _ _ Bfw Bih)
                  ltac:(lia)) as Sh.
    pose proof (truediv_cases (fh * iw) ih 106 (abs_prod _ _ Bfh Biw)
                  ltac:(lia)) as Sw.
    assert (Int_w : forall s, Num.Int fw = Num.Int s -> (Z.abs s <= 2 ^ 53)%Z)
      by (intros s [= <-]; exact Bfw).
    assert (Int_h : forall s, Num.Int fh = Num.Int s -> (Z.abs s <= 2 ^ 53)%Z)
      by (intros s [= <-]; exact Bfh).
    assert (Flt_any : forall f s, Num.Flt f = Num.Int s -> (Z.abs s <= 2 ^ 53)%Z)
      by (intros f s; discriminate).
    destruct ((iw >? fw)%Z || (ih >? fh)%Z); [| destruct zoom_to_fit].
    + destruct Dw as [[Z Ew] | [_ [rw Ew]]]; rewrite Ew; cbn [bind];
        [left; auto 8 |].
      destruct Dh as [[Z Eh] | [_ [rh Eh]]]; rewrite Eh; cbn [bind];
        [left; auto 8 |].
      destruct (Float.gtb _ _).
      * destruct Sh as [[Z E] | [_ [q E]]]; rewrite E; cbn [bind];
          [left; auto 8 |].
        right. do 2 eexists. split; [reflexivity |]. split; eauto.
      * destruct Sw as [[Z E] | [_ [q E]]]; rewrite E; cbn [bind];
          [left; auto 8 |].
        right. do 2 eexists. split; [reflexivity |]. split; eauto.
    + destruct Dw as [[Z Ew] | [_ [rw Ew]]]; rewrite Ew; cbn [bind];
        [left; auto 8 |].
      destruct Dh as [[Z Eh] | [_ [rh Eh]]]; rewrite Eh; cbn [bind];
        [left; auto 8 |].
      destruct (Float.gtb _ _).
      * destruct Sw as [[Z E] | [_ [q E]]]; rewrite E; cbn [bind];
          [left; auto 8 |].
        right. do 2 eexists. split; [reflexivity |]. split; eauto.
      * destruct Sh as [[Z E] | [_ [q E]]]; rewrite E; cbn [bind];
          [left; auto 8 |].
        right. do 2 eexists. split; [reflexivity |]. split; eauto.
    + right. do 2 eexists. split; [reflexivity |].
      split; intros s [= <-]; assumption.
Qed.

(** X11: with sizes and frame coordinates of at most 2^53 in absolute
    value, the only exception of the fitting is [ZeroDivisionError]; it is
    raised only without a fixed zoom and only when a dimension of the image
    or of the frame is 0. It is raised for a frame of width 0 and an image
    of positive width. Beyond that range [OverflowError] occurs: a frame
    at x = 2^1024 cannot be added to a float. *)
Theorem fit_box_raises (iw ih fx fy fw fh : Z) (zoom_to_fit : bool)
    (zoom : option float) :
  ((Z.abs iw <= 2 ^ 53)%Z -> (Z.abs ih <= 2 ^ 53)%Z ->
   (Z.abs fw <= 2 ^ 53)%Z -> (Z.abs fh <= 2 ^ 53)%Z ->
   (Z.abs fx <= 2 ^ 53)%Z -> (Z.abs fy <= 2 ^ 53)%Z ->
   forall e,
     ImageSlide.fit_box iw ih fx fy fw fh zoom_to_fit zoom = Raise e ->
     e = ZeroDivisionError /\ zoom = None
     /\ (iw = 0 \/ ih = 0 \/ fw = 0 \/ fh = 0)%Z)
  /\ ((0 < iw)%Z ->
      ImageSlide.fit_box iw ih fx fy 0 fh zoom_to_fit None
      = Raise ZeroDivisionError)
  /\ ImageSlide.fit_box 100 100 (2 ^ 1024) 0 400 300 false None
     = Raise OverflowError.
Proof.
  split; [| split].
  - intros Biw Bih Bfw Bfh Bfx Bfy e E. unfold ImageSlide.fit_box in E.
    destruct (fit_size_cases iw ih fw fh zoom_to_fit zoom Biw Bih Bfw Bfh)
      as [(S & Z & D) | (w & h & S & Sw & Sh)]; rewrite S in E;
      cbn [bind fst snd] in E.
    + injection E as <-. auto.
    + destruct (centre_returns fx fw w Bfx Bfw Sw) as [x X].
      destruct (centre_returns fy fh h Bfy Bfh Sh) as [y Y].
      rewrite X in E. cbn [bind] in E. rewrite Y in E. discriminate.
  - intros P. unfold ImageSlide.fit_box, ImageSlide.fit_size.
    assert (G : (iw >? 0)%Z = true) by lia. rewrite G. reflexivity.
  - vm_compute. reflexivity.
Qed.

End FitMore.

Lemma fit_box_raises_witness :
  ImageSlide.fit_box 800 300 0 0 0 300 false None = Raise ZeroDivisionError
  /\ (800 = 0 \/ 300 = 0 \/ 0 = 0 \/ 300 = 0)%Z.
Proof.
  destruct (fit_box_raises 800 300 0 0 0 300 false None) as (R & Z & _).
  assert (E : ImageSlide.fit_box 800 300 0 0 0 300 false None
              = Raise ZeroDivisionError) by (apply Z; reflexivity).
  split; [exact E |].
  apply (R ltac:(vm_compute; discriminate) ltac:(vm_compute; discriminate)
           ltac:(vm_compute; discriminate) ltac:(vm_compute; discriminate)
           ltac:(vm_compute; discriminate) ltac:(vm_compute; discriminate)
           ZeroDivisionError E).
Defined.

(** ** The cache of code snippets *)

Section Prepare.

Context `{Host}.

Lemma prepare_fixed (slide : Slide.t) (fs : FS) :
  (forall code ext, Slide.body slide = Slide.Code code ext ->
                    Path.is_file fs (CodeSlide.get_filepath code ext CODE_ROOT)
                    = true) ->
  prepare slide fs = Ok fs.
Proof.
  unfold prepare. destruct (Slide.body slide) as [| | code ext |]; auto.
  intros F. unfold CodeSlide.prepare. now rewrite (F code ext eq_refl).
Qed.

(** X13: when the source file of every code slide is already in the code
    cache, the [prepare] loop of [main] succeeds and changes nothing: no
    file is written again, whatever the other files are. *)
Theorem prepare_loop_cached (slides : list Slide.t) (fs : FS) :
  (forall slide code ext,
      In slide slides -> Slide.body slide = Slide.Code code ext ->
      Path.is_file fs (CodeSlide.get_filepath code ext CODE_ROOT) = true) ->
  for_each (fun fs slide => prepare slide fs) slides fs = Ok fs.
Proof.
  induction slides as [|slide slides IH]; intros F; cbn [for_each];
    [reflexivity |].
  rewrite prepare_fixed.
  - cbn [bind]. apply IH. intros s code ext I. apply F. now right.
  - intros code ext. apply F. now left.
Qed.

End Prepare.

Lemma prepare_loop_cached_witness :
  let snippet :=
    CodeSlide.get_filepath "print(1)" "py" (CODE_ROOT (H := studio 0)) in
  for_each (fun fs slide => prepare (H := studio 0) slide fs)
    [Slide.mk [] None (Slide.Code "print(1)" "py")]
    (Path.create demo_fs snippet)
  = Ok (Path.create demo_fs snippet).
Proof.
  intros snippet. apply (prepare_loop_cached (H := studio 0)).
  intros slide code ext [<- | []] E. cbn [Slide.body] in E.
  injection E as <- <-. unfold Path.is_file, Path.create.
  apply bool_decide_eq_true. apply lookup_insert_eq.
Defined.

(** ** More on the timeline *)

Section TimelineMore.

Context `{Host}.

Lemma slide_loop_ind (fs : FS)
    (P : list Slide.t -> Timeline -> Timeline -> Prop) :
  (forall tl, P [] tl tl) ->
  (forall slide slides tl tl1 tl',
      slide_step fs tl slide = Ok tl1 ->
      for_each (slide_step fs) slides tl1 = Ok tl' ->
      P slides tl1 tl' -> P (slide :: slides) tl tl') ->
  forall slides tl tl',
    for_each (slide_step fs) slides tl = Ok tl' -> P slides tl tl'.
Proof.
  intros P0 PS. induction slides as [|slide slides IH]; intros tl tl';
    cbn [for_each].
  - intros [= <-]. apply P0.
  - intros E. apply bind_ok in E as (tl1 & E1 & E).
    apply (PS slide slides tl tl1 tl' E1 E). now apply IH.
Qed.

Lemma captions_from_length (cs : Num.t) (vos : list VoiceOver.t) :
  length (captions_from cs vos) = length vos.
Proof.
  revert cs; induction vos as [|vo vos IH]; intros cs;
    cbn [captions_from length]; [reflexivity | now rewrite IH].
Qed.

Lemma audios_from_length (cs : Num.t) (vos : list VoiceOver.t) :
  length (audios_from cs vos) = length vos.
Proof.
  revert cs; induction vos as [|vo vos IH]; intros cs;
    cbn [audios_from length]; [reflexivity | now rewrite IH].
Qed.

Lemma fit_source (fs : FS) (image_path : string) (fx fy fw fh : Z)
    (zoom_to_fit : bool) (zoom : option float) (c : Clip.t) :
  ImageSlide.fit fs image_path fx fy fw fh zoom_to_fit zoom = Ok c ->
  Clip.source c = ImageClip image_path.
Proof. intros E. now apply fit_start in E. Qed.

(** A slide has a visual exactly when it is not Empty, and a visual is not
    a caption. *)
Lemma as_clip_shape (slide : Slide.t) (fs : FS) (o : option Clip.t) :
  as_clip slide fs = Ok o ->
  match o with
  | None => is_empty_slide slide = true
  | Some c => is_empty_slide slide = false /\ is_caption c = false
  end.
Proof.
  unfold as_clip, is_empty_slide.
  destruct (Slide.body slide) as [| image zoom ztf | code ext | text size].
  - now intros [= <-].
  - intros E. apply bind_ok in E as (c & F & [= <-]).
    unfold ImageSlide.as_clip in F. apply fit_source in F.
    unfold is_caption. now rewrite F.
  - intros E. apply bind_ok in E as (c & F & [= <-]).
    unfold CodeSlide.as_clip, ImageSlide.as_clip in F. apply fit_source in F.
    unfold is_caption. now rewrite F.
  - intros [= <-]. auto.
Qed.

Lemma all_voice_overs_cons (slide : Slide.t) (slides : list Slide.t) :
  all_voice_overs (slide :: slides)
  = Slide.voice_overs slide ++ all_voice_overs slides.
Proof. reflexivity. Qed.

Lemma slide_loop_counts (fs : FS) (slides : list Slide.t) (tl tl' : Timeline) :
  for_each (slide_step fs) slides tl = Ok tl' ->
  length (tl_audio_clips tl')
  = (length (tl_audio_clips tl) + length (all_voice_overs slides))%nat
  /\ length (tl_video_clips tl')
     = (length (tl_video_clips tl) + length (all_voice_overs slides)
        + length (List.filter (fun s => negb (is_empty_slide s)) slides))%nat.
Proof.
  revert slides tl tl'. apply slide_loop_ind.
  - intros tl. cbn. lia.
  - intros slide slides tl tl1 tl' S _ [IHa IHv].
    apply slide_step_ok in S as (o & A & Ev & Ea & _).
    apply as_clip_shape in A.
    rewrite IHa, IHv, Ev, Ea, all_voice_overs_cons. cbn [List.filter].
    rewrite !length_app, captions_from_length, audios_from_length.
    destruct o as [c |].
    + destruct A as [-> _]. cbn [negb length]. lia.
    + rewrite A. cbn [negb length]. lia.
Qed.

Lemma portraits_length (fs : FS) (total : Num.t) (cs : list (string * Character.t))
    (vc vc' : list Clip.t) :
  for_each (portrait_step fs total) cs vc = Ok vc' ->
  length vc' = (length vc + length cs)%nat
  /\ List.filter is_caption vc' = List.filter is_caption vc.
Proof.
  revert vc; induction cs as [|ch cs IH]; intros vc; cbn [for_each].
  - intros [= <-]. cbn. split; [lia | reflexivity].
  - intros E. apply bind_ok in E as (vc1 & E1 & E).
    destruct (IH vc1 E) as [L F]. rewrite L, F.
    unfold portrait_step in E1. apply bind_ok in E1 as (c & Fc & E1).
    injection E1 as <-. apply fit_source in Fc.
    rewrite length_app, filter_app_b. cbn [length List.filter].
    unfold is_caption at 2. cbn [Clip.set_duration Clip.source].
    rewrite Fc. rewrite app_nil_r. split; [lia | reflexivity].
Qed.

(** X14: the composite holds one audio layer per voice-over, and as video
    layers the background, one caption per voice-over, one visual per
    slide that is not Empty and one portrait per character. *)
Theorem layer_counts (fs : FS) (script : Script.t) (slides : list Slide.t)
    (video : Video) :
  compose fs script slides = Ok video ->
  length (audio_clips video) = length (all_voice_overs slides)
  /\ length (video_clips video)
     = (1 + length (all_voice_overs slides)
        + length (List.filter (fun s => negb (is_empty_slide s)) slides)
        + length (Script.characters script))%nat.
Proof.
  intros E. apply compose_inv in E as (tl & L & P & -> & _).
  apply slide_loop_counts in L as [La Lv]. apply portraits_length in P as [P _].
  rewrite P, La. cbn [length tl_audio_clips tl_video_clips] in *.
  rewrite Lv. lia.
Qed.

Lemma floor_duration_span (slide : Slide.t) :
  floor_duration slide = slide_span slide.
Proof. reflexivity. Qed.

Lemma slide_loop_cursor (fs : FS) (slides : list Slide.t) (tl tl' : Timeline) :
  for_each (slide_step fs) slides tl = Ok tl' ->
  last_clip_end tl'
  = fold_left (fun acc s => Num.plus acc (slide_span s)) slides
      (last_clip_end tl).
Proof.
  revert slides tl tl'. apply slide_loop_ind.
  - reflexivity.
  - intros slide slides tl tl1 tl' S _ IH.
    apply slide_step_ok in S as (o & _ & _ & _ & _ & El).
    cbn [fold_left]. now rewrite IH, El, floor_duration_span.
Qed.

(** X15: the duration of the video is the sum over the slides, from left to
    right and starting from the [int] 0, of the time each one takes: the
    sum of the playback lengths of its voice-overs, or [min_duration] when
    that is declared and larger. *)
Theorem video_duration_is_sum (fs : FS) (script : Script.t)
    (slides : list Slide.t) (video : Video) :
  compose fs script slides = Ok video ->
  video_duration video
  = fold_left (fun acc s => Num.plus acc (slide_span s)) slides (Num.Int 0).
Proof.
  intros E. apply compose_inv in E as (tl & L & _ & _ & _ & ->).
  apply (slide_loop_cursor _ _ _ _ L).
Qed.

Lemma captions_timing (cs : Num.t) (vos : list VoiceOver.t) :
  List.filter is_caption (captions_from cs vos) = captions_from cs vos
  /\ map timing (captions_from cs vos) = map timing (audios_from cs vos).
Proof.
  revert cs; induction vos as [|vo vos IH]; intros cs;
    cbn [captions_from audios_from List.filter map]; [auto |].
  destruct (IH (Num.plus cs (vo_duration vo))) as [-> ->].
  split; reflexivity.
Qed.

Lemma slide_loop_captions (fs : FS) (slides : list Slide.t) (tl tl' : Timeline) :
  for_each (slide_step fs) slides tl = Ok tl' ->
  map timing (List.filter is_caption (tl_video_clips tl))
  = map timing (tl_audio_clips tl) ->
  map timing (List.filter is_caption (tl_video_clips tl'))
  = map timing (tl_audio_clips tl').
Proof.
  apply (for_each_invariant (slide_step fs)
           (fun tl => map timing (List.filter is_caption (tl_video_clips tl))
                      = map timing (tl_audio_clips tl))).
  clear. intros tl slide tl1 S C.
  apply slide_step_ok in S as (o & A & Ev & Ea & _).
  apply as_clip_shape in A.
  destruct (captions_timing (last_clip_end tl) (Slide.voice_overs slide))
    as [Fc Tc].
  rewrite Ev, Ea, !filter_app_b, !map_app, C, Fc, Tc.
  destruct o as [c |]; cbn [List.filter]; [| now rewrite app_nil_r].
  destruct A as [_ A].
  unfold is_caption in *. cbn [Clip.set_start Clip.set_duration Clip.source].
  rewrite A. now rewrite app_nil_r.
Qed.

(** X17: captions and audio are synchronised: the captions of the
    composite, taken in order, have the starts and the durations of the
    audio layers, taken in order. *)
Theorem captions_match_audio (fs : FS) (script : Script.t)
    (slides : list Slide.t) (video : Video) :
  compose fs script slides = Ok video ->
  map timing (List.filter is_caption (video_clips video))
  = map timing (audio_clips video).
Proof.
  intros E. apply compose_inv in E as (tl & L & P & -> & _).
  apply portraits_length in P as [_ ->]. cbn [List.filter].
  change (is_caption (background (last_clip_end tl))) with false.
  now apply (slide_loop_captions _ _ _ _ L).
Qed.

Lemma voice_over_loop_present (fs : FS) (vos : list VoiceOver.t)
    (s r : list Clip.t * list Clip.t * Num.t * Num.t) :
  for_each (voice_over_step fs) vos s = Ok r ->
  Forall (fun vo => cache_miss fs vo = false) vos.
Proof.
  revert s; induction vos as [|vo vos IH]; intros s; cbn [for_each];
    [constructor |].
  intros E. apply bind_ok in E as (s1 & E1 & E).
  constructor; [| now apply (IH s1)].
  destruct s as [[[vc ac] sd] cs]. unfold voice_over_step in E1.
  unfold VoiceOverClips.as_audio_clip, cache_miss in *.
  destruct (Path.exists_ fs _); [reflexivity | discriminate].
Qed.

Lemma slide_loop_present (fs : FS) (slides : list Slide.t) (tl tl' : Timeline) :
  for_each (slide_step fs) slides tl = Ok tl' ->
  Forall (fun vo => cache_miss fs vo = false) (all_voice_overs slides).
Proof.
  revert slides tl tl'. apply slide_loop_ind.
  - constructor.
  - intros slide slides tl tl1 tl' S _ IH.
    rewrite all_voice_overs_cons. apply Forall_app. split; [| exact IH].
    unfold slide_step in S. apply bind_ok in S as (r & L & _).
    now apply voice_over_loop_present in L.
Qed.

End TimelineMore.

Section MainMore.

Context `{Pydantic} `{Host}.

(** X18: when [main] returns, the script was parsed and has a voice-over,
    every [prepare] succeeded, [make] had exit status 0, the audio file of
    every voice-over was among the files that [make] left, the video was
    written to the output path, and the programs run were those of
    [generate_audio] followed by one [make]. *)
Theorem main_success (script : Script.t) (output_path : string)
    (w w' : World) :
  main script output_path w = Ok w' ->
  exists slides fs1,
    Script.parse_slides script = Ok slides
    /\ all_voice_overs slides <> []
    /\ prepared slides w = Ok fs1
    /\ fst (make fs1) = 0
    /\ Forall (fun vo => cache_miss (snd (make fs1)) vo = false)
         (all_voice_overs slides)
    /\ fs w' = Path.create (snd (make fs1)) output_path
    /\ ran w' = ran (generate_audio slides w) ++ [Run ["make"] None].
Proof.
  intros E. apply main_inv in E as (slides & fs1 & video & P & Pr & Z0 & C & ->).
  exists slides, fs1. cbn [fs ran].
  apply compose_inv in C as (tl & L & _ & _ & N & _).
  split; [exact P |]. split.
  - intros A. apply slide_loop_counts in L as [La _]. rewrite A in La.
    cbn [tl_audio_clips length] in La. apply N.
    now destruct (tl_audio_clips tl).
  - split; [exact Pr |]. split; [exact Z0 |].
    split; [| split; reflexivity].
    now apply slide_loop_present in L.
Qed.

End MainMore.

Lemma demo_compose_ok :
  exists video,
    compose (H := studio 0) demo_fs demo_script demo_slides = Ok video.
Proof.
  apply is_ok_inv. vm_compute. reflexivity.
Defined.

Lemma layer_counts_witness :
  exists video,
    compose (H := studio 0) demo_fs demo_script demo_slides = Ok video
    /\ length (audio_clips video) = 3%nat
    /\ length (video_clips video) = 6%nat.
Proof.
  destruct demo_compose_ok as [video E]. exists video. split; [exact E |].
  destruct (layer_counts (H := studio 0) _ _ _ _ E) as [A V].
  rewrite A, V. split; reflexivity.
Defined.

Lemma video_duration_is_sum_witness :
  exists video,
    compose (H := studio 0) demo_fs demo_script demo_slides = Ok video
    /\ video_duration video = Num.Flt (Finite 6500).
Proof.
  destruct demo_compose_ok as [video E]. exists video. split; [exact E |].
  rewrite (video_duration_is_sum (H := studio 0) _ _ _ _ E).
  vm_compute. reflexivity.
Defined.

Lemma captions_match_audio_witness :
  exists video,
    compose (H := studio 0) demo_fs demo_script demo_slides = Ok video
    /\ map timing (List.filter is_caption (video_clips video))
       = map timing (audio_clips video).
Proof.
  destruct demo_compose_ok as [video E]. exists video. split; [exact E |].
  exact (captions_match_audio (H := studio 0) _ _ _ _ E).
Defined.

Lemma main_success_witness :
  exists w' slides fs1,
    main (H := plain) (H0 := studio 0) demo_script "out.mp4" demo_world = Ok w'
    /\ Script.parse_slides (H := plain) demo_script = Ok slides
    /\ prepared (H := studio 0) slides demo_world = Ok fs1
    /\ Forall (fun vo => cache_miss (H := studio 0)
                           (snd (make (Host := studio 0) fs1)) vo = false)
         (all_voice_overs slides).
Proof.
  assert (K : is_ok (main (H := plain) (H0 := studio 0) demo_script
                       "out.mp4" demo_world) = true)
    by (vm_compute; reflexivity).
  apply is_ok_inv in K as [w' M].
  destruct (main_success (H := plain) (H0 := studio 0) _ _ _ _ M)
    as (slides & fs1 & P & _ & Pr & _ & F & _).
  exists w', slides, fs1. exact (conj M (conj P (conj Pr F))).
Defined.

(** ** More on the synthesis step *)

Section AudioCache.

Context `{Host}.

Lemma filter_none {A : Type} (f : A -> bool) (l : list A) :
  Forall (fun a => f a = false) l -> List.filter f l = [].
Proof.
  induction 1 as [|a l E _ IH]; cbn [List.filter]; [reflexivity |].
  now rewrite E.
Qed.

(** X19: in a world where the audio directory and the audio file of every
    voice-over exist, [generate_audio] is a no-op: no file is touched and
    no program is run; this is the state a run leaves when the backend
    has written the files it was asked for. *)
Theorem generate_audio_cached (slides : list Slide.t) (w : World) :
  Path.exists_ (fs w) AUDIO_ROOT = true ->
  Forall (fun vo => cache_miss (fs w) vo = false) (all_voice_overs slides) ->
  generate_audio slides w = w.
Proof.
  intros D F. unfold generate_audio. rewrite D. cbn [negb].
  rewrite audio_requests_rows, (filter_none _ _ F).
  cbn [map concat_rows]. rewrite String.eqb_refl. now destruct w.
Qed.

End AudioCache.

Lemma generate_audio_cached_witness :
  generate_audio (H := studio 0) demo_slides (mkWorld demo_fs [] [])
  = mkWorld demo_fs [] [].
Proof.
  apply (generate_audio_cached (H := studio 0)).
  - vm_compute. reflexivity.
  - constructor; [vm_compute; reflexivity |].
    constructor; [vm_compute; reflexivity |].
    constructor; [vm_compute; reflexivity |].
    constructor.
Defined.

(** ** The order of the layers *)

Section LayerOrder.

Context `{Host}.

Lemma slide_loop_layout (fs : FS) (slides : list Slide.t) (tl tl' : Timeline) :
  for_each (slide_step fs) slides tl = Ok tl' ->
  exists visuals,
    Forall2 (fun slide visual => as_clip slide fs = Ok visual) slides visuals
    /\ tl_video_clips tl'
       = tl_video_clips tl
           ++ video_layout (last_clip_end tl) (combine slides visuals)
    /\ tl_audio_clips tl'
       = tl_audio_clips tl ++ audio_layout (last_clip_end tl) slides.
Proof.
  revert tl; induction slides as [|slide slides IH]; intros tl;
    cbn [for_each].
  - intros [= <-]. exists []. cbn. rewrite !app_nil_r. auto.
  - intros E. apply bind_ok in E as (tl1 & S & E).
    destruct (IH tl1 E) as (visuals & F & Ev & Ea).
    apply slide_step_ok in S as (o & A & Sv & Sa & _ & Sl).
    exists (o :: visuals). split; [now constructor |].
    cbn [combine video_layout audio_layout].
    rewrite Ev, Ea, Sv, Sa, Sl. rewrite <- !app_assoc. auto.
Qed.

Lemma portrait_loop_layout (fs : FS) (total : Num.t)
    (cs : list (string * Character.t)) (vc vc' : list Clip.t) :
  for_each (portrait_step fs total) cs vc = Ok vc' ->
  exists portraits,
    Forall2 (fun character c => portrait fs character = Ok c) cs portraits
    /\ vc' = vc ++ map (fun c => Clip.set_duration c total) portraits.
Proof.
  revert vc; induction cs as [|ch cs IH]; intros vc; cbn [for_each].
  - intros [= <-]. exists []. cbn. rewrite app_nil_r. auto.
  - intros E. apply bind_ok in E as (vc1 & S & E).
    destruct (IH vc1 E) as (portraits & F & ->).
    unfold portrait_step in S. apply bind_ok in S as (c & Fc & S).
    injection S as <-. exists (c :: portraits).
    split; [now constructor |]. cbn [map]. now rewrite <- app_assoc.
Qed.

(** X20: the layers of the composite are emitted in this order, which is
    the order in which they are drawn: the background of the caption
    region, then for each slide in turn its captions followed by its
    visual if it has one, then the portraits in the order of the character
    registry; the audio layers are those of the slides in turn. A slide
    starts where the slide before it ends. *)
Theorem layer_order (fs : FS) (script : Script.t) (slides : list Slide.t)
    (video : Video) :
  compose fs script slides = Ok video ->
  exists visuals portraits,
    Forall2 (fun slide visual => as_clip slide fs = Ok visual) slides visuals
    /\ Forall2 (fun character c => portrait fs character = Ok c)
         (Script.characters script) portraits
    /\ video_clips video
       = background (video_duration video)
           :: video_layout (Num.Int 0) (combine slides visuals)
           ++ map (fun c => Clip.set_duration c (video_duration video))
                portraits
    /\ audio_clips video = audio_layout (Num.Int 0) slides.
Proof.
  intros E. apply compose_inv in E as (tl & L & P & -> & _ & ->).
  apply slide_loop_layout in L as (visuals & F & Ev & Ea).
  apply portrait_loop_layout in P as (portraits & Fp & ->).
  exists visuals, portraits. cbn [tl_video_clips tl_audio_clips app] in *.
  rewrite Ev, Ea. auto.
Qed.

End LayerOrder.

Lemma layer_order_witness :
  exists video,
    compose (H := studio 0) demo_fs demo_script demo_slides = Ok video
    /\ audio_clips video = audio_layout (H := studio 0) (Num.Int 0) demo_slides.
Proof.
  destruct demo_compose_ok as [video E]. exists video. split; [exact E |].
  destruct (layer_order (H := studio 0) _ _ _ _ E) as (vs & ps & _ & _ & _ & A).
  exact A.
Defined.
